(** * Inventory routing for perishable products: the model built by
      [inventory_routing_problem.ipynb]

    The notebook reads a set of constants, computes the table
    [right_of_const_21], declares the decision variables of a mixed-integer
    linear program with PuLP, assembles the objective and the constraint
    families (2)-(10) and (21), hands the problem to CBC and prints the
    solution.

    Numbers are modelled as real numbers ([R]): rounding of floating point
    arithmetic is outside this development.  A Python exception ([KeyError]
    of a variable dictionary, [IndexError] of a table, [ZeroDivisionError])
    is the result [None]. *)

From Stdlib Require Import Reals Lra Lia.
From stdpp Require Import base decidable option list.

(** ** Python and NumPy primitives *)

(** [range(lo, hi)] *)
Definition range (lo hi : nat) : list nat := seq lo (hi - lo).

(** The builtin [sum] over a list of numbers. *)
Definition Rsum (l : list R) : R := foldr Rplus 0%R l.

#[global] Instance R_eq_dec : EqDecision R := Req_dec_T.

(** [x / y] on Python numbers: [ZeroDivisionError] when [y] is zero. *)
Definition pydiv (x y : R) : option R :=
  if decide (y = 0%R) then None else Some (x / y)%R.

(** [tbl[i][j]] on a list of lists (indices are never negative here). *)
Definition index2 (tbl : list (list R)) (i j : nat) : option R :=
  row ← tbl !! i; row !! j.

(** [np.zeros([rows, cols])] *)
Definition np_zeros (rows cols : nat) : list (list R) :=
  replicate rows (replicate cols 0%R).

(** [arr[i][j] = v] on a two-dimensional array: [IndexError] outside it. *)
Definition setitem2 (arr : list (list R)) (i j : nat) (v : R)
  : option (list (list R)) :=
  row ← arr !! i;
  if decide (j < length row) then Some (<[i := <[j := v]> row]> arr) else None.

(** A [for] loop that yields a list at every round (a loop adding
    constraints, a generator expression); it raises when a round does. *)
Definition for_each {A B : Type} (l : list A) (body : A → option (list B))
  : option (list B) :=
  @concat B <$> mapM body l.

Definition yield {B : Type} (x : B) : option (list B) := Some [x].

(** Four loops, one inside the other. *)
Definition loop4 {A1 A2 A3 A4 B : Type} (l1 : list A1) (l2 : list A2)
    (l3 : list A3) (l4 : list A4)
    (body : A1 → A2 → A3 → A4 → option (list B)) : option (list B) :=
  for_each l1 (λ x1, for_each l2 (λ x2, for_each l3 (λ x3,
    for_each l4 (λ x4, body x1 x2 x3 x4)))).

(** A [for] loop whose body updates one value and may raise. *)
Fixpoint for_fold {A S : Type} (l : list A) (body : A → S → option S) (s : S)
  : option S :=
  match l with
  | [] => Some s
  | x :: l' => s' ← body x s; for_fold l' body s'
  end.

(** [arr] has [rows] rows of [cols] entries. *)
Definition dims (arr : list (list R)) (rows cols : nat) : Prop :=
  length arr = rows ∧ Forall (λ row, length row = cols) arr.

(** The double loop that fills an array: for every [t] of [lt] and every
    [i] of [li], [arr[i][t] = entry i t]. *)
Definition fill_column (entry : nat → nat → option R) (li : list nat)
    (t : nat) (arr : list (list R)) : option (list (list R)) :=
  for_fold li (λ i arr, v ← entry i t; setitem2 arr i t v) arr.

Definition fill (entry : nat → nat → option R) (lt li : list nat)
    (arr : list (list R)) : option (list (list R)) :=
  for_fold lt (λ t arr, fill_column entry li t arr) arr.

(** ** The constants of the notebook *)

Module Params.
Record t : Type := mk {
  V : nat; K : nat; T : nat;
  xi : R; kappa : R; psi : R; k_e : R; N_e : R; V_e : R; rho : R;
  A_e : R; mu : R; g : R; phi : R; C_d : R; C_r : R; epsilon : R;
  varpi : R; l : R; r : R;
  c : R; b : R; u : R; f : R; C : R; alpha : R; h : R; m : nat; p : R;
  d_mu : list (list R);
  a : list (list R)
}.
End Params.

(** ** Decision variables and affine expressions of PuLP *)

(** A variable is named by its family and its indices, as
    [LpVariable.dicts] names it. *)
Module Var.
Inductive t : Type :=
| X (i j k t : nat)
| F (i j k t : nat)
| I (i t : nat)
| Ip (i t : nat)
| W (i t : nat)
| Q (i k t : nat).

#[global] Instance eq_dec : EqDecision t.
Proof. solve_decision. Defined.
End Var.

Inductive category : Type := Continuous | Binary.

(** [LpAffineExpression]: built from numbers and variables with [+], [-] and
    multiplication by a number. *)
Inductive expr : Type :=
| Const (x : R)
| Var (v : Var.t)
| Add (e1 e2 : expr)
| Sub (e1 e2 : expr)
| Scale (x : R) (e : expr).

(** [pulp.lpSum] *)
Definition lpSum (es : list expr) : expr := foldr Add (Const 0%R) es.

Inductive sense : Type := LE | EQ | GE.

(** [pulp.LpStatus] *)
Inductive LpStatus : Type :=
| LpStatusNotSolved
| LpStatusOptimal
| LpStatusInfeasible
| LpStatusUnbounded
| LpStatusUndefined.

(** [LpConstraint]: [lhs <= rhs], [lhs == rhs] or [lhs >= rhs]. *)
Record constraint : Type := Constraint {
  lhs : expr;
  rel : sense;
  rhs : expr
}.

Declare Scope expr_scope.
Delimit Scope expr_scope with E.
Bind Scope expr_scope with expr.
Notation "e1 + e2" := (Add e1 e2) : expr_scope.
Notation "e1 - e2" := (Sub e1 e2) : expr_scope.
Notation "x * e" := (Scale x%R e) : expr_scope.
Notation "e .* x" := (Scale x%R e) (at level 40, left associativity) : expr_scope.
Notation "e1 <== e2" := (Constraint e1 LE e2) (at level 70, no associativity).
Notation "e1 === e2" := (Constraint e1 EQ e2) (at level 70, no associativity).
Notation "e1 >== e2" := (Constraint e1 GE e2) (at level 70, no associativity).

(** [LpProblem]: the objective (once set) and the constraints in the order
    they were added. *)
Record LpProblem : Type := Problem {
  objective : option expr;
  constraints : list constraint
}.

(** The value of an expression under an assignment of the variables
    ([pulp.value]). *)
Fixpoint eval (σ : Var.t → R) (e : expr) : R :=
  match e with
  | Const x => x
  | Var v => σ v
  | Add e1 e2 => (eval σ e1 + eval σ e2)%R
  | Sub e1 e2 => (eval σ e1 - eval σ e2)%R
  | Scale x e => (x * eval σ e)%R
  end.

Definition sat (σ : Var.t → R) (c : constraint) : Prop :=
  match rel c with
  | LE => (eval σ (lhs c) <= eval σ (rhs c))%R
  | EQ => eval σ (lhs c) = eval σ (rhs c)
  | GE => (eval σ (lhs c) >= eval σ (rhs c))%R
  end.

(** The variables an expression mentions. *)
Fixpoint vars (e : expr) : list Var.t :=
  match e with
  | Const _ => []
  | Var v => [v]
  | Add e1 e2 | Sub e1 e2 => vars e1 ++ vars e2
  | Scale _ e => vars e
  end.

(** ** The notebook, cell by cell *)

Module Notebook.
Section Cells.

(** [scipy.stats.norm.ppf(loc=0, scale=1, q=...)], the quantile function of
    the standard normal distribution: a function of SciPy, not of the
    notebook. *)
Variable norm_ppf : R → R.

Variable P : Params.t.

Local Abbreviation V := (Params.V P).
Local Abbreviation K := (Params.K P).
Local Abbreviation T := (Params.T P).
Local Abbreviation xi := (Params.xi P).
Local Abbreviation kappa := (Params.kappa P).
Local Abbreviation psi := (Params.psi P).
Local Abbreviation k_e := (Params.k_e P).
Local Abbreviation N_e := (Params.N_e P).
Local Abbreviation V_e := (Params.V_e P).
Local Abbreviation rho := (Params.rho P).
Local Abbreviation A_e := (Params.A_e P).
Local Abbreviation mu := (Params.mu P).
Local Abbreviation g := (Params.g P).
Local Abbreviation phi := (Params.phi P).
Local Abbreviation C_d := (Params.C_d P).
Local Abbreviation C_r := (Params.C_r P).
Local Abbreviation epsilon := (Params.epsilon P).
Local Abbreviation varpi := (Params.varpi P).
Local Abbreviation l := (Params.l P).
Local Abbreviation r := (Params.r P).
Local Abbreviation c := (Params.c P).
Local Abbreviation f := (Params.f P).
Local Abbreviation C := (Params.C P).
Local Abbreviation alpha := (Params.alpha P).
Local Abbreviation h := (Params.h P).
Local Abbreviation m := (Params.m P).
Local Abbreviation p := (Params.p P).
Local Abbreviation d_mu := (Params.d_mu P).
Local Abbreviation a := (Params.a P).

Definition range_i : list nat := range 0 V.
Definition range_j : list nat := range 0 V.
Definition range_i_ : list nat := range 1 V.
Definition range_j_ : list nat := range 1 V.
Definition range_k : list nat := range 1 (K + 1).
Definition range_t : list nat := range 1 (T + 1).

(** *** Table 2: the coefficients of the fuel model *)

Definition lambda_ : option R := pydiv xi (kappa * psi).
Definition y : R := (k_e * N_e * V_e)%R.
Definition gamma : option R := pydiv 1 (1000 * epsilon * varpi).
Definition beta : R := (0.5 * C_d * A_e * rho)%R.
Definition s_ : R := (g * sin phi + g * C_r * cos phi)%R.

(** [stats.norm.ppf] at the service level: a real number when
    [0 < alpha < 1]; at 0 and 1 SciPy gives an infinity and elsewhere
    [nan], which the real numbers do not have. *)
Definition Za : R := norm_ppf alpha.

(** *** The right-hand side of constraint (21) *)

(** [sum(... for s in ...)] over numbers. *)
Definition sum_for {A : Type} (l : list A) (item : A → option R) : option R :=
  Rsum <$> mapM item l.

(** The value stored at [right_of_const_21[i][t]].  [np.sqrt] is the square
    root of a real number; NumPy raises on a Python integer that no 64-bit
    integer holds. *)
Definition right_of_const_21_entry (i t : nat) : option R :=
  s1 ← sum_for (range 1 (t + 1)) (λ s, index2 d_mu i s);
  s2 ← sum_for (range 1 (t + 1)) (λ s, x ← index2 d_mu i s; Some (x ^ 2)%R);
  Some (s1 + sqrt s2 * C * Za)%R.

Definition right_of_const_21 : option (list (list R)) :=
  for_fold range_t (λ t arr,
    for_fold range_i_ (λ i arr,
      v ← right_of_const_21_entry i t;
      setitem2 arr i t v) arr)
    (np_zeros V (T + 1)).

(** *** Decision variables *)

(** [LpVariable.dicts(name, (r1, r2, r3, r4), ...)] read at [[i][j][k][t]]:
    [KeyError] when an index is not a key. *)
Definition dicts4 (name : nat → nat → nat → nat → Var.t)
    (r1 r2 r3 r4 : list nat) (i j k t : nat) : option Var.t :=
  if decide (i ∈ r1 ∧ j ∈ r2 ∧ k ∈ r3 ∧ t ∈ r4)
  then Some (name i j k t) else None.

Definition dicts3 (name : nat → nat → nat → Var.t)
    (r1 r2 r3 : list nat) (i k t : nat) : option Var.t :=
  if decide (i ∈ r1 ∧ k ∈ r2 ∧ t ∈ r3) then Some (name i k t) else None.

Definition dicts2 (name : nat → nat → Var.t)
    (r1 r2 : list nat) (i t : nat) : option Var.t :=
  if decide (i ∈ r1 ∧ t ∈ r2) then Some (name i t) else None.

Definition X := dicts4 Var.X range_i range_j range_k range_t.
Definition F := dicts4 Var.F range_i range_j range_k range_t.
Definition I := dicts2 Var.I range_i_ range_t.
Definition Ip := dicts2 Var.Ip range_i_ range_t.
Definition W := dicts2 Var.W range_i_ range_t.
Definition Q := dicts3 Var.Q range_i_ range_k range_t.

(** The [cat] and [lowBound] the families are declared with. *)
Definition var_cat (v : Var.t) : category :=
  match v with
  | Var.X _ _ _ _ => Binary
  | _ => Continuous
  end.

Definition var_lowBound (v : Var.t) : option R :=
  match v with
  | Var.F _ _ _ _ | Var.Ip _ _ | Var.W _ _ | Var.Q _ _ _ => Some 0%R
  | Var.X _ _ _ _ | Var.I _ _ => None
  end.

(** The constraints added with [X] and with [F]: no loop on a node. *)
Definition X_diagonal : option (list constraint) :=
  for_each range_t (λ t, for_each range_k (λ k,
    for_each range_j (λ j, for_each range_i (λ i,
      if decide (i = j)
      then x ← X i j k t; yield (Var x === Const 0)
      else Some [])))).

Definition F_diagonal : option (list constraint) :=
  for_each range_t (λ t, for_each range_k (λ k,
    for_each range_j (λ j, for_each range_i (λ i,
      if decide (i = j)
      then x ← F i j k t; yield (Var x === Const 0)
      else Some [])))).

(** *** The objective (1) *)

Definition inventory_cost : option expr :=
  lpSum <$> for_each range_i_ (λ i, for_each range_t (λ t,
    v ← Ip i t; yield (Var v .* h)%E)).

Definition waste_cost : option expr :=
  lpSum <$> for_each range_i_ (λ i, for_each (range m (T + 1)) (λ t,
    v ← W i t; yield (Var v .* p)%E)).

Definition fuel_cost : option expr :=
  lambda_ ← lambda_; gamma ← gamma;
  lpSum <$> for_each range_t (λ t, for_each range_k (λ k,
    for_each range_j (λ j, for_each range_i (λ i,
      if decide (i ≠ j)
      then a_ij ← index2 a i j; x ← X i j k t; fl ← F i j k t;
           yield ((lambda_ * ((y * a_ij)%R * Var x
                              + (gamma * beta * a_ij * f ^ 2)%R * Var x
                              + ((gamma * s_)%R * (mu * Var x + Var fl))
                                .* a_ij))
                  .* l)%E
      else yield (Const 0))))).

Definition driver_cost : option expr :=
  lpSum <$> for_each range_t (λ t, for_each range_k (λ k,
    for_each range_j (λ j, for_each range_i (λ i,
      if decide (i ≠ j)
      then a_ij ← index2 a i j; d ← pydiv a_ij f; x ← X i j k t;
           yield ((d * Var x) .* r)%E
      else yield (Const 0))))).

(** *** The constraints *)

(** (2): the expected inventory of every customer at the end of every
    period. *)
Definition constraint_2 (i t : nat) : option constraint :=
  v ← I i t;
  qs ← for_each (range 1 (t + 1)) (λ s, for_each range_k (λ k,
         q ← Q i k s; yield (Var q)));
  ws ← for_each (range 1 t) (λ s,
         d ← index2 d_mu i s; w ← W i s; yield (Const d + Var w)%E);
  Some (Var v === lpSum qs - lpSum ws)%E.

Definition constraints_2 : option (list constraint) :=
  for_each range_t (λ t, for_each range_i_ (λ i,
    c ← constraint_2 i t; yield c)).

(** (3): [Ip] is above the inventory. *)
Definition constraint_3 (i t : nat) : option constraint :=
  v ← Ip i t; w ← I i t; Some (Var v >== Var w).

Definition constraints_3 : option (list constraint) :=
  for_each range_t (λ t, for_each range_i_ (λ i,
    c ← constraint_3 i t; yield c)).

(** (4), (5): the expected waste. *)
Definition constraint_4 (i t : nat) : option constraint :=
  v ← W i t;
  inv ← I i (t - m + 1);
  ds ← for_each (range (t - m + 2) (t + 1)) (λ s,
         d ← index2 d_mu i s; yield (Const d));
  ws ← for_each (range (t - m + 2) t) (λ s, w ← W i s; yield (Var w));
  Some (Var v >== Var inv - lpSum ds - lpSum ws)%E.

Definition constraint_5 (i t : nat) : option constraint :=
  v ← W i t; Some (Var v === Const 0).

Definition constraints_4_5 : option (list constraint) :=
  for_each range_t (λ t,
    if decide (m ≤ t)
    then for_each range_i_ (λ i, c ← constraint_4 i t; yield c)
    else for_each range_i_ (λ i, c ← constraint_5 i t; yield c)).

(** (7): as many vehicles arrive at a customer as leave it. *)
Definition constraint_7 (j k t : nat) : option constraint :=
  left ← for_each range_i (λ i,
           if decide (i ≠ j) then x ← X i j k t; yield (Var x)
           else yield (Const 0));
  right ← for_each range_i (λ i,
            if decide (i ≠ j) then x ← X j i k t; yield (Var x)
            else yield (Const 0));
  Some (lpSum left === lpSum right).

Definition constraints_7 : option (list constraint) :=
  for_each range_t (λ t, for_each range_k (λ k, for_each range_j_ (λ j,
    c ← constraint_7 j k t; yield c))).

(** (8): a vehicle leaves a node at most once in a period. *)
Definition constraint_8 (i k t : nat) : option constraint :=
  out ← for_each range_j (λ j,
          if decide (i ≠ j) then x ← X i j k t; yield (Var x)
          else yield (Const 0));
  Some (lpSum out <== Const 1).

Definition constraints_8 : option (list constraint) :=
  for_each range_t (λ t, for_each range_k (λ k, for_each range_i (λ i,
    c ← constraint_8 i k t; yield c))).

(** (9): the load drops by what is delivered. *)
Definition constraint_9 (i k t : nat) : option constraint :=
  left ← for_each range_j (λ j,
           if decide (i ≠ j) then x ← F i j k t; yield (Var x)
           else yield (Const 0));
  right ← for_each range_j (λ j,
            if decide (i ≠ j) then x ← F j i k t; yield (Var x)
            else yield (Const 0));
  q ← Q i k t;
  Some (lpSum left === lpSum right - Var q)%E.

Definition constraints_9 : option (list constraint) :=
  for_each range_t (λ t, for_each range_k (λ k, for_each range_i_ (λ i,
    c ← constraint_9 i k t; yield c))).

(** (10): the capacity of a vehicle. *)
Definition constraint_10 (i j k t : nat) : option constraint :=
  left ← F i j k t;
  x ← X j i k t;
  Some (Var left <== c * Var x)%E.

Definition constraints_10 : option (list constraint) :=
  for_each range_t (λ t, for_each range_k (λ k,
    for_each range_i (λ i, for_each range_j (λ j,
      if decide (i ≠ j)
      then c ← constraint_10 i j k t; yield c
      else Some [])))).

(** (21): the service level at the end of every period. *)
Definition constraint_21 (rhs21 : list (list R)) (i t : nat)
  : option constraint :=
  qs ← for_each (range 1 (t + 1)) (λ s, for_each range_k (λ k,
         q ← Q i k s; yield (Var q)));
  ws ← for_each (range 1 t) (λ s, w ← W i s; yield (Var w));
  bound ← index2 rhs21 i t;
  Some (lpSum qs - lpSum ws >== Const bound)%E.

Definition constraints_21 (rhs21 : list (list R))
  : option (list constraint) :=
  for_each range_t (λ t, for_each range_i_ (λ i,
    c ← constraint_21 rhs21 i t; yield c)).

(** *** The notebook up to the call of the solver *)

Record state : Type := State {
  st_right_of_const_21 : list (list R);
  st_inventory_cost : expr;
  st_waste_cost : expr;
  st_fuel_cost : expr;
  st_driver_cost : expr;
  st_problem : LpProblem
}.

Definition build : option state :=
  _ ← lambda_; _ ← gamma;
  rhs21 ← right_of_const_21;
  cX ← X_diagonal;
  cF ← F_diagonal;
  inventory_cost ← inventory_cost;
  waste_cost ← waste_cost;
  fuel_cost ← fuel_cost;
  driver_cost ← driver_cost;
  c2 ← constraints_2;
  c3 ← constraints_3;
  c45 ← constraints_4_5;
  c7 ← constraints_7;
  c8 ← constraints_8;
  c9 ← constraints_9;
  c10 ← constraints_10;
  c21 ← constraints_21 rhs21;
  Some {|
    st_right_of_const_21 := rhs21;
    st_inventory_cost := inventory_cost;
    st_waste_cost := waste_cost;
    st_fuel_cost := fuel_cost;
    st_driver_cost := driver_cost;
    st_problem := {|
      objective :=
        Some (inventory_cost + waste_cost + fuel_cost + driver_cost)%E;
      constraints :=
        cX ++ cF ++ c2 ++ c3 ++ c45 ++ c7 ++ c8 ++ c9 ++ c10 ++ c21 |} |}.


(** *** After the solver *)

(** [problem.solve] gives a status and leaves a value in every variable;
    the cells that follow print the status, the costs, the routes used
    and, for every customer, the waste and inventory costs of the last
    period. *)
Record report : Type := Report {
  rep_status : LpStatus;
  rep_objective : R;
  rep_inventory_cost : R;
  rep_waste_cost : R;
  rep_fuel_cost : R;
  rep_driver_cost : R;
  rep_routes : list (list nat);
  rep_waste : list (nat * R);
  rep_inventory : list (nat * R)
}.

(** The lines of the route listing: the period, then [t k i j] for every
    edge whose indicator has the value 1. *)
Definition print_routes (σ : Var.t → R) : option (list (list nat)) :=
  for_each range_t (λ t,
    lines ← for_each range_k (λ k, for_each range_i (λ i,
               for_each range_j (λ j,
                 x ← X i j k t;
                 if decide (σ x = 1%R) then yield [t; k; i; j]
                 else Some [])));
    Some ([t] :: lines)).

Definition print_waste (σ : Var.t → R) : option (list (nat * R)) :=
  for_each range_i (λ i,
    if decide (i ≠ 0) then w ← W i T; yield (i, (σ w * p)%R) else Some []).

Definition print_inventory (σ : Var.t → R) : option (list (nat * R)) :=
  for_each range_i (λ i,
    if decide (i ≠ 0) then v ← Ip i T; yield (i, (σ v * h)%R) else Some []).

Definition print_solution (st : state) (result_status : LpStatus)
    (σ : Var.t → R) : option report :=
  obj ← objective (st_problem st);
  routes ← print_routes σ;
  waste ← print_waste σ;
  inventory ← print_inventory σ;
  Some {|
    rep_status := result_status;
    rep_objective := eval σ obj;
    rep_inventory_cost := eval σ (st_inventory_cost st);
    rep_waste_cost := eval σ (st_waste_cost st);
    rep_fuel_cost := eval σ (st_fuel_cost st);
    rep_driver_cost := eval σ (st_driver_cost st);
    rep_routes := routes;
    rep_waste := waste;
    rep_inventory := inventory |}.

(** *** Solutions of the model *)

(** The variables the dictionaries hold. *)
Definition declared (v : Var.t) : Prop :=
  match v with
  | Var.X i j k t => X i j k t = Some v
  | Var.F i j k t => F i j k t = Some v
  | Var.I i t => I i t = Some v
  | Var.Ip i t => Ip i t = Some v
  | Var.W i t => W i t = Some v
  | Var.Q i k t => Q i k t = Some v
  end.

(** A value respects the category and the lower bound of its variable. *)
Definition in_domain (σ : Var.t → R) (v : Var.t) : Prop :=
  match var_lowBound v with Some lb => (lb <= σ v)%R | None => True end ∧
  match var_cat v with Binary => σ v = 0%R ∨ σ v = 1%R | Continuous => True end.

(** A feasible solution of a problem: every declared variable has a value
    of its domain and every constraint holds. *)
Definition feasible (pb : LpProblem) (σ : Var.t → R) : Prop :=
  (∀ v, declared v → in_domain σ v) ∧
  (∀ c, c ∈ constraints pb → sat σ c).

(** *** Inputs on which no cell raises *)

Definition table_ok (tbl : list (list R)) (rows cols : nat) : Prop :=
  ∀ i j, i < rows → j < cols → is_Some (index2 tbl i j).

Record well_formed : Prop := WellFormed {
  wf_shelf_life : 1 ≤ m;
  wf_lambda : (kappa * psi)%R ≠ 0%R;
  wf_gamma : (1000 * epsilon * varpi)%R ≠ 0%R;
  wf_speed : f ≠ 0%R;
  wf_d_mu : table_ok d_mu V (T + 1);
  wf_a : table_ok a V V
}.

(** [d_mu[i][s]] as a number (0 outside the table). *)
Definition demand (i s : nat) : R := default 0%R (index2 d_mu i s).

(** [a[i][j]] as a number (0 outside the table). *)
Definition distance (i j : nat) : R := default 0%R (index2 a i j).

(** The fuel a vehicle burns on the edge from [i] to [j], as the objective
    counts it, when it drives the edge (indicator [x]) with the load [fl]. *)
Definition fuel_on_edge (i j : nat) (x fl : R) : R :=
  (xi / (kappa * psi)
   * (y * distance i j * x
      + 1 / (1000 * epsilon * varpi) * beta * distance i j * f ^ 2 * x
      + 1 / (1000 * epsilon * varpi) * s_ * (mu * x + fl) * distance i j))%R.

(** The variables the objective may mention: the positive inventories,
    the waste from period [m] on, and routes and loads between two
    different nodes. *)
Definition objective_var (v : Var.t) : Prop :=
  match v with
  | Var.Ip _ _ => True
  | Var.W _ t => m ≤ t
  | Var.X i j _ _ | Var.F i j _ _ => i ≠ j
  | Var.I _ _ | Var.Q _ _ _ => False
  end.

End Cells.
End Notebook.

(** ** Sums as the formulas of the model write them *)

(** [sigma_n lo n f] is f(lo) + ... + f(lo+n-1). *)
Fixpoint sigma_n (lo n : nat) (f : nat → R) : R :=
  match n with
  | 0 => 0%R
  | S n' => (sigma_n lo n' f + f (lo + n')%nat)%R
  end.

(** [sigma lo hi f] is the sum of [f s] for [s = lo, ..., hi]; it is empty
    when [hi < lo]. *)
Definition sigma (lo hi : nat) (f : nat → R) : R := sigma_n lo (S hi - lo) f.

(** The sum of [f i j] over the ordered pairs of distinct nodes. *)
Definition sigma_edges (V : nat) (f : nat → nat → R) : R :=
  sigma_n 0 V (λ i, sigma_n 0 V (λ j, if decide (i = j) then 0%R else f i j)).

(** The number of vehicle arrivals at node [j], and of departures from it,
    for vehicle [k] in period [t] (loops on a node left out). *)
Definition in_degree (V : nat) (σ : Var.t → R) (j k t : nat) : R :=
  sigma_n 0 V (λ i, if decide (i = j) then 0%R else σ (Var.X i j k t)).

Definition out_degree (V : nat) (σ : Var.t → R) (j k t : nat) : R :=
  sigma_n 0 V (λ i, if decide (i = j) then 0%R else σ (Var.X j i k t)).

(** The constants [P] with another service level. *)
Definition with_alpha (P : Params.t) (alpha' : R) : Params.t := {|
  Params.V := Params.V P;
  Params.K := Params.K P;
  Params.T := Params.T P;
  Params.xi := Params.xi P;
  Params.kappa := Params.kappa P;
  Params.psi := Params.psi P;
  Params.k_e := Params.k_e P;
  Params.N_e := Params.N_e P;
  Params.V_e := Params.V_e P;
  Params.rho := Params.rho P;
  Params.A_e := Params.A_e P;
  Params.mu := Params.mu P;
  Params.g := Params.g P;
  Params.phi := Params.phi P;
  Params.C_d := Params.C_d P;
  Params.C_r := Params.C_r P;
  Params.epsilon := Params.epsilon P;
  Params.varpi := Params.varpi P;
  Params.l := Params.l P;
  Params.r := Params.r P;
  Params.c := Params.c P;
  Params.b := Params.b P;
  Params.u := Params.u P;
  Params.f := Params.f P;
  Params.C := Params.C P;
  Params.alpha := alpha';
  Params.h := Params.h P;
  Params.m := Params.m P;
  Params.p := Params.p P;
  Params.d_mu := Params.d_mu P;
  Params.a := Params.a P
|}.


(** The property of the quantile function of the standard normal
    distribution that matters here: it increases on the open unit
    interval. *)
Definition increasing_on_unit (q : R → R) : Prop :=
  ∀ x y : R, (0 < x)%R → (x < y)%R → (y < 1)%R → (q x < q y)%R.

(** The bound of the chance constraint as the model states it:
    the cumulative mean demand of customer [i] up to period [t] plus the
    safety margin [Za * C * sqrt(sum of the squared means)]. *)
Definition RHS (norm_ppf : R → R) (P : Params.t) (i t : nat) : R :=
  (sigma 1 t (Notebook.demand P i)
   + Notebook.Za norm_ppf P * Params.C P
     * sqrt (sigma 1 t (λ s, Notebook.demand P i s ^ 2)))%R.

(** ** The constants as the notebook sets them *)
Definition notebook_params : Params.t := {|
  Params.V := 12; Params.K := 7; Params.T := 4;
  Params.xi := 1; Params.kappa := 44; Params.psi := 737;
  Params.k_e := 0.2; Params.N_e := 33; Params.V_e := 5;
  Params.rho := 1.2041; Params.A_e := 3.912; Params.mu := 6350;
  Params.g := 9.81; Params.phi := 0; Params.C_d := 0.7;
  Params.C_r := 0.01; Params.epsilon := 0.4; Params.varpi := 0.9;
  Params.l := 1.7; Params.r := 0.003;
  Params.c := 10000; Params.b := 0.21; Params.u := 2.63; Params.f := 80;
  Params.C := 0.1; Params.alpha := 0.95; Params.h := 0.06; Params.m := 2;
  Params.p := 0.6;
  Params.d_mu := [
    [0; 0; 0; 0; 0];
    [0; 900; 400; 1000; 600];
    [0; 1400; 1200; 17; 1200];
    [0; 500; 500; 1250; 600];
    [0; 1100; 2500; 500; 400];
    [0; 1050; 900; 1500; 1100];
    [0; 1200; 500; 400; 1400];
    [0; 800; 700; 500; 500];
    [0; 1900; 400; 300; 1300];
    [0; 800; 400; 700; 1300];
    [0; 1100; 1600; 400; 300];
    [0; 2600; 3200; 2500; 3200]
  ]%R;
  Params.a := [
    [0; 67; 89.2; 126; 78.1; 70.6; 106; 66.3; 64.4; 156; 151; 35.5];
    [73.2; 0; 154; 191; 143; 144; 141; 101; 74.3; 166; 176; 61.5];
    [70.8; 136; 0; 65.9; 62.9; 113; 158; 118; 126; 218; 212; 97.2];
    [126; 192; 69.5; 0; 98.9; 171; 233; 193; 182; 274; 268; 153];
    [78.4; 144; 63.2; 99.7; 0; 123; 185; 145; 134; 226; 220; 105];
    [70.9; 144; 105; 163; 115; 0; 50.2; 58.4; 120; 155; 220; 105];
    [106; 131; 161; 222; 175; 50.9; 0; 41.6; 75.3; 105; 199; 84.4];
    [66.5; 91.2; 121; 182; 135; 58.2; 40.1; 0; 35.3; 117; 159; 44.4];
    [67.4; 74.9; 149; 185; 137; 92.7; 74.4; 34.5; 0; 92.1; 120; 34.8];
    [158; 166; 239; 276; 228; 155; 106; 116; 92.4; 0; 69.6; 126];
    [150; 176; 232; 268; 220; 221; 192; 152; 119; 70; 0; 119];
    [35; 60.3; 116; 153; 105; 106; 83.6; 43.7; 30.6; 123; 118; 0]
  ]%R
|}.

(** The smallest instance: the depot and one customer, one vehicle, one
    period and a shelf life of one period, with the capacity [c], the
    holding cost [h], the coefficient [C], the service level [alpha] and
    the mean demand [d] of the customer left open. *)
Definition tiny_params (c h C alpha d : R) : Params.t := {|
  Params.V := 2; Params.K := 1; Params.T := 1;
  Params.xi := 1; Params.kappa := 1; Params.psi := 1; Params.k_e := 1;
  Params.N_e := 1; Params.V_e := 1; Params.rho := 1; Params.A_e := 1;
  Params.mu := 1; Params.g := 1; Params.phi := 0; Params.C_d := 1;
  Params.C_r := 1; Params.epsilon := 1; Params.varpi := 1;
  Params.l := 1; Params.r := 1;
  Params.c := c; Params.b := 1; Params.u := 1; Params.f := 1;
  Params.C := C; Params.alpha := alpha; Params.h := h; Params.m := 1;
  Params.p := 1;
  Params.d_mu := [[0; 0]; [0; d]]%R;
  Params.a := [[0; 1]; [1; 0]]%R
|}.

(** A stand-in for the quantile function where an instance is run:
    increasing, and zero at 1/2 as the quantile of the standard normal
    distribution is. *)
Definition example_ppf (q : R) : R := (q - 1 / 2)%R.

(** The load that arrives at node [i] on vehicle [k] in period [t], and the
    load that leaves it (loads from a node to itself left out). *)
Definition in_load (V : nat) (σ : Var.t → R) (i k t : nat) : R :=
  sigma_n 0 V (λ j, if decide (j = i) then 0%R else σ (Var.F j i k t)).

Definition out_load (V : nat) (σ : Var.t → R) (i k t : nat) : R :=
  sigma_n 0 V (λ j, if decide (j = i) then 0%R else σ (Var.F i j k t)).

(** The constants [P] with other numbers of nodes, vehicles and periods
    and another shelf life. *)
Definition with_sizes (P : Params.t) (V' K' T' m' : nat) : Params.t := {|
  Params.V := V';
  Params.K := K';
  Params.T := T';
  Params.xi := Params.xi P;
  Params.kappa := Params.kappa P;
  Params.psi := Params.psi P;
  Params.k_e := Params.k_e P;
  Params.N_e := Params.N_e P;
  Params.V_e := Params.V_e P;
  Params.rho := Params.rho P;
  Params.A_e := Params.A_e P;
  Params.mu := Params.mu P;
  Params.g := Params.g P;
  Params.phi := Params.phi P;
  Params.C_d := Params.C_d P;
  Params.C_r := Params.C_r P;
  Params.epsilon := Params.epsilon P;
  Params.varpi := Params.varpi P;
  Params.l := Params.l P;
  Params.r := Params.r P;
  Params.c := Params.c P;
  Params.b := Params.b P;
  Params.u := Params.u P;
  Params.f := Params.f P;
  Params.C := Params.C P;
  Params.alpha := Params.alpha P;
  Params.h := Params.h P;
  Params.m := m';
  Params.p := Params.p P;
  Params.d_mu := Params.d_mu P;
  Params.a := Params.a P
|}.

(** The constants [P] with other values where the notebook divides: the
    heating value and the conversion factor of the fuel, the two
    efficiencies and the speed. *)
Definition with_engine (P : Params.t) (kappa' psi' epsilon' varpi' f' : R) : Params.t := {|
  Params.V := Params.V P;
  Params.K := Params.K P;
  Params.T := Params.T P;
  Params.xi := Params.xi P;
  Params.kappa := kappa';
  Params.psi := psi';
  Params.k_e := Params.k_e P;
  Params.N_e := Params.N_e P;
  Params.V_e := Params.V_e P;
  Params.rho := Params.rho P;
  Params.A_e := Params.A_e P;
  Params.mu := Params.mu P;
  Params.g := Params.g P;
  Params.phi := Params.phi P;
  Params.C_d := Params.C_d P;
  Params.C_r := Params.C_r P;
  Params.epsilon := epsilon';
  Params.varpi := varpi';
  Params.l := Params.l P;
  Params.r := Params.r P;
  Params.c := Params.c P;
  Params.b := Params.b P;
  Params.u := Params.u P;
  Params.f := f';
  Params.C := Params.C P;
  Params.alpha := Params.alpha P;
  Params.h := Params.h P;
  Params.m := Params.m P;
  Params.p := Params.p P;
  Params.d_mu := Params.d_mu P;
  Params.a := Params.a P
|}.

(** The constants [P] with other demand and distance tables. *)
Definition with_tables (P : Params.t) (d_mu' a' : list (list R)) : Params.t := {|
  Params.V := Params.V P;
  Params.K := Params.K P;
  Params.T := Params.T P;
  Params.xi := Params.xi P;
  Params.kappa := Params.kappa P;
  Params.psi := Params.psi P;
  Params.k_e := Params.k_e P;
  Params.N_e := Params.N_e P;
  Params.V_e := Params.V_e P;
  Params.rho := Params.rho P;
  Params.A_e := Params.A_e P;
  Params.mu := Params.mu P;
  Params.g := Params.g P;
  Params.phi := Params.phi P;
  Params.C_d := Params.C_d P;
  Params.C_r := Params.C_r P;
  Params.epsilon := Params.epsilon P;
  Params.varpi := Params.varpi P;
  Params.l := Params.l P;
  Params.r := Params.r P;
  Params.c := Params.c P;
  Params.b := Params.b P;
  Params.u := Params.u P;
  Params.f := Params.f P;
  Params.C := Params.C P;
  Params.alpha := Params.alpha P;
  Params.h := Params.h P;
  Params.m := Params.m P;
  Params.p := Params.p P;
  Params.d_mu := d_mu';
  Params.a := a'
|}.

(** The inputs on which the cells up to the solver raise nothing, when
    there are a customer, a vehicle and a period: a shelf life of at least
    one period, no division by zero, a mean demand for every customer and
    period and a distance for every pair of different nodes. *)
Record inputs_ok (P : Params.t) : Prop := InputsOk {
  ok_shelf_life : 1 ≤ Params.m P;
  ok_lambda : (Params.kappa P * Params.psi P)%R ≠ 0%R;
  ok_gamma : (1000 * Params.epsilon P * Params.varpi P)%R ≠ 0%R;
  ok_speed : Params.f P ≠ 0%R;
  ok_d_mu : ∀ i s, 1 ≤ i < Params.V P → 1 ≤ s ≤ Params.T P →
    is_Some (index2 (Params.d_mu P) i s);
  ok_a : ∀ i j, i < Params.V P → j < Params.V P → i ≠ j →
    is_Some (index2 (Params.a P) i j)
}.

(** Constants that are not negative, a slope between 0 and a right angle
    and distances that are not negative. *)
Record nonnegative (P : Params.t) : Prop := Nonnegative {
  nn_xi : (0 <= Params.xi P)%R;
  nn_kappa : (0 <= Params.kappa P)%R;
  nn_psi : (0 <= Params.psi P)%R;
  nn_k_e : (0 <= Params.k_e P)%R;
  nn_N_e : (0 <= Params.N_e P)%R;
  nn_V_e : (0 <= Params.V_e P)%R;
  nn_rho : (0 <= Params.rho P)%R;
  nn_A_e : (0 <= Params.A_e P)%R;
  nn_mu : (0 <= Params.mu P)%R;
  nn_g : (0 <= Params.g P)%R;
  nn_phi : (0 <= Params.phi P <= PI / 2)%R;
  nn_C_d : (0 <= Params.C_d P)%R;
  nn_C_r : (0 <= Params.C_r P)%R;
  nn_epsilon : (0 <= Params.epsilon P)%R;
  nn_varpi : (0 <= Params.varpi P)%R;
  nn_l : (0 <= Params.l P)%R;
  nn_r : (0 <= Params.r P)%R;
  nn_f : (0 <= Params.f P)%R;
  nn_h : (0 <= Params.h P)%R;
  nn_p : (0 <= Params.p P)%R;
  nn_a : Forall (Forall (λ x, (0 <= x)%R)) (Params.a P)
}.

(** ** Where real numbers stand for SciPy's and NumPy's *)


(** Demands of a size [np.sqrt] takes when they are integers, whose squares
    Python adds up exactly: in every row of the demand table the squares
    add up to less than [2^64]. *)
Definition demands_in_range (P : Params.t) : Prop :=
  Forall (λ row, (Rsum ((λ x, x ^ 2) <$> row) < 2 ^ 64)%R) (Params.d_mu P).

(** * Proofs *)

(** ** Loops, generators and sums *)

Section Loops.
Context {A B : Type}.
Implicit Types (l : list A) (body : A → option (list B)).

Lemma for_each_nil body : for_each [] body = Some [].
Proof. reflexivity. Qed.

Lemma for_each_cons x l body :
  for_each (x :: l) body =
  ys ← body x; yss ← for_each l body; Some (ys ++ yss).
Proof.
  unfold for_each. simpl. destruct (body x) as [ys|]; simpl; [|done].
  destruct (mapM body l); simpl; done.
Qed.

(** A loop that raises nowhere yields the rounds' lists one after another. *)
Lemma for_each_ext l body (g : A → list B) :
  (∀ x, x ∈ l → body x = Some (g x)) →
  for_each l body = Some (concat (g <$> l)).
Proof.
  induction l as [|x l IH]; intros Hb; [done|].
  rewrite for_each_cons, Hb by left. simpl.
  rewrite IH; [done|]. intros z Hz. apply Hb. by right.
Qed.

Lemma for_each_yield l body (g : A → B) :
  (∀ x, x ∈ l → body x = Some [g x]) →
  for_each l body = Some (g <$> l).
Proof.
  intros Hb. rewrite (for_each_ext l body (λ x, [g x])) by done.
  f_equal. clear Hb. induction l as [|x l IH]; [done|].
  rewrite !fmap_cons. simpl. by rewrite IH.
Qed.

Lemma for_each_is_Some l body :
  (∀ x, x ∈ l → is_Some (body x)) → is_Some (for_each l body).
Proof.
  induction l as [|x l IH]; intros Hb; [by eexists|].
  rewrite for_each_cons.
  destruct (Hb x) as [ys ->]; [by left|]. simpl.
  destruct IH as [yss ->]; [|by eexists].
  intros z Hz. apply Hb. by right.
Qed.

(** What a loop yields is what its rounds yield. *)
Lemma for_each_elem_of l body ys y :
  for_each l body = Some ys →
  y ∈ ys ↔ ∃ x cx, x ∈ l ∧ body x = Some cx ∧ y ∈ cx.
Proof.
  revert ys. induction l as [|x l IH]; intros ys.
  - intros [= <-]. split; [by intros ?%elem_of_nil|].
    by intros (? & ? & ?%elem_of_nil & _).
  - rewrite for_each_cons.
    destruct (body x) as [cx|] eqn:Hx; simpl; [|done].
    destruct (for_each l body) as [yss|] eqn:Hl; simpl; [|done].
    intros [= <-]. rewrite elem_of_app, (IH yss) by done. split.
    + intros [Hy|(z & cz & Hz & Hbz & Hy)].
      * exists x, cx. split; [by left|done].
      * exists z, cz. split; [by right|done].
    + intros (z & cz & [->|Hz]%elem_of_cons & Hbz & Hy).
      * left. congruence.
      * right. eauto.
Qed.

Lemma for_each_round l body ys x cx :
  for_each l body = Some ys → x ∈ l → body x = Some cx → cx ⊆ ys.
Proof.
  intros Hl Hx Hb y Hy. apply (for_each_elem_of l body ys y Hl). eauto.
Qed.

(** A loop that ends has ended every round. *)
Lemma for_each_Some_round l body ys x :
  for_each l body = Some ys → x ∈ l → is_Some (body x).
Proof.
  revert ys. induction l as [|z l IH]; intros ys; [by intros _ ?%elem_of_nil|].
  rewrite for_each_cons.
  destruct (body z) as [cz|] eqn:Hz; simpl; [|done].
  destruct (for_each l body) as [yss|] eqn:Hl; simpl; [|done].
  intros _ [->|Hx]%elem_of_cons; [by rewrite Hz|]. eapply IH; eauto.
Qed.

End Loops.

Lemma elem_of_range lo hi x : x ∈ range lo hi ↔ lo ≤ x < hi.
Proof. unfold range. rewrite elem_of_seq. lia. Qed.

Lemma Rsum_app l1 l2 : Rsum (l1 ++ l2) = (Rsum l1 + Rsum l2)%R.
Proof. induction l1 as [|x l1 IH]; simpl; [lra|]. rewrite IH. lra. Qed.

Lemma Rsum_concat (ls : list (list R)) : Rsum (concat ls) = Rsum (Rsum <$> ls).
Proof.
  induction ls as [|l ls IH]; simpl; [done|]. by rewrite Rsum_app, IH.
Qed.

Lemma Rsum_seq lo n (f : nat → R) : Rsum (f <$> seq lo n) = sigma_n lo n f.
Proof.
  revert lo. induction n as [|n IH]; intros lo; [done|].
  rewrite seq_S, fmap_app, Rsum_app, IH. simpl. lra.
Qed.

Lemma Rsum_range lo hi (f : nat → R) :
  Rsum (f <$> range lo (S hi)) = sigma lo hi f.
Proof. apply Rsum_seq. Qed.

Lemma sigma_n_ext lo n (f1 f2 : nat → R) :
  (∀ s, lo ≤ s < lo + n → f1 s = f2 s) → sigma_n lo n f1 = sigma_n lo n f2.
Proof.
  induction n as [|n IH]; intros Hf; [done|]. simpl.
  rewrite IH, Hf; [done|lia|]. intros s Hs. apply Hf. lia.
Qed.

Lemma sigma_ext lo hi (f1 f2 : nat → R) :
  (∀ s, lo ≤ s ≤ hi → f1 s = f2 s) → sigma lo hi f1 = sigma lo hi f2.
Proof. intros Hf. apply sigma_n_ext. intros s Hs. apply Hf. lia. Qed.

Lemma eval_lpSum σ es : eval σ (lpSum es) = Rsum (eval σ <$> es).
Proof. induction es as [|e es IH]; simpl; [done|]. by rewrite IH. Qed.


(** ** The variable dictionaries *)

Section Dictionaries.
Import Notebook.
Variable P : Params.t.

Lemma dicts4_Some name r1 r2 r3 r4 i j k t v :
  dicts4 name r1 r2 r3 r4 i j k t = Some v ↔
  (i ∈ r1 ∧ j ∈ r2 ∧ k ∈ r3 ∧ t ∈ r4) ∧ v = name i j k t.
Proof.
  unfold dicts4. case_decide; split.
  - by intros [= <-].
  - by intros [_ ->].
  - done.
  - by intros [? _].
Qed.

Lemma dicts3_Some name r1 r2 r3 i k t v :
  dicts3 name r1 r2 r3 i k t = Some v ↔
  (i ∈ r1 ∧ k ∈ r2 ∧ t ∈ r3) ∧ v = name i k t.
Proof.
  unfold dicts3. case_decide; split.
  - by intros [= <-].
  - by intros [_ ->].
  - done.
  - by intros [? _].
Qed.

Lemma dicts2_Some name r1 r2 i t v :
  dicts2 name r1 r2 i t = Some v ↔ (i ∈ r1 ∧ t ∈ r2) ∧ v = name i t.
Proof.
  unfold dicts2. case_decide; split.
  - by intros [= <-].
  - by intros [_ ->].
  - done.
  - by intros [? _].
Qed.

Lemma X_Some i j k t v :
  X P i j k t = Some v ↔
  (i < Params.V P ∧ j < Params.V P ∧ 1 ≤ k ≤ Params.K P ∧ 1 ≤ t ≤ Params.T P)
  ∧ v = Var.X i j k t.
Proof.
  unfold X, range_i, range_j, range_k, range_t.
  rewrite dicts4_Some, !elem_of_range. intuition lia.
Qed.

Lemma F_Some i j k t v :
  F P i j k t = Some v ↔
  (i < Params.V P ∧ j < Params.V P ∧ 1 ≤ k ≤ Params.K P ∧ 1 ≤ t ≤ Params.T P)
  ∧ v = Var.F i j k t.
Proof.
  unfold F, range_i, range_j, range_k, range_t.
  rewrite dicts4_Some, !elem_of_range. intuition lia.
Qed.

Lemma I_Some i t v :
  I P i t = Some v ↔
  (1 ≤ i < Params.V P ∧ 1 ≤ t ≤ Params.T P) ∧ v = Var.I i t.
Proof.
  unfold I, range_i_, range_t.
  rewrite dicts2_Some, !elem_of_range. intuition lia.
Qed.

Lemma Ip_Some i t v :
  Ip P i t = Some v ↔
  (1 ≤ i < Params.V P ∧ 1 ≤ t ≤ Params.T P) ∧ v = Var.Ip i t.
Proof.
  unfold Ip, range_i_, range_t.
  rewrite dicts2_Some, !elem_of_range. intuition lia.
Qed.

Lemma W_Some i t v :
  W P i t = Some v ↔
  (1 ≤ i < Params.V P ∧ 1 ≤ t ≤ Params.T P) ∧ v = Var.W i t.
Proof.
  unfold W, range_i_, range_t.
  rewrite dicts2_Some, !elem_of_range. intuition lia.
Qed.

Lemma Q_Some i k t v :
  Q P i k t = Some v ↔
  (1 ≤ i < Params.V P ∧ 1 ≤ k ≤ Params.K P ∧ 1 ≤ t ≤ Params.T P)
  ∧ v = Var.Q i k t.
Proof.
  unfold Q, range_i_, range_k, range_t.
  rewrite dicts3_Some, !elem_of_range. intuition lia.
Qed.

Lemma X_in_range i j k t :
  i < Params.V P → j < Params.V P → 1 ≤ k ≤ Params.K P → 1 ≤ t ≤ Params.T P →
  X P i j k t = Some (Var.X i j k t).
Proof. intros. by apply X_Some. Qed.

Lemma F_in_range i j k t :
  i < Params.V P → j < Params.V P → 1 ≤ k ≤ Params.K P → 1 ≤ t ≤ Params.T P →
  F P i j k t = Some (Var.F i j k t).
Proof. intros. by apply F_Some. Qed.

Lemma I_in_range i t :
  1 ≤ i < Params.V P → 1 ≤ t ≤ Params.T P → I P i t = Some (Var.I i t).
Proof. intros. by apply I_Some. Qed.

Lemma Ip_in_range i t :
  1 ≤ i < Params.V P → 1 ≤ t ≤ Params.T P → Ip P i t = Some (Var.Ip i t).
Proof. intros. by apply Ip_Some. Qed.

Lemma W_in_range i t :
  1 ≤ i < Params.V P → 1 ≤ t ≤ Params.T P → W P i t = Some (Var.W i t).
Proof. intros. by apply W_Some. Qed.

Lemma Q_in_range i k t :
  1 ≤ i < Params.V P → 1 ≤ k ≤ Params.K P → 1 ≤ t ≤ Params.T P →
  Q P i k t = Some (Var.Q i k t).
Proof. intros. by apply Q_Some. Qed.

End Dictionaries.


(** ** Two-dimensional arrays filled by a double loop *)

Section Arrays.
Implicit Types (arr : list (list R)) (row : list R).

Lemma dims_np_zeros rows cols : dims (np_zeros rows cols) rows cols.
Proof.
  split; [apply length_replicate|].
  apply Forall_replicate, length_replicate.
Qed.

Lemma index2_np_zeros rows cols i j :
  i < rows → j < cols → index2 (np_zeros rows cols) i j = Some 0%R.
Proof.
  intros Hi Hj. unfold index2, np_zeros.
  rewrite lookup_replicate_2 by done. simpl. by rewrite lookup_replicate_2.
Qed.

Lemma dims_index2 arr rows cols i j :
  dims arr rows cols → i < rows → j < cols → is_Some (index2 arr i j).
Proof.
  intros [Hlen Hrows] Hi Hj. unfold index2.
  destruct (lookup_lt_is_Some_2 arr i) as [row Hrow]; [lia|].
  rewrite Hrow. simpl. apply lookup_lt_is_Some_2.
  rewrite Forall_lookup in Hrows. rewrite (Hrows _ _ Hrow). done.
Qed.

Lemma setitem2_is_Some arr rows cols i j v :
  dims arr rows cols → i < rows → j < cols → is_Some (setitem2 arr i j v).
Proof.
  intros [Hlen Hrows] Hi Hj. unfold setitem2.
  destruct (lookup_lt_is_Some_2 arr i) as [row Hrow]; [lia|].
  rewrite Hrow. simpl. rewrite Forall_lookup in Hrows.
  rewrite (Hrows _ _ Hrow). by rewrite decide_True.
Qed.

Lemma setitem2_dims arr arr' rows cols i j v :
  setitem2 arr i j v = Some arr' → dims arr rows cols → dims arr' rows cols.
Proof.
  unfold setitem2. destruct (arr !! i) as [row|] eqn:Hrow; simpl; [|done].
  case_decide; [|done]. intros [= <-] [Hlen Hrows]. split.
  - by rewrite length_insert.
  - apply Forall_insert; [done|]. rewrite length_insert.
    rewrite Forall_lookup in Hrows. eauto.
Qed.

Lemma setitem2_eq arr arr' i j v :
  setitem2 arr i j v = Some arr' → index2 arr' i j = Some v.
Proof.
  unfold setitem2. destruct (arr !! i) as [row|] eqn:Hrow; simpl; [|done].
  case_decide; [|done]. intros [= <-]. unfold index2.
  rewrite list_lookup_insert_eq by (by eapply lookup_lt_Some). simpl.
  by rewrite list_lookup_insert_eq.
Qed.

Lemma setitem2_ne arr arr' i j v i' j' :
  setitem2 arr i j v = Some arr' → i' ≠ i ∨ j' ≠ j →
  index2 arr' i' j' = index2 arr i' j'.
Proof.
  unfold setitem2. destruct (arr !! i) as [row|] eqn:Hrow; simpl; [|done].
  case_decide; [|done]. intros [= <-] Hne. unfold index2.
  destruct (decide (i' = i)) as [->|Hi].
  - rewrite list_lookup_insert_eq by (by eapply lookup_lt_Some).
    rewrite Hrow. simpl. apply list_lookup_insert_ne. intuition congruence.
  - by rewrite list_lookup_insert_ne.
Qed.

Variable entry : nat → nat → option R.

Lemma fill_column_Some li t arr arr' rows cols :
  fill_column entry li t arr = Some arr' → dims arr rows cols →
  dims arr' rows cols ∧
  (∀ i, i ∈ li → ∃ v, entry i t = Some v ∧ index2 arr' i t = Some v) ∧
  (∀ i' t', t' ≠ t ∨ i' ∉ li → index2 arr' i' t' = index2 arr i' t').
Proof.
  revert arr. induction li as [|i li IH]; intros arr.
  - intros [= <-] Hd. split; [done|]. split; [|done].
    by intros ? ?%elem_of_nil.
  - unfold fill_column. simpl.
    destruct (entry i t) as [v|] eqn:Hv; simpl; [|done].
    destruct (setitem2 arr i t v) as [arr1|] eqn:Hset; simpl; [|done].
    intros Hrest Hd.
    destruct (IH arr1 Hrest) as (Hd' & Hin & Hout);
      [by eapply setitem2_dims|].
    split; [done|]. split.
    + intros i0 [->|Hi0]%elem_of_cons; [|by apply Hin].
      exists v. split; [done|].
      destruct (decide (i ∈ li)) as [Hi|Hi].
      * destruct (Hin i Hi) as (v' & Hv' & Hl). congruence.
      * rewrite Hout by (by right). by eapply setitem2_eq.
    + intros i' t' Hne. rewrite Hout.
      * eapply setitem2_ne; [done|]. rewrite not_elem_of_cons in Hne.
        destruct Hne as [?|[? _]]; [by right|by left].
      * rewrite not_elem_of_cons in Hne. intuition congruence.
Qed.

Lemma fill_Some lt li arr arr' rows cols :
  fill entry lt li arr = Some arr' → dims arr rows cols →
  dims arr' rows cols ∧
  (∀ t i, t ∈ lt → i ∈ li →
     ∃ v, entry i t = Some v ∧ index2 arr' i t = Some v) ∧
  (∀ i' t', t' ∉ lt ∨ i' ∉ li → index2 arr' i' t' = index2 arr i' t').
Proof.
  revert arr. induction lt as [|t lt IH]; intros arr.
  - intros [= <-] Hd. split; [done|]. split; [|done].
    by intros ? ? ?%elem_of_nil.
  - unfold fill. simpl.
    destruct (fill_column entry li t arr) as [arr1|] eqn:Hcol; simpl; [|done].
    intros Hrest Hd.
    destruct (fill_column_Some _ _ _ _ _ _ Hcol Hd) as (Hd1 & Hin1 & Hout1).
    destruct (IH arr1 Hrest Hd1) as (Hd' & Hin & Hout).
    split; [done|]. split.
    + intros t0 i [->|Ht0]%elem_of_cons Hi; [|by apply Hin].
      destruct (decide (t ∈ lt)) as [Ht|Ht]; [by apply Hin|].
      rewrite Hout by (by left). by apply Hin1.
    + intros i' t' Hne. rewrite Hout.
      * apply Hout1. rewrite not_elem_of_cons in Hne. intuition congruence.
      * rewrite not_elem_of_cons in Hne. intuition congruence.
Qed.

Lemma fill_column_is_Some li t arr rows cols :
  dims arr rows cols → t < cols →
  (∀ i, i ∈ li → i < rows ∧ is_Some (entry i t)) →
  is_Some (fill_column entry li t arr).
Proof.
  revert arr. induction li as [|i li IH]; intros arr Hd Ht Hli; [by eexists|].
  unfold fill_column. simpl.
  destruct (Hli i) as [Hi [v Hv]]; [by left|]. rewrite Hv. simpl.
  destruct (setitem2_is_Some arr rows cols i t v) as [arr1 Hset]; [done..|].
  rewrite Hset. simpl. apply IH; [by eapply setitem2_dims|done|].
  intros i0 Hi0. apply Hli. by right.
Qed.

Lemma fill_is_Some lt li arr rows cols :
  dims arr rows cols →
  (∀ t i, t ∈ lt → i ∈ li → t < cols ∧ i < rows ∧ is_Some (entry i t)) →
  (∀ t, t ∈ lt → t < cols) →
  is_Some (fill entry lt li arr).
Proof.
  revert arr. induction lt as [|t lt IH]; intros arr Hd Hl Hlt; [by eexists|].
  unfold fill. simpl.
  destruct (fill_column_is_Some li t arr rows cols) as [arr1 Hcol];
    [done|apply Hlt; by left|intros i Hi; apply Hl; [by left|done]|].
  rewrite Hcol. simpl. apply IH.
  - by destruct (fill_column_Some _ _ _ _ _ _ Hcol Hd).
  - intros t0 i Ht0 Hi. apply Hl; [by right|done].
  - intros t0 Ht0. apply Hlt. by right.
Qed.

End Arrays.


(** ** The table [right_of_const_21] *)

Section RightOfConst21.
Import Notebook.
Variable norm_ppf : R → R.
Variable P : Params.t.

Lemma sum_for_Some {A : Type} (l : list A) (item : A → option R) (g : A → R) :
  (∀ x, x ∈ l → item x = Some (g x)) →
  sum_for l item = Some (Rsum (g <$> l)).
Proof.
  intros Hitem. unfold sum_for.
  rewrite (mapM_Some_2 item l (g <$> l)); [done|].
  apply Forall2_fmap_r, Forall_Forall2_diag, Forall_forall. done.
Qed.

Lemma sum_for_is_Some {A : Type} (l : list A) (item : A → option R) x :
  is_Some (sum_for l item) → x ∈ l → is_Some (item x).
Proof.
  unfold sum_for. intros [s Hs] Hx.
  destruct (mapM item l) as [k|] eqn:Hk; [|done].
  apply mapM_Some_1 in Hk.
  destruct (list_elem_of_lookup_1 _ _ Hx) as [n Hn].
  destruct (Forall2_lookup_l _ _ _ _ _ Hk Hn) as (v & _ & Hv). by rewrite Hv.
Qed.

Lemma index2_demand i s :
  is_Some (index2 (Params.d_mu P) i s) →
  index2 (Params.d_mu P) i s = Some (demand P i s).
Proof. unfold demand. by intros [v ->]. Qed.

(** The entry is the cumulative demand plus the safety margin, whenever it
    is computed. *)
Lemma right_of_const_21_entry_Some i t v :
  right_of_const_21_entry norm_ppf P i t = Some v →
  v = (sigma 1 t (demand P i)
       + Za norm_ppf P * Params.C P
         * sqrt (sigma 1 t (λ s, (demand P i s) ^ 2)))%R.
Proof.
  unfold right_of_const_21_entry. intros Hv.
  apply bind_Some in Hv as (s1 & H1 & Hv).
  assert (Hd : ∀ s, s ∈ range 1 (t + 1) →
            index2 (Params.d_mu P) i s = Some (demand P i s)).
  { intros s Hs. apply index2_demand.
    by apply (sum_for_is_Some _ _ s (mk_is_Some _ _ H1)). }
  rewrite (sum_for_Some _ _ (demand P i)) in H1 by done.
  rewrite (sum_for_Some _ _ (λ s, (demand P i s) ^ 2)%R) in Hv.
  2:{ intros s Hs. by rewrite Hd. }
  injection H1 as <-. apply bind_Some in Hv as (s2 & [= <-] & [= <-]).
  replace (t + 1) with (S t) by lia. rewrite !Rsum_range.
  rewrite (sigma_ext 1 t (λ s, demand P i s * (demand P i s * 1))%R
             (λ s, (demand P i s ^ 2)%R)) by (intros; simpl; ring).
  ring.
Qed.

Lemma right_of_const_21_entry_is_Some i t :
  table_ok (Params.d_mu P) (Params.V P) (Params.T P + 1) →
  i < Params.V P → t ≤ Params.T P →
  is_Some (right_of_const_21_entry norm_ppf P i t).
Proof.
  intros Hok Hi Ht. unfold right_of_const_21_entry.
  assert (Hd : ∀ s, s ∈ range 1 (t + 1) →
            index2 (Params.d_mu P) i s = Some (demand P i s)).
  { intros s Hs%elem_of_range. apply index2_demand, Hok; lia. }
  rewrite (sum_for_Some _ (λ s, index2 (Params.d_mu P) i s) (demand P i))
    by done.
  simpl. rewrite (sum_for_Some _ _ (λ s, (demand P i s) ^ 2)%R).
  2:{ intros s Hs. by rewrite Hd. }
  simpl. by eexists.
Qed.

(** After the double loop, the table holds the entry of every customer and
    period. *)
Lemma right_of_const_21_Some arr i t :
  right_of_const_21 norm_ppf P = Some arr →
  1 ≤ i < Params.V P → 1 ≤ t ≤ Params.T P →
  index2 arr i t =
  Some (sigma 1 t (demand P i)
        + Za norm_ppf P * Params.C P
          * sqrt (sigma 1 t (λ s, (demand P i s) ^ 2)))%R.
Proof.
  intros Harr Hi Ht.
  destruct (fill_Some _ _ _ _ _ _ _ Harr
              (dims_np_zeros (Params.V P) (Params.T P + 1)))
    as (_ & Hin & _).
  destruct (Hin t i) as (v & Hv & ->).
  - apply elem_of_range. lia.
  - apply elem_of_range. lia.
  - f_equal. by apply right_of_const_21_entry_Some.
Qed.

(** Row 0 (the depot) and column 0 keep the zero of [np.zeros]. *)
Lemma right_of_const_21_zero arr i t :
  right_of_const_21 norm_ppf P = Some arr →
  i < Params.V P → t ≤ Params.T P → i = 0 ∨ t = 0 →
  index2 arr i t = Some 0%R.
Proof.
  intros Harr Hi Ht H0.
  destruct (fill_Some _ _ _ _ _ _ _ Harr
              (dims_np_zeros (Params.V P) (Params.T P + 1)))
    as (_ & _ & Hout).
  rewrite Hout.
  - apply index2_np_zeros; lia.
  - unfold range_t, range_i_. rewrite !elem_of_range. lia.
Qed.

Lemma right_of_const_21_is_Some :
  table_ok (Params.d_mu P) (Params.V P) (Params.T P + 1) →
  is_Some (right_of_const_21 norm_ppf P).
Proof.
  intros Hok.
  apply (fill_is_Some _ _ _ _ (Params.V P) (Params.T P + 1)).
  - apply dims_np_zeros.
  - unfold range_t, range_i_. intros t i Ht%elem_of_range Hi%elem_of_range.
    split; [lia|]. split; [lia|].
    apply right_of_const_21_entry_is_Some; [done|lia..].
  - unfold range_t. intros t Ht%elem_of_range. lia.
Qed.

End RightOfConst21.


(** ** Loops that add one constraint per round *)

Section Emission.
Context {B : Type}.

Lemma bind_yield_Some (o : option B) (ys : list B) :
  (c ← o; yield c) = Some ys ↔ ∃ c, o = Some c ∧ ys = [c].
Proof.
  destruct o as [c|]; simpl; unfold yield; split.
  - intros [= <-]. eauto.
  - by intros (? & [= <-] & ->).
  - done.
  - by intros (? & ? & _).
Qed.

Lemma loop2_elem_of {A1 A2 : Type} (l1 : list A1) (l2 : list A2)
    (mk : A1 → A2 → option B) ys y :
  for_each l1 (λ x1, for_each l2 (λ x2, c ← mk x1 x2; yield c)) = Some ys →
  y ∈ ys ↔ ∃ x1 x2, x1 ∈ l1 ∧ x2 ∈ l2 ∧ mk x1 x2 = Some y.
Proof.
  intros H1. rewrite (for_each_elem_of _ _ _ _ H1). split.
  - intros (x1 & c1 & Hx1 & H2 & Hy).
    rewrite (for_each_elem_of _ _ _ _ H2) in Hy.
    destruct Hy as (x2 & c2 & Hx2 & (c & Hc & ->)%bind_yield_Some & Hy).
    apply list_elem_of_singleton in Hy as ->. eauto.
  - intros (x1 & x2 & Hx1 & Hx2 & Hmk).
    destruct (for_each_Some_round _ _ _ _ H1 Hx1) as [c1 H2].
    exists x1, c1. split; [done|]. split; [done|].
    rewrite (for_each_elem_of _ _ _ _ H2).
    exists x2, [y]. split; [done|]. rewrite Hmk. split; [done|by left].
Qed.

Lemma loop2_round {A1 A2 : Type} (l1 : list A1) (l2 : list A2)
    (mk : A1 → A2 → option B) ys x1 x2 :
  for_each l1 (λ x1, for_each l2 (λ x2, c ← mk x1 x2; yield c)) = Some ys →
  x1 ∈ l1 → x2 ∈ l2 → ∃ y, mk x1 x2 = Some y ∧ y ∈ ys.
Proof.
  intros H1 Hx1 Hx2.
  destruct (for_each_Some_round _ _ _ _ H1 Hx1) as [c1 H2].
  destruct (for_each_Some_round _ _ _ _ H2 Hx2) as [c2 H3].
  apply bind_yield_Some in H3 as (y & Hy & ->).
  exists y. split; [done|]. apply (loop2_elem_of _ _ _ _ _ H1). eauto.
Qed.

Lemma loop3_elem_of {A1 A2 A3 : Type} (l1 : list A1) (l2 : list A2)
    (l3 : list A3) (mk : A1 → A2 → A3 → option B) ys y :
  for_each l1 (λ x1, for_each l2 (λ x2, for_each l3 (λ x3,
    c ← mk x1 x2 x3; yield c))) = Some ys →
  y ∈ ys ↔ ∃ x1 x2 x3, x1 ∈ l1 ∧ x2 ∈ l2 ∧ x3 ∈ l3 ∧ mk x1 x2 x3 = Some y.
Proof.
  intros H1. rewrite (for_each_elem_of _ _ _ _ H1). split.
  - intros (x1 & c1 & Hx1 & H2 & Hy).
    apply (loop2_elem_of _ _ _ _ _ H2) in Hy as (x2 & x3 & ? & ? & ?).
    eauto 10.
  - intros (x1 & x2 & x3 & Hx1 & Hx2 & Hx3 & Hmk).
    destruct (for_each_Some_round _ _ _ _ H1 Hx1) as [c1 H2].
    exists x1, c1. split; [done|]. split; [done|].
    apply (loop2_elem_of _ _ _ _ _ H2). eauto.
Qed.

Lemma loop3_round {A1 A2 A3 : Type} (l1 : list A1) (l2 : list A2)
    (l3 : list A3) (mk : A1 → A2 → A3 → option B) ys x1 x2 x3 :
  for_each l1 (λ x1, for_each l2 (λ x2, for_each l3 (λ x3,
    c ← mk x1 x2 x3; yield c))) = Some ys →
  x1 ∈ l1 → x2 ∈ l2 → x3 ∈ l3 → ∃ y, mk x1 x2 x3 = Some y ∧ y ∈ ys.
Proof.
  intros H1 Hx1 Hx2 Hx3.
  destruct (for_each_Some_round _ _ _ _ H1 Hx1) as [c1 H2].
  destruct (loop2_round _ _ _ _ _ _ H2 Hx2 Hx3) as (y & Hy & _).
  exists y. split; [done|]. apply (loop3_elem_of _ _ _ _ _ _ H1). eauto 10.
Qed.

(** Loops that succeed on every round succeed. *)
Lemma loop2_is_Some {A1 A2 : Type} (l1 : list A1) (l2 : list A2)
    (mk : A1 → A2 → option B) :
  (∀ x1 x2, x1 ∈ l1 → x2 ∈ l2 → is_Some (mk x1 x2)) →
  is_Some (for_each l1 (λ x1, for_each l2 (λ x2, c ← mk x1 x2; yield c))).
Proof.
  intros Hmk. apply for_each_is_Some. intros x1 Hx1.
  apply for_each_is_Some. intros x2 Hx2.
  destruct (Hmk x1 x2 Hx1 Hx2) as [c ->]. by eexists.
Qed.

Lemma loop3_is_Some {A1 A2 A3 : Type} (l1 : list A1) (l2 : list A2)
    (l3 : list A3) (mk : A1 → A2 → A3 → option B) :
  (∀ x1 x2 x3, x1 ∈ l1 → x2 ∈ l2 → x3 ∈ l3 → is_Some (mk x1 x2 x3)) →
  is_Some (for_each l1 (λ x1, for_each l2 (λ x2, for_each l3 (λ x3,
    c ← mk x1 x2 x3; yield c)))).
Proof.
  intros Hmk. apply for_each_is_Some. intros x1 Hx1.
  apply loop2_is_Some. eauto.
Qed.

End Emission.

(** ** Sums over generator expressions *)

Section Generators.
Context {A B : Type}.

(** The sum over what a loop yields is the sum, over the rounds, of the sum
    over what each round yields. *)
Lemma Rsum_for_each (h : B → R) (l : list A) (body : A → option (list B))
    (ys : list B) (val : A → R) :
  for_each l body = Some ys →
  (∀ x cx, x ∈ l → body x = Some cx → Rsum (h <$> cx) = val x) →
  Rsum (h <$> ys) = Rsum (val <$> l).
Proof.
  revert ys. induction l as [|x l IH]; intros ys.
  - by intros [= <-] _.
  - rewrite for_each_cons.
    destruct (body x) as [cx|] eqn:Hx; simpl; [|done].
    destruct (for_each l body) as [yss|] eqn:Hl; simpl; [|done].
    intros [= <-] Hval. rewrite fmap_app, Rsum_app.
    rewrite (Hval x cx), (IH yss); [done|done| |by left|done].
    intros z cz Hz. apply Hval. by right.
Qed.

End Generators.

Lemma Rsum_range_sigma lo hi hi' (f : nat → R) :
  hi - lo = S hi' - lo →
  Rsum (f <$> range lo hi) = sigma lo hi' f.
Proof. intros Hlen. unfold range, sigma. rewrite Hlen. apply Rsum_seq. Qed.

Lemma Rsum_singleton x : Rsum [x] = x.
Proof. simpl. lra. Qed.


(** ** The constraints, one family at a time *)

Section Constraints.
Import Notebook.
Variable P : Params.t.

Local Abbreviation V := (Params.V P).
Local Abbreviation K := (Params.K P).
Local Abbreviation T := (Params.T P).
Local Abbreviation m := (Params.m P).

(** The cumulative deliveries [lpSum(Q[i][k][s] for s in range(1,t+1) for k
    in range_k)]. *)
Lemma eval_delivered σ i t qs :
  for_each (range 1 (t + 1)) (λ s, for_each (range_k P) (λ k,
    q ← Q P i k s; yield (Var q))) = Some qs →
  eval σ (lpSum qs) = sigma 1 t (λ s, sigma 1 K (λ k, σ (Var.Q i k s))).
Proof.
  intros Hqs. rewrite eval_lpSum.
  rewrite (Rsum_for_each _ _ _ _
             (λ s, sigma 1 K (λ k, σ (Var.Q i k s))) Hqs).
  - apply Rsum_range_sigma. lia.
  - intros s cs _ Hcs.
    rewrite (Rsum_for_each _ _ _ _ (λ k, σ (Var.Q i k s)) Hcs).
    + apply Rsum_range_sigma. lia.
    + intros k ck _ (q & Hq & [= <-])%bind_Some.
      apply Q_Some in Hq as [_ ->]. apply Rsum_singleton.
Qed.

(** The cumulative waste [lpSum(W[i][s] for s in range(lo, hi))]. *)
Lemma eval_wasted σ i lo hi hi' ws :
  for_each (range lo hi) (λ s, w ← W P i s; yield (Var w)) = Some ws →
  hi - lo = S hi' - lo →
  eval σ (lpSum ws) = sigma lo hi' (λ s, σ (Var.W i s)).
Proof.
  intros Hws Hlen. rewrite eval_lpSum.
  rewrite (Rsum_for_each _ _ _ _ (λ s, σ (Var.W i s)) Hws).
  - by apply Rsum_range_sigma.
  - intros s cs _ (w & Hw & [= <-])%bind_Some.
    apply W_Some in Hw as [_ ->]. apply Rsum_singleton.
Qed.

(** The cumulative demand [lpSum(d_mu[i][a] for a in range(lo, hi))]. *)
Lemma eval_demanded σ i lo hi hi' ds :
  for_each (range lo hi) (λ s,
    d ← index2 (Params.d_mu P) i s; yield (Const d)) = Some ds →
  hi - lo = S hi' - lo →
  eval σ (lpSum ds) = sigma lo hi' (demand P i).
Proof.
  intros Hds Hlen. rewrite eval_lpSum.
  rewrite (Rsum_for_each _ _ _ _ (demand P i) Hds).
  - by apply Rsum_range_sigma.
  - intros s cs _ (d & Hd & [= <-])%bind_Some.
    unfold demand. rewrite Hd. apply Rsum_singleton.
Qed.

(** *** (21) *)

Lemma constraint_21_Some rhs21 i t c :
  constraint_21 P rhs21 i t = Some c →
  ∃ bound, index2 rhs21 i t = Some bound ∧
    rel c = GE ∧ rhs c = Const bound ∧
    ∀ σ, eval σ (lhs c) =
         (sigma 1 t (λ s, sigma 1 K (λ k, σ (Var.Q i k s)))
          - sigma 1 (t - 1) (λ s, σ (Var.W i s)))%R.
Proof.
  unfold constraint_21.
  intros (qs & Hqs & (ws & Hws & (bound & Hb & [= <-])%bind_Some)
            %bind_Some)%bind_Some.
  exists bound. split; [done|]. split; [done|]. split; [done|].
  intros σ. simpl. rewrite (eval_delivered σ i t qs Hqs).
  rewrite (eval_wasted σ i 1 t (t - 1) ws Hws); [done|lia].
Qed.

Lemma constraints_21_elem_of rhs21 cs c :
  constraints_21 P rhs21 = Some cs →
  c ∈ cs ↔ ∃ i t, 1 ≤ i < V ∧ 1 ≤ t ≤ T ∧ constraint_21 P rhs21 i t = Some c.
Proof.
  intros Hcs. unfold constraints_21 in Hcs.
  rewrite (loop2_elem_of _ _ _ _ _ Hcs). unfold range_t, range_i_.
  setoid_rewrite elem_of_range. split.
  - intros (t & i & ? & ? & ?). exists i, t. split; [lia|]. split; [lia|done].
  - intros (i & t & ? & ? & ?). exists t, i. split; [lia|]. split; [lia|done].
Qed.

Lemma constraints_21_round rhs21 cs i t :
  constraints_21 P rhs21 = Some cs → 1 ≤ i < V → 1 ≤ t ≤ T →
  ∃ c, constraint_21 P rhs21 i t = Some c ∧ c ∈ cs.
Proof.
  intros Hcs Hi Ht.
  apply (loop2_round _ _ _ _ t i Hcs); apply elem_of_range; lia.
Qed.

(** *** (2) *)

Lemma constraint_2_Some i t c :
  constraint_2 P i t = Some c →
  lhs c = Var (Var.I i t) ∧ rel c = EQ ∧
  ∀ σ, eval σ (rhs c) =
       (sigma 1 t (λ s, sigma 1 K (λ k, σ (Var.Q i k s)))
        - sigma 1 (t - 1) (λ s, demand P i s + σ (Var.W i s)))%R.
Proof.
  unfold constraint_2.
  intros (v & Hv & (qs & Hqs & (ws & Hws & [= <-])%bind_Some)
            %bind_Some)%bind_Some.
  apply I_Some in Hv as [_ ->].
  split; [done|]. split; [done|].
  intros σ. simpl. rewrite (eval_delivered σ i t qs Hqs). f_equal.
  rewrite eval_lpSum.
  rewrite (Rsum_for_each _ _ _ _
             (λ s, (demand P i s + σ (Var.W i s))%R) Hws).
  - apply Rsum_range_sigma. lia.
  - intros s cs _ (d & Hd & (w & Hw & [= <-])%bind_Some)%bind_Some.
    apply W_Some in Hw as [_ ->]. unfold demand. rewrite Hd. simpl. lra.
Qed.

Lemma constraints_2_round cs i t :
  constraints_2 P = Some cs → 1 ≤ i < V → 1 ≤ t ≤ T →
  ∃ c, constraint_2 P i t = Some c ∧ c ∈ cs.
Proof.
  intros Hcs Hi Ht.
  apply (loop2_round _ _ _ _ t i Hcs); apply elem_of_range; lia.
Qed.

(** *** (4), (5) *)

Lemma constraint_4_Some i t c :
  constraint_4 P i t = Some c →
  lhs c = Var (Var.W i t) ∧ rel c = GE ∧
  ∀ σ, eval σ (rhs c) =
       (σ (Var.I i (t - m + 1))
        - sigma (t - m + 2) t (demand P i)
        - sigma (t - m + 2) (t - 1) (λ s, σ (Var.W i s)))%R.
Proof.
  unfold constraint_4.
  intros (v & Hv & (inv & Hinv & (ds & Hds & (ws & Hws & [= <-])%bind_Some)
            %bind_Some)%bind_Some)%bind_Some.
  apply W_Some in Hv as [_ ->]. apply I_Some in Hinv as [_ ->].
  split; [done|]. split; [done|].
  intros σ. simpl.
  rewrite (eval_demanded σ i _ _ t ds Hds) by lia.
  rewrite (eval_wasted σ i _ _ (t - 1) ws Hws) by lia. done.
Qed.

Lemma constraint_5_Some i t c :
  constraint_5 P i t = Some c → c = (Var (Var.W i t) === Const 0).
Proof.
  unfold constraint_5. intros (v & Hv & [= <-])%bind_Some.
  by apply W_Some in Hv as [_ ->].
Qed.

Lemma constraints_4_5_elem_of cs c :
  constraints_4_5 P = Some cs →
  c ∈ cs ↔ ∃ i t, 1 ≤ i < V ∧ 1 ≤ t ≤ T ∧
    (m ≤ t ∧ constraint_4 P i t = Some c ∨
     t < m ∧ constraint_5 P i t = Some c).
Proof.
  intros Hcs. unfold constraints_4_5 in Hcs.
  rewrite (for_each_elem_of _ _ _ _ Hcs). split.
  - intros (t & ct & Ht%elem_of_range & Hct & Hc). case_decide.
    + rewrite (for_each_elem_of _ _ _ _ Hct) in Hc.
      destruct Hc as (i & ci & Hi%elem_of_range
                      & (c' & Hc' & ->)%bind_yield_Some & Hc).
      apply list_elem_of_singleton in Hc as ->.
      exists i, t. split; [lia|]. split; [lia|]. by left.
    + rewrite (for_each_elem_of _ _ _ _ Hct) in Hc.
      destruct Hc as (i & ci & Hi%elem_of_range
                      & (c' & Hc' & ->)%bind_yield_Some & Hc).
      apply list_elem_of_singleton in Hc as ->.
      exists i, t. split; [lia|]. split; [lia|]. right. split; [lia|done].
  - intros (i & t & Hi & Ht & Hc).
    assert (Ht' : t ∈ range_t P) by (apply elem_of_range; lia).
    assert (Hi' : i ∈ range_i_ P) by (apply elem_of_range; lia).
    destruct (for_each_Some_round _ _ _ _ Hcs Ht') as [ct Hct].
    exists t, ct. split; [done|]. split; [done|].
    case_decide; destruct Hc as [[? Hc]|[? Hc]]; try lia;
      rewrite (for_each_elem_of _ _ _ _ Hct);
      exists i, [c]; (split; [done|]); rewrite Hc; (split; [done|by left]).
Qed.

Lemma constraints_4_5_round cs i t :
  constraints_4_5 P = Some cs → 1 ≤ i < V → 1 ≤ t ≤ T →
  ∃ c, c ∈ cs ∧
    (m ≤ t ∧ constraint_4 P i t = Some c ∨
     t < m ∧ constraint_5 P i t = Some c).
Proof.
  intros Hcs Hi Ht.
  assert (Ht' : t ∈ range_t P) by (apply elem_of_range; lia).
  assert (Hi' : i ∈ range_i_ P) by (apply elem_of_range; lia).
  destruct (for_each_Some_round _ _ _ _ Hcs Ht') as [ct Hct].
  case_decide.
  - destruct (for_each_Some_round _ _ _ _ Hct Hi') as [ci Hci].
    apply bind_yield_Some in Hci as (c & Hc & ->).
    exists c. split; [|by left].
    apply (constraints_4_5_elem_of cs c Hcs). exists i, t. eauto.
  - destruct (for_each_Some_round _ _ _ _ Hct Hi') as [ci Hci].
    apply bind_yield_Some in Hci as (c & Hc & ->).
    exists c. split; [|right; split; [lia|done]].
    apply (constraints_4_5_elem_of cs c Hcs). exists i, t.
    split; [done|]. split; [done|]. right. split; [lia|done].
Qed.

End Constraints.


(** ** Loops nested four deep *)

Section Loop4.
Context {A1 A2 A3 A4 B : Type}.
Variables (l1 : list A1) (l2 : list A2) (l3 : list A3) (l4 : list A4).
Variable body : A1 → A2 → A3 → A4 → option (list B).

Lemma loop4_elem_of ys y :
  loop4 l1 l2 l3 l4 body = Some ys →
  y ∈ ys ↔ ∃ x1 x2 x3 x4 cx, x1 ∈ l1 ∧ x2 ∈ l2 ∧ x3 ∈ l3 ∧ x4 ∈ l4 ∧
    body x1 x2 x3 x4 = Some cx ∧ y ∈ cx.
Proof.
  intros H1. rewrite (for_each_elem_of _ _ _ _ H1). split.
  - intros (x1 & c1 & Hx1 & H2 & Hy).
    rewrite (for_each_elem_of _ _ _ _ H2) in Hy.
    destruct Hy as (x2 & c2 & Hx2 & H3 & Hy).
    rewrite (for_each_elem_of _ _ _ _ H3) in Hy.
    destruct Hy as (x3 & c3 & Hx3 & H4 & Hy).
    rewrite (for_each_elem_of _ _ _ _ H4) in Hy.
    destruct Hy as (x4 & c4 & Hx4 & H5 & Hy).
    exists x1, x2, x3, x4, c4. done.
  - intros (x1 & x2 & x3 & x4 & cx & Hx1 & Hx2 & Hx3 & Hx4 & Hb & Hy).
    destruct (for_each_Some_round _ _ _ _ H1 Hx1) as [c1 H2].
    exists x1, c1. split; [done|]. split; [done|].
    rewrite (for_each_elem_of _ _ _ _ H2).
    destruct (for_each_Some_round _ _ _ _ H2 Hx2) as [c2 H3].
    exists x2, c2. split; [done|]. split; [done|].
    rewrite (for_each_elem_of _ _ _ _ H3).
    destruct (for_each_Some_round _ _ _ _ H3 Hx3) as [c3 H4].
    exists x3, c3. split; [done|]. split; [done|].
    rewrite (for_each_elem_of _ _ _ _ H4). eauto.
Qed.

Lemma loop4_round ys x1 x2 x3 x4 :
  loop4 l1 l2 l3 l4 body = Some ys → x1 ∈ l1 → x2 ∈ l2 → x3 ∈ l3 → x4 ∈ l4 →
  ∃ cx, body x1 x2 x3 x4 = Some cx ∧ cx ⊆ ys.
Proof.
  intros H1 Hx1 Hx2 Hx3 Hx4.
  destruct (for_each_Some_round _ _ _ _ H1 Hx1) as [c1 H2].
  destruct (for_each_Some_round _ _ _ _ H2 Hx2) as [c2 H3].
  destruct (for_each_Some_round _ _ _ _ H3 Hx3) as [c3 H4].
  destruct (for_each_Some_round _ _ _ _ H4 Hx4) as [cx H5].
  exists cx. split; [done|]. intros y Hy.
  apply (loop4_elem_of ys y H1). exists x1, x2, x3, x4, cx. done.
Qed.

Lemma loop4_is_Some :
  (∀ x1 x2 x3 x4, x1 ∈ l1 → x2 ∈ l2 → x3 ∈ l3 → x4 ∈ l4 →
     is_Some (body x1 x2 x3 x4)) →
  is_Some (loop4 l1 l2 l3 l4 body).
Proof.
  intros Hb. apply for_each_is_Some. intros x1 Hx1.
  apply for_each_is_Some. intros x2 Hx2.
  apply for_each_is_Some. intros x3 Hx3.
  apply for_each_is_Some. intros x4 Hx4. by apply Hb.
Qed.

(** The sum over what the four loops yield. *)
Lemma Rsum_loop4 (h : B → R) ys (val : A1 → A2 → A3 → A4 → R) :
  loop4 l1 l2 l3 l4 body = Some ys →
  (∀ x1 x2 x3 x4 cx, body x1 x2 x3 x4 = Some cx →
     Rsum (h <$> cx) = val x1 x2 x3 x4) →
  Rsum (h <$> ys) =
  Rsum ((λ x1, Rsum ((λ x2, Rsum ((λ x3, Rsum ((λ x4,
    val x1 x2 x3 x4) <$> l4)) <$> l3)) <$> l2)) <$> l1).
Proof.
  intros H1 Hval.
  apply (Rsum_for_each _ _ _ _ _ H1). intros x1 c1 _ H2.
  apply (Rsum_for_each _ _ _ _ _ H2). intros x2 c2 _ H3.
  apply (Rsum_for_each _ _ _ _ _ H3). intros x3 c3 _ H4.
  apply (Rsum_for_each _ _ _ _ _ H4). intros x4 c4 _ H5. by apply Hval.
Qed.

End Loop4.

Section Routing.
Import Notebook.
Variable P : Params.t.

Local Abbreviation V := (Params.V P).
Local Abbreviation K := (Params.K P).
Local Abbreviation T := (Params.T P).

(** *** The constraints on the diagonal *)

Lemma X_diagonal_round cs i k t :
  X_diagonal P = Some cs → i < V → 1 ≤ k ≤ K → 1 ≤ t ≤ T →
  (Var (Var.X i i k t) === Const 0) ∈ cs.
Proof.
  intros Hcs Hi Hk Ht.
  destruct (loop4_round _ _ _ _ _ cs t k i i Hcs) as (cx & Hcx & Hsub);
    try (apply elem_of_range; lia).
  rewrite decide_True in Hcx by done.
  rewrite X_in_range in Hcx by done. injection Hcx as <-.
  apply Hsub. by left.
Qed.

Lemma F_diagonal_round cs i k t :
  F_diagonal P = Some cs → i < V → 1 ≤ k ≤ K → 1 ≤ t ≤ T →
  (Var (Var.F i i k t) === Const 0) ∈ cs.
Proof.
  intros Hcs Hi Hk Ht.
  destruct (loop4_round _ _ _ _ _ cs t k i i Hcs) as (cx & Hcx & Hsub);
    try (apply elem_of_range; lia).
  rewrite decide_True in Hcx by done.
  rewrite F_in_range in Hcx by done. injection Hcx as <-.
  apply Hsub. by left.
Qed.

(** *** (10) *)

Lemma constraints_10_round cs i j k t :
  constraints_10 P = Some cs →
  i < V → j < V → i ≠ j → 1 ≤ k ≤ K → 1 ≤ t ≤ T →
  (Var (Var.F i j k t) <== Params.c P * Var (Var.X j i k t))%E ∈ cs.
Proof.
  intros Hcs Hi Hj Hij Hk Ht.
  destruct (loop4_round _ _ _ _ _ cs t k i j Hcs) as (cx & Hcx & Hsub);
    try (apply elem_of_range; lia).
  rewrite decide_True in Hcx by done. unfold constraint_10 in Hcx.
  rewrite F_in_range, X_in_range in Hcx by done. injection Hcx as <-.
  apply Hsub. by left.
Qed.

Lemma constraints_10_elem_of cs c :
  constraints_10 P = Some cs →
  c ∈ cs ↔ ∃ i j k t, i < V ∧ j < V ∧ i ≠ j ∧ 1 ≤ k ≤ K ∧ 1 ≤ t ≤ T ∧
    c = (Var (Var.F i j k t) <== Params.c P * Var (Var.X j i k t))%E.
Proof.
  intros Hcs. split.
  - intros (t & k & i & j & cx & Ht%elem_of_range & Hk%elem_of_range
            & Hi%elem_of_range & Hj%elem_of_range & Hcx & Hc)
      %(loop4_elem_of _ _ _ _ _ cs c Hcs).
    case_decide; [|injection Hcx as <-; by apply elem_of_nil in Hc].
    unfold constraint_10 in Hcx.
    rewrite F_in_range, X_in_range in Hcx by lia. injection Hcx as <-.
    apply list_elem_of_singleton in Hc as ->.
    exists i, j, k, t. repeat (split; [lia || done|]). done.
  - intros (i & j & k & t & Hi & Hj & Hij & Hk & Ht & ->).
    by apply constraints_10_round.
Qed.

(** *** (7) *)

Lemma constraint_7_Some j k t c :
  constraint_7 P j k t = Some c →
  rel c = EQ ∧
  ∀ σ, eval σ (lhs c) = in_degree V σ j k t ∧
       eval σ (rhs c) = out_degree V σ j k t.
Proof.
  unfold constraint_7.
  intros (left & Hl & (right & Hr & [= <-])%bind_Some)%bind_Some.
  split; [done|]. intros σ. simpl. rewrite !eval_lpSum. split.
  - rewrite (Rsum_for_each _ _ _ _
      (λ i, if decide (i = j) then 0%R else σ (Var.X i j k t)) Hl).
    + unfold range_i, range. rewrite Nat.sub_0_r. apply Rsum_seq.
    + intros i ci _ Hci. destruct (decide (i = j)) as [->|Hij].
      * rewrite decide_False in Hci by (intros Hne; by apply Hne).
        injection Hci as <-. apply Rsum_singleton.
      * rewrite decide_True in Hci by done.
        apply bind_Some in Hci as (x & Hx & [= <-]).
        apply X_Some in Hx as [_ ->]. apply Rsum_singleton.
  - rewrite (Rsum_for_each _ _ _ _
      (λ i, if decide (i = j) then 0%R else σ (Var.X j i k t)) Hr).
    + unfold range_i, range. rewrite Nat.sub_0_r. apply Rsum_seq.
    + intros i ci _ Hci. destruct (decide (i = j)) as [->|Hij].
      * rewrite decide_False in Hci by (intros Hne; by apply Hne).
        injection Hci as <-. apply Rsum_singleton.
      * rewrite decide_True in Hci by done.
        apply bind_Some in Hci as (x & Hx & [= <-]).
        apply X_Some in Hx as [_ ->]. apply Rsum_singleton.
Qed.

Lemma constraints_7_round cs j k t :
  constraints_7 P = Some cs → 1 ≤ j < V → 1 ≤ k ≤ K → 1 ≤ t ≤ T →
  ∃ c, constraint_7 P j k t = Some c ∧ c ∈ cs.
Proof.
  intros Hcs Hj Hk Ht.
  apply (loop3_round _ _ _ _ _ t k j Hcs); apply elem_of_range; lia.
Qed.

End Routing.


(** ** Algebra of finite sums *)

Section Sigma.
Local Open Scope R_scope.

Lemma sigma_n_zero lo n : sigma_n lo n (λ _, 0) = 0.
Proof. induction n as [|n IH]; simpl; [done|]. rewrite IH. lra. Qed.

Lemma sigma_n_plus lo n (f1 f2 : nat → R) :
  sigma_n lo n (λ s, f1 s + f2 s) = sigma_n lo n f1 + sigma_n lo n f2.
Proof. induction n as [|n IH]; simpl; [lra|]. rewrite IH. lra. Qed.

Lemma sigma_n_scal lo n (x : R) (f : nat → R) :
  sigma_n lo n (λ s, x * f s) = x * sigma_n lo n f.
Proof. induction n as [|n IH]; simpl; [lra|]. rewrite IH. lra. Qed.

Lemma sigma_n_swap lo1 n1 lo2 n2 (f : nat → nat → R) :
  sigma_n lo1 n1 (λ x1, sigma_n lo2 n2 (λ x2, f x1 x2)) =
  sigma_n lo2 n2 (λ x2, sigma_n lo1 n1 (λ x1, f x1 x2)).
Proof.
  induction n1 as [|n1 IH]; simpl.
  - by rewrite sigma_n_zero.
  - by rewrite IH, <- sigma_n_plus.
Qed.

Lemma sigma_n_le lo n (f1 f2 : nat → R) :
  (∀ s, (lo ≤ s < lo + n)%nat → f1 s <= f2 s) →
  sigma_n lo n f1 <= sigma_n lo n f2.
Proof.
  induction n as [|n IH]; intros Hf; simpl; [lra|].
  apply Rplus_le_compat; [|apply Hf; lia]. apply IH. intros s Hs. apply Hf. lia.
Qed.

Lemma sigma_n_nonneg lo n (f : nat → R) :
  (∀ s, (lo ≤ s < lo + n)%nat → 0 <= f s) → 0 <= sigma_n lo n f.
Proof.
  intros Hf. rewrite <- (sigma_n_zero lo n). by apply sigma_n_le.
Qed.

(** Four nested sums, taken in the opposite order. *)
Lemma sigma_n_rev4 lo1 n1 lo2 n2 lo3 n3 lo4 n4
    (f : nat → nat → nat → nat → R) :
  sigma_n lo1 n1 (λ x1, sigma_n lo2 n2 (λ x2, sigma_n lo3 n3 (λ x3,
    sigma_n lo4 n4 (λ x4, f x1 x2 x3 x4)))) =
  sigma_n lo4 n4 (λ x4, sigma_n lo3 n3 (λ x3, sigma_n lo2 n2 (λ x2,
    sigma_n lo1 n1 (λ x1, f x1 x2 x3 x4)))).
Proof.
  transitivity
    (sigma_n lo1 n1 (λ x1, sigma_n lo4 n4 (λ x4, sigma_n lo3 n3 (λ x3,
       sigma_n lo2 n2 (λ x2, f x1 x2 x3 x4))))).
  { apply sigma_n_ext. intros x1 _.
    transitivity
      (sigma_n lo2 n2 (λ x2, sigma_n lo4 n4 (λ x4, sigma_n lo3 n3 (λ x3,
         f x1 x2 x3 x4)))).
    { apply sigma_n_ext. intros x2 _. apply sigma_n_swap. }
    rewrite sigma_n_swap. apply sigma_n_ext. intros x4 _.
    apply sigma_n_swap. }
  rewrite sigma_n_swap. apply sigma_n_ext. intros x4 _.
  rewrite sigma_n_swap. apply sigma_n_ext. intros x3 _.
  apply sigma_n_swap.
Qed.

(** The sum the objective takes over periods, vehicles and pairs of nodes,
    as a sum over the edges. *)
Lemma sigma_n_edges V K T (x : R) (f : nat → nat → nat → nat → R) :
  sigma_n 1 T (λ t, sigma_n 1 K (λ k, sigma_n 0 V (λ j, sigma_n 0 V (λ i,
    if decide (i = j) then 0 else x * f i j k t)))) =
  x * sigma_edges V (λ i j, sigma_n 1 K (λ k, sigma_n 1 T (λ t, f i j k t))).
Proof.
  rewrite sigma_n_rev4. unfold sigma_edges. rewrite <- sigma_n_scal.
  apply sigma_n_ext. intros i _. rewrite <- sigma_n_scal.
  apply sigma_n_ext. intros j _. case_decide.
  - rewrite Rmult_0_r. rewrite <- (sigma_n_zero 1 K) at 1.
    apply sigma_n_ext. intros k _. apply sigma_n_zero.
  - rewrite <- sigma_n_scal. apply sigma_n_ext. intros k _.
    apply sigma_n_scal.
Qed.

End Sigma.


Lemma sigma_from_1 n (f : nat → R) : sigma 1 n f = sigma_n 1 n f.
Proof. unfold sigma. by rewrite Nat.sub_succ, Nat.sub_0_r. Qed.

Lemma Rsum_range_n lo hi (f : nat → R) :
  Rsum (f <$> range lo hi) = sigma_n lo (hi - lo) f.
Proof. apply Rsum_seq. Qed.

Lemma Rsum_range4 lo1 hi1 lo2 hi2 lo3 hi3 lo4 hi4
    (f : nat → nat → nat → nat → R) :
  Rsum ((λ x1, Rsum ((λ x2, Rsum ((λ x3, Rsum ((λ x4,
    f x1 x2 x3 x4) <$> range lo4 hi4)) <$> range lo3 hi3))
    <$> range lo2 hi2)) <$> range lo1 hi1) =
  sigma_n lo1 (hi1 - lo1) (λ x1, sigma_n lo2 (hi2 - lo2) (λ x2,
    sigma_n lo3 (hi3 - lo3) (λ x3, sigma_n lo4 (hi4 - lo4) (λ x4,
      f x1 x2 x3 x4)))).
Proof.
  rewrite Rsum_range_n. apply sigma_n_ext. intros x1 _.
  rewrite Rsum_range_n. apply sigma_n_ext. intros x2 _.
  rewrite Rsum_range_n. apply sigma_n_ext. intros x3 _.
  apply Rsum_range_n.
Qed.

Lemma pydiv_Some x y z : pydiv x y = Some z → y ≠ 0%R ∧ z = (x / y)%R.
Proof. unfold pydiv. case_decide; [done|]. by intros [= <-]. Qed.

Lemma pydiv_nonzero x y : y ≠ 0%R → pydiv x y = Some (x / y)%R.
Proof. intros Hy. unfold pydiv. by rewrite decide_False. Qed.

(** ** The four costs of the objective *)

Section Objective.
Import Notebook.
Variable P : Params.t.

Local Abbreviation V := (Params.V P).
Local Abbreviation K := (Params.K P).
Local Abbreviation T := (Params.T P).
Local Abbreviation m := (Params.m P).

Local Open Scope R_scope.

Lemma eval_inventory_cost e σ :
  inventory_cost P = Some e →
  eval σ e =
  Params.h P * sigma 1 (V - 1) (λ i, sigma 1 T (λ t, σ (Var.Ip i t))).
Proof.
  intros (ys & Hys & ->)%fmap_Some. rewrite eval_lpSum.
  rewrite (Rsum_for_each _ _ _ _
    (λ i, Params.h P * sigma 1 T (λ t, σ (Var.Ip i t))) Hys).
  - unfold range_i_. rewrite (Rsum_range_sigma 1 V (V - 1)) by lia.
    apply sigma_n_scal.
  - intros i ci _ Hci.
    rewrite (Rsum_for_each _ _ _ _ (λ t, Params.h P * σ (Var.Ip i t)) Hci).
    + unfold range_t. rewrite (Rsum_range_sigma 1 (T + 1) T) by lia.
      apply sigma_n_scal.
    + intros t ct _ (v & Hv & [= <-])%bind_Some.
      apply Ip_Some in Hv as [_ ->]. simpl. lra.
Qed.

Lemma eval_waste_cost e σ :
  waste_cost P = Some e →
  eval σ e =
  Params.p P * sigma 1 (V - 1) (λ i, sigma m T (λ t, σ (Var.W i t))).
Proof.
  intros (ys & Hys & ->)%fmap_Some. rewrite eval_lpSum.
  rewrite (Rsum_for_each _ _ _ _
    (λ i, Params.p P * sigma m T (λ t, σ (Var.W i t))) Hys).
  - unfold range_i_. rewrite (Rsum_range_sigma 1 V (V - 1)) by lia.
    apply sigma_n_scal.
  - intros i ci _ Hci.
    rewrite (Rsum_for_each _ _ _ _ (λ t, Params.p P * σ (Var.W i t)) Hci).
    + rewrite (Rsum_range_sigma m (T + 1) T) by lia. apply sigma_n_scal.
    + intros t ct _ (v & Hv & [= <-])%bind_Some.
      apply W_Some in Hv as [_ ->]. simpl. lra.
Qed.

Lemma eval_fuel_cost e σ :
  fuel_cost P = Some e →
  eval σ e =
  Params.l P * sigma_edges V (λ i j, sigma 1 K (λ k, sigma 1 T (λ t,
    fuel_on_edge P i j (σ (Var.X i j k t)) (σ (Var.F i j k t))))).
Proof.
  unfold fuel_cost.
  intros (lam & [_ ->]%pydiv_Some & (gam & [_ ->]%pydiv_Some
            & (ys & Hys & ->)%fmap_Some)%bind_Some)%bind_Some.
  rewrite eval_lpSum.
  rewrite (Rsum_loop4 _ _ _ _ _ _ ys
    (λ t k j i, if decide (i = j) then 0
                else Params.l P * fuel_on_edge P i j (σ (Var.X i j k t))
                                    (σ (Var.F i j k t))) Hys).
  - unfold range_t, range_k, range_j, range_i. rewrite Rsum_range4.
    rewrite !Nat.add_sub, !Nat.sub_0_r. rewrite sigma_n_edges.
    f_equal. unfold sigma_edges. apply sigma_n_ext. intros i _.
    apply sigma_n_ext. intros j _. case_decide; [done|].
    rewrite sigma_from_1. apply sigma_n_ext. intros k _.
    by rewrite sigma_from_1.
  - intros t k j i cx Hcx. destruct (decide (i = j)) as [->|Hij].
    + rewrite decide_False in Hcx by (intros Hne; by apply Hne).
      injection Hcx as <-. apply Rsum_singleton.
    + rewrite decide_True in Hcx by done.
      apply bind_Some in Hcx as (a_ij & Ha & Hcx).
      apply bind_Some in Hcx as (x & Hx & Hcx).
      apply bind_Some in Hcx as (fl & Hfl & [= <-]).
      apply X_Some in Hx as [_ ->]. apply F_Some in Hfl as [_ ->].
      unfold fuel_on_edge, distance. rewrite Ha.
      cbn -[pow]. ring.
Qed.

Lemma eval_driver_cost e σ :
  driver_cost P = Some e →
  eval σ e =
  Params.r P * sigma_edges V (λ i j, sigma 1 K (λ k, sigma 1 T (λ t,
    distance P i j / Params.f P * σ (Var.X i j k t)))).
Proof.
  unfold driver_cost. intros (ys & Hys & ->)%fmap_Some.
  rewrite eval_lpSum.
  rewrite (Rsum_loop4 _ _ _ _ _ _ ys
    (λ t k j i, if decide (i = j) then 0
                else Params.r P * (distance P i j / Params.f P
                                   * σ (Var.X i j k t))) Hys).
  - unfold range_t, range_k, range_j, range_i. rewrite Rsum_range4.
    rewrite !Nat.add_sub, !Nat.sub_0_r. rewrite sigma_n_edges.
    f_equal. unfold sigma_edges. apply sigma_n_ext. intros i _.
    apply sigma_n_ext. intros j _. case_decide; [done|].
    rewrite sigma_from_1. apply sigma_n_ext. intros k _.
    by rewrite sigma_from_1.
  - intros t k j i cx Hcx. destruct (decide (i = j)) as [->|Hij].
    + rewrite decide_False in Hcx by (intros Hne; by apply Hne).
      injection Hcx as <-. apply Rsum_singleton.
    + rewrite decide_True in Hcx by done.
      apply bind_Some in Hcx as (a_ij & Ha & Hcx).
      apply bind_Some in Hcx as (d & [_ ->]%pydiv_Some & Hcx).
      apply bind_Some in Hcx as (x & Hx & [= <-]).
      apply X_Some in Hx as [_ ->].
      unfold distance. rewrite Ha. simpl. lra.
Qed.

End Objective.


(** ** The variables of the objective *)

Lemma elem_of_vars_lpSum v es :
  v ∈ vars (lpSum es) ↔ ∃ e, e ∈ es ∧ v ∈ vars e.
Proof.
  induction es as [|e es IH]; simpl.
  - split; [by intros ?%elem_of_nil|]. by intros (? & ?%elem_of_nil & _).
  - rewrite elem_of_app, IH. split.
    + intros [Hv|(e' & He' & Hv)]; [exists e|exists e']; split;
        first [by left|by right|done].
    + intros (e' & [->|He']%elem_of_cons & Hv); [by left|right; eauto].
Qed.

Section ObjectiveVars.
Import Notebook.
Variable P : Params.t.

Lemma vars_inventory_cost e v :
  inventory_cost P = Some e → v ∈ vars e → objective_var P v.
Proof.
  intros (ys & Hys & ->)%fmap_Some (e' & He & Hv)%elem_of_vars_lpSum.
  apply (for_each_elem_of _ _ _ _ Hys) in He as (i & ci & _ & Hci & He).
  apply (for_each_elem_of _ _ _ _ Hci) in He as (t & ct & _ & Hct & He).
  apply bind_Some in Hct as (x & Hx & [= <-]).
  apply Ip_Some in Hx as [_ ->].
  apply list_elem_of_singleton in He as ->.
  by apply list_elem_of_singleton in Hv as ->.
Qed.

Lemma vars_waste_cost e v :
  waste_cost P = Some e → v ∈ vars e → objective_var P v.
Proof.
  intros (ys & Hys & ->)%fmap_Some (e' & He & Hv)%elem_of_vars_lpSum.
  apply (for_each_elem_of _ _ _ _ Hys) in He as (i & ci & _ & Hci & He).
  apply (for_each_elem_of _ _ _ _ Hci) in He
    as (t & ct & Ht%elem_of_range & Hct & He).
  apply bind_Some in Hct as (x & Hx & [= <-]).
  apply W_Some in Hx as [_ ->].
  apply list_elem_of_singleton in He as ->.
  apply list_elem_of_singleton in Hv as ->. simpl. lia.
Qed.

Lemma vars_fuel_cost e v :
  fuel_cost P = Some e → v ∈ vars e → objective_var P v.
Proof.
  unfold fuel_cost.
  intros (lam & _ & (gam & _ & (ys & Hys & ->)%fmap_Some)%bind_Some)
    %bind_Some (e' & He & Hv)%elem_of_vars_lpSum.
  apply (loop4_elem_of _ _ _ _ _ ys e' Hys) in He
    as (t & k & j & i & cx & _ & _ & _ & _ & Hcx & He).
  case_decide.
  - apply bind_Some in Hcx as (a_ij & _ & Hcx).
    apply bind_Some in Hcx as (x & Hx & Hcx).
    apply bind_Some in Hcx as (fl & Hfl & [= <-]).
    apply X_Some in Hx as [_ ->]. apply F_Some in Hfl as [_ ->].
    apply list_elem_of_singleton in He as ->. simpl in Hv.
    repeat (apply elem_of_cons in Hv as [->|Hv]; [done|]).
    by apply elem_of_nil in Hv.
  - injection Hcx as <-. apply list_elem_of_singleton in He as ->.
    by apply elem_of_nil in Hv.
Qed.

Lemma vars_driver_cost e v :
  driver_cost P = Some e → v ∈ vars e → objective_var P v.
Proof.
  unfold driver_cost.
  intros (ys & Hys & ->)%fmap_Some (e' & He & Hv)%elem_of_vars_lpSum.
  apply (loop4_elem_of _ _ _ _ _ ys e' Hys) in He
    as (t & k & j & i & cx & _ & _ & _ & _ & Hcx & He).
  case_decide.
  - apply bind_Some in Hcx as (a_ij & _ & Hcx).
    apply bind_Some in Hcx as (d & _ & Hcx).
    apply bind_Some in Hcx as (x & Hx & [= <-]).
    apply X_Some in Hx as [_ ->].
    apply list_elem_of_singleton in He as ->.
    by apply list_elem_of_singleton in Hv as ->.
  - injection Hcx as <-. apply list_elem_of_singleton in He as ->.
    by apply elem_of_nil in Hv.
Qed.

End ObjectiveVars.


(** ** The cells raise nothing on well-formed inputs *)

Ltac range_hyps :=
  repeat match goal with
         | H : _ ∈ range _ _ |- _ => apply elem_of_range in H
         end.

Ltac in_bounds :=
  unfold Notebook.range_i, Notebook.range_j, Notebook.range_i_,
    Notebook.range_j_, Notebook.range_k, Notebook.range_t in *;
  range_hyps; lia.

Section Totality.
Import Notebook.
Variable norm_ppf : R → R.
Variable P : Params.t.
Hypothesis Hwf : well_formed P.

Local Abbreviation V := (Params.V P).
Local Abbreviation K := (Params.K P).
Local Abbreviation T := (Params.T P).
Local Abbreviation m := (Params.m P).

Lemma index2_d_mu i s :
  i < V → s ≤ T → index2 (Params.d_mu P) i s = Some (demand P i s).
Proof.
  intros Hi Hs. apply index2_demand. apply (wf_d_mu P Hwf); lia.
Qed.

Lemma index2_a i j :
  i < V → j < V → index2 (Params.a P) i j = Some (distance P i j).
Proof.
  intros Hi Hj. unfold distance.
  by destruct (wf_a P Hwf i j Hi Hj) as [x ->].
Qed.

Lemma lambda_is_Some : is_Some (lambda_ P).
Proof.
  unfold lambda_. rewrite pydiv_nonzero by apply (wf_lambda P Hwf).
  by eexists.
Qed.

Lemma gamma_is_Some : is_Some (gamma P).
Proof.
  unfold gamma. rewrite pydiv_nonzero by apply (wf_gamma P Hwf).
  by eexists.
Qed.

Lemma X_diagonal_is_Some : is_Some (X_diagonal P).
Proof.
  unfold X_diagonal.
  apply for_each_is_Some. intros t Ht. apply for_each_is_Some. intros k Hk.
  apply for_each_is_Some. intros j Hj. apply for_each_is_Some. intros i Hi.
  case_decide; [|by eexists].
  rewrite X_in_range by in_bounds. by eexists.
Qed.

Lemma F_diagonal_is_Some : is_Some (F_diagonal P).
Proof.
  unfold F_diagonal.
  apply for_each_is_Some. intros t Ht. apply for_each_is_Some. intros k Hk.
  apply for_each_is_Some. intros j Hj. apply for_each_is_Some. intros i Hi.
  case_decide; [|by eexists].
  rewrite F_in_range by in_bounds. by eexists.
Qed.

Lemma inventory_cost_is_Some : is_Some (inventory_cost P).
Proof.
  apply fmap_is_Some, for_each_is_Some. intros i Hi.
  apply for_each_is_Some. intros t Ht.
  rewrite Ip_in_range by in_bounds. by eexists.
Qed.

Lemma waste_cost_is_Some : is_Some (waste_cost P).
Proof.
  apply fmap_is_Some, for_each_is_Some. intros i Hi.
  apply for_each_is_Some. intros t Ht.
  pose proof (wf_shelf_life P Hwf).
  rewrite W_in_range by in_bounds. by eexists.
Qed.

Lemma fuel_cost_is_Some : is_Some (fuel_cost P).
Proof.
  unfold fuel_cost.
  destruct lambda_is_Some as [lam ->]. destruct gamma_is_Some as [gam ->].
  simpl. apply fmap_is_Some, loop4_is_Some. intros t k j i Ht Hk Hj Hi.
  case_decide; [|by eexists].
  rewrite index2_a, X_in_range, F_in_range by in_bounds. by eexists.
Qed.

Lemma driver_cost_is_Some : is_Some (driver_cost P).
Proof.
  apply fmap_is_Some, loop4_is_Some. intros t k j i Ht Hk Hj Hi.
  case_decide; [|by eexists].
  rewrite index2_a by in_bounds. simpl.
  rewrite pydiv_nonzero by apply (wf_speed P Hwf). simpl.
  rewrite X_in_range by in_bounds. by eexists.
Qed.

Lemma delivered_is_Some i t :
  1 ≤ i < V → t ≤ T →
  is_Some (for_each (range 1 (t + 1)) (λ s, for_each (range_k P) (λ k,
    q ← Q P i k s; yield (Var q)))).
Proof.
  intros Hi Ht. apply for_each_is_Some. intros s Hs.
  apply for_each_is_Some. intros k Hk.
  rewrite Q_in_range by in_bounds. by eexists.
Qed.

Lemma wasted_is_Some i lo hi :
  1 ≤ i < V → 1 ≤ lo → hi ≤ T + 1 →
  is_Some (for_each (range lo hi) (λ s, w ← W P i s; yield (Var w))).
Proof.
  intros Hi Hlo Hhi. apply for_each_is_Some. intros s Hs.
  rewrite W_in_range by in_bounds. by eexists.
Qed.

Lemma constraints_2_is_Some : is_Some (constraints_2 P).
Proof.
  apply loop2_is_Some. intros t i Ht Hi. unfold constraint_2.
  rewrite I_in_range by in_bounds. simpl.
  destruct (delivered_is_Some i t) as [qs ->]; [in_bounds..|]. simpl.
  match goal with
  | |- is_Some (?o ≫= _) => assert (is_Some o) as [ws ->]; [|by eexists]
  end.
  apply for_each_is_Some. intros s Hs.
  rewrite index2_d_mu, W_in_range by in_bounds. by eexists.
Qed.

Lemma constraints_3_is_Some : is_Some (constraints_3 P).
Proof.
  apply loop2_is_Some. intros t i Ht Hi. unfold constraint_3.
  rewrite Ip_in_range, I_in_range by in_bounds. by eexists.
Qed.

Lemma constraints_4_5_is_Some : is_Some (constraints_4_5 P).
Proof.
  pose proof (wf_shelf_life P Hwf) as Hm.
  apply for_each_is_Some. intros t Ht. case_decide.
  - apply for_each_is_Some. intros i Hi. unfold constraint_4.
    rewrite W_in_range, I_in_range by in_bounds. simpl.
    match goal with
    | |- is_Some ((?o ≫= _) ≫= _) => assert (is_Some o) as [ds ->]
    end.
    { apply for_each_is_Some. intros s Hs.
      rewrite index2_d_mu by in_bounds. by eexists. }
    simpl.
    destruct (wasted_is_Some i (t - m + 2) t) as [ws ->]; [in_bounds..|].
    by eexists.
  - apply for_each_is_Some. intros i Hi. unfold constraint_5.
    rewrite W_in_range by in_bounds. by eexists.
Qed.

Lemma degree_is_Some (j k t : nat) (inward : bool) :
  j < V → 1 ≤ k ≤ K → 1 ≤ t ≤ T →
  is_Some (for_each (range_i P) (λ i,
    if decide (i ≠ j)
    then x ← (if inward then X P i j k t else X P j i k t); yield (Var x)
    else yield (Const 0))).
Proof.
  intros Hj Hk Ht. apply for_each_is_Some. intros i Hi.
  case_decide; [|by eexists].
  destruct inward; rewrite X_in_range by in_bounds; by eexists.
Qed.

Lemma constraints_7_is_Some : is_Some (constraints_7 P).
Proof.
  apply loop3_is_Some. intros t k j Ht Hk Hj. unfold constraint_7.
  destruct (degree_is_Some j k t true) as [left Hl]; [in_bounds..|].
  destruct (degree_is_Some j k t false) as [right Hr]; [in_bounds..|].
  simpl in Hl, Hr. rewrite Hl. simpl. rewrite Hr. by eexists.
Qed.

Lemma constraints_8_is_Some : is_Some (constraints_8 P).
Proof.
  apply loop3_is_Some. intros t k i Ht Hk Hi. unfold constraint_8.
  match goal with
  | |- is_Some (?o ≫= _) => assert (is_Some o) as [out ->]; [|by eexists]
  end.
  apply for_each_is_Some. intros j Hj. case_decide; [|by eexists].
  rewrite X_in_range by in_bounds. by eexists.
Qed.

Lemma constraints_9_is_Some : is_Some (constraints_9 P).
Proof.
  apply loop3_is_Some. intros t k i Ht Hk Hi. unfold constraint_9.
  match goal with
  | |- is_Some (?o ≫= _) => assert (is_Some o) as [left ->]
  end.
  { apply for_each_is_Some. intros j Hj. case_decide; [|by eexists].
    rewrite F_in_range by in_bounds. by eexists. }
  simpl.
  match goal with
  | |- is_Some (?o ≫= _) => assert (is_Some o) as [right ->]
  end.
  { apply for_each_is_Some. intros j Hj. case_decide; [|by eexists].
    rewrite F_in_range by in_bounds. by eexists. }
  simpl. rewrite Q_in_range by in_bounds. by eexists.
Qed.

Lemma constraints_10_is_Some : is_Some (constraints_10 P).
Proof.
  unfold constraints_10.
  apply for_each_is_Some. intros t Ht. apply for_each_is_Some. intros k Hk.
  apply for_each_is_Some. intros i Hi. apply for_each_is_Some. intros j Hj.
  case_decide; [|by eexists].
  unfold constraint_10.
  rewrite F_in_range, X_in_range by in_bounds. by eexists.
Qed.

Lemma constraints_21_is_Some rhs21 :
  right_of_const_21 norm_ppf P = Some rhs21 →
  is_Some (constraints_21 P rhs21).
Proof.
  intros Hrhs. apply loop2_is_Some. intros t i Ht Hi. unfold constraint_21.
  destruct (delivered_is_Some i t) as [qs ->]; [in_bounds..|]. simpl.
  destruct (wasted_is_Some i 1 t) as [ws ->]; [in_bounds..|]. simpl.
  rewrite (right_of_const_21_Some norm_ppf P rhs21 i t Hrhs) by in_bounds.
  by eexists.
Qed.

(** On every well-formed input the notebook builds its model. *)
Lemma build_is_Some : is_Some (build norm_ppf P).
Proof.
  unfold build.
  destruct lambda_is_Some as [? ->]. destruct gamma_is_Some as [? ->].
  destruct (right_of_const_21_is_Some norm_ppf P (wf_d_mu P Hwf))
    as [rhs21 Hrhs].
  rewrite Hrhs. simpl.
  destruct X_diagonal_is_Some as [? ->].
  destruct F_diagonal_is_Some as [? ->].
  destruct inventory_cost_is_Some as [? ->].
  destruct waste_cost_is_Some as [? ->].
  destruct fuel_cost_is_Some as [? ->].
  destruct driver_cost_is_Some as [? ->].
  destruct constraints_2_is_Some as [? ->].
  destruct constraints_3_is_Some as [? ->].
  destruct constraints_4_5_is_Some as [? ->].
  destruct constraints_7_is_Some as [? ->].
  destruct constraints_8_is_Some as [? ->].
  destruct constraints_9_is_Some as [? ->].
  destruct constraints_10_is_Some as [? ->].
  destruct (constraints_21_is_Some rhs21 Hrhs) as [? ->].
  by eexists.
Qed.

End Totality.


(** ** What [build] returns *)

Section Build.
Import Notebook.
Variable norm_ppf : R → R.
Variable P : Params.t.

Local Abbreviation V := (Params.V P).
Local Abbreviation K := (Params.K P).
Local Abbreviation T := (Params.T P).
Local Abbreviation m := (Params.m P).

Lemma build_Some st :
  build norm_ppf P = Some st →
  ∃ cX cF c2 c3 c45 c7 c8 c9 c10 c21,
    right_of_const_21 norm_ppf P = Some (st_right_of_const_21 st) ∧
    X_diagonal P = Some cX ∧ F_diagonal P = Some cF ∧
    inventory_cost P = Some (st_inventory_cost st) ∧
    waste_cost P = Some (st_waste_cost st) ∧
    fuel_cost P = Some (st_fuel_cost st) ∧
    driver_cost P = Some (st_driver_cost st) ∧
    constraints_2 P = Some c2 ∧ constraints_3 P = Some c3 ∧
    constraints_4_5 P = Some c45 ∧ constraints_7 P = Some c7 ∧
    constraints_8 P = Some c8 ∧ constraints_9 P = Some c9 ∧
    constraints_10 P = Some c10 ∧
    constraints_21 P (st_right_of_const_21 st) = Some c21 ∧
    objective (st_problem st) =
      Some (st_inventory_cost st + st_waste_cost st
            + st_fuel_cost st + st_driver_cost st)%E ∧
    constraints (st_problem st) =
      cX ++ cF ++ c2 ++ c3 ++ c45 ++ c7 ++ c8 ++ c9 ++ c10 ++ c21.
Proof.
  unfold build. intros H.
  repeat match type of H with
         | _ ≫= _ = Some _ => apply bind_Some in H as (? & ? & H)
         end.
  injection H as <-. simpl. do 10 eexists. repeat split; eassumption.
Qed.

Lemma build_constraints_21 st i t :
  build norm_ppf P = Some st → 1 ≤ i < V → 1 ≤ t ≤ T →
  ∃ c, c ∈ constraints (st_problem st) ∧
    constraint_21 P (st_right_of_const_21 st) i t = Some c.
Proof.
  intros (cX & cF & c2 & c3 & c45 & c7 & c8 & c9 & c10 & c21 & H)%build_Some
    Hi Ht.
  destruct H as (_&_&_&_&_&_&_&_&_&_&_&_&_&_& Hc & _ & ->).
  destruct (constraints_21_round P _ _ i t Hc Hi Ht) as (c & Hmk & Hin).
  exists c. split; [|done]. rewrite !elem_of_app. tauto.
Qed.

Lemma build_constraints_2 st i t :
  build norm_ppf P = Some st → 1 ≤ i < V → 1 ≤ t ≤ T →
  ∃ c, c ∈ constraints (st_problem st) ∧ constraint_2 P i t = Some c.
Proof.
  intros (cX & cF & c2 & c3 & c45 & c7 & c8 & c9 & c10 & c21 & H)%build_Some
    Hi Ht.
  destruct H as (_&_&_&_&_&_&_& Hc &_&_&_&_&_&_&_& _ & ->).
  destruct (constraints_2_round P _ i t Hc Hi Ht) as (c & Hmk & Hin).
  exists c. split; [|done]. rewrite !elem_of_app. tauto.
Qed.

Lemma build_constraints_4_5 st :
  build norm_ppf P = Some st →
  ∃ c45, constraints_4_5 P = Some c45 ∧ c45 ⊆ constraints (st_problem st).
Proof.
  intros (cX & cF & c2 & c3 & c45 & c7 & c8 & c9 & c10 & c21 & H)%build_Some.
  destruct H as (_&_&_&_&_&_&_&_&_& Hc &_&_&_&_&_& _ & ->).
  exists c45. split; [done|]. intros c Hin. rewrite !elem_of_app. tauto.
Qed.

Lemma build_constraints_7 st j k t :
  build norm_ppf P = Some st → 1 ≤ j < V → 1 ≤ k ≤ K → 1 ≤ t ≤ T →
  ∃ c, c ∈ constraints (st_problem st) ∧ constraint_7 P j k t = Some c.
Proof.
  intros (cX & cF & c2 & c3 & c45 & c7 & c8 & c9 & c10 & c21 & H)%build_Some
    Hj Hk Ht.
  destruct H as (_&_&_&_&_&_&_&_&_&_& Hc &_&_&_&_& _ & ->).
  destruct (constraints_7_round P _ j k t Hc Hj Hk Ht) as (c & Hmk & Hin).
  exists c. split; [|done]. rewrite !elem_of_app. tauto.
Qed.

Lemma build_constraints_10 st i j k t :
  build norm_ppf P = Some st →
  i < V → j < V → i ≠ j → 1 ≤ k ≤ K → 1 ≤ t ≤ T →
  (Var (Var.F i j k t) <== Params.c P * Var (Var.X j i k t))%E
    ∈ constraints (st_problem st).
Proof.
  intros (cX & cF & c2 & c3 & c45 & c7 & c8 & c9 & c10 & c21 & H)%build_Some
    Hi Hj Hij Hk Ht.
  destruct H as (_&_&_&_&_&_&_&_&_&_&_&_&_& Hc &_& _ & ->).
  pose proof (constraints_10_round P _ i j k t Hc Hi Hj Hij Hk Ht).
  rewrite !elem_of_app. tauto.
Qed.

Lemma build_X_diagonal st i k t :
  build norm_ppf P = Some st → i < V → 1 ≤ k ≤ K → 1 ≤ t ≤ T →
  (Var (Var.X i i k t) === Const 0) ∈ constraints (st_problem st).
Proof.
  intros (cX & cF & c2 & c3 & c45 & c7 & c8 & c9 & c10 & c21 & H)%build_Some
    Hi Hk Ht.
  destruct H as (_& Hc &_&_&_&_&_&_&_&_&_&_&_&_&_& _ & ->).
  pose proof (X_diagonal_round P _ i k t Hc Hi Hk Ht).
  rewrite !elem_of_app. tauto.
Qed.

Lemma build_F_diagonal st i k t :
  build norm_ppf P = Some st → i < V → 1 ≤ k ≤ K → 1 ≤ t ≤ T →
  (Var (Var.F i i k t) === Const 0) ∈ constraints (st_problem st).
Proof.
  intros (cX & cF & c2 & c3 & c45 & c7 & c8 & c9 & c10 & c21 & H)%build_Some
    Hi Hk Ht.
  destruct H as (_&_& Hc &_&_&_&_&_&_&_&_&_&_&_&_& _ & ->).
  pose proof (F_diagonal_round P _ i k t Hc Hi Hk Ht).
  rewrite !elem_of_app. tauto.
Qed.

End Build.


(** ** The constants of the notebook are well formed *)

Lemma table_ok_dims tbl rows cols :
  rows ≤ length tbl → Forall (λ row, cols ≤ length row) tbl →
  Notebook.table_ok tbl rows cols.
Proof.
  intros Hrows Hcols i j Hi Hj. unfold index2.
  destruct (lookup_lt_is_Some_2 tbl i) as [row Hrow]; [lia|].
  rewrite Hrow. simpl. apply lookup_lt_is_Some_2.
  rewrite Forall_lookup in Hcols. specialize (Hcols _ _ Hrow). simpl in Hcols.
  lia.
Qed.

Lemma notebook_well_formed : Notebook.well_formed notebook_params.
Proof.
  split; simpl; try lia; try lra.
  - apply table_ok_dims; [simpl; lia|]. repeat constructor; simpl; lia.
  - apply table_ok_dims; [simpl; lia|]. repeat constructor; simpl; lia.
Qed.

(** * The model against its specification *)

Section Claims.
Import Notebook.



(** C2: for every customer [i] and period [t], the model holds the
    equality [W[i][t] == 0] when [t < m], and when [t >= m] a constraint
    [W[i][t] >= I[i][t-m+1] - sum(d_mu[i][a], a = t-m+2..t)
                - sum(W[i][a], a = t-m+2..t-1)];
    the loop (4), (5) adds these constraints and no other. *)
Theorem waste_constraints (norm_ppf : R → R) (P : Params.t) (i t : nat) :
  well_formed P →
  1 ≤ i ≤ Params.V P - 1 → 1 ≤ t ≤ Params.T P →
  ∃ st c45, build norm_ppf P = Some st ∧
    constraints_4_5 P = Some c45 ∧ c45 ⊆ constraints (st_problem st) ∧
    (t < Params.m P → (Var (Var.W i t) === Const 0) ∈ c45) ∧
    (Params.m P ≤ t →
       ∃ c, c ∈ c45 ∧ lhs c = Var (Var.W i t) ∧ rel c = GE ∧
         ∀ σ, eval σ (rhs c) =
              (σ (Var.I i (t - Params.m P + 1))
               - sigma (t - Params.m P + 2) t (demand P i)
               - sigma (t - Params.m P + 2) (t - 1)
                   (λ a, σ (Var.W i a)))%R) ∧
    (∀ c, c ∈ c45 →
       ∃ i' t', 1 ≤ i' ≤ Params.V P - 1 ∧ 1 ≤ t' ≤ Params.T P ∧
         (t' < Params.m P ∧ c = (Var (Var.W i' t') === Const 0) ∨
          Params.m P ≤ t' ∧ constraint_4 P i' t' = Some c)).
Proof.
  intros Hwf Hi Ht.
  destruct (build_is_Some norm_ppf P Hwf) as [st Hst].
  destruct (build_constraints_4_5 norm_ppf P st Hst) as (c45 & Hc45 & Hsub).
  exists st, c45. split; [done|]. split; [done|]. split; [done|].
  destruct (constraints_4_5_round P c45 i t Hc45) as (c & Hin & Hc); [lia..|].
  split; [|split].
  - intros Hlt. destruct Hc as [[? _]|[_ Hc]]; [lia|].
    by apply (constraint_5_Some P) in Hc as ->.
  - intros Hle. destruct Hc as [[_ Hc]|[? _]]; [|lia].
    apply constraint_4_Some in Hc as (Hl & Hrel & Hr). by exists c.
  - intros c' (i' & t' & Hi' & Ht' & Hc')%(constraints_4_5_elem_of P c45 c' Hc45).
    exists i', t'. split; [lia|]. split; [lia|].
    destruct Hc' as [[? Hc']|[? Hc']]; [by right|].
    left. split; [done|]. by apply (constraint_5_Some P).
Qed.

Lemma waste_constraints_witness :
  ∃ st c45, build example_ppf notebook_params = Some st ∧
    constraints_4_5 notebook_params = Some c45 ∧
    c45 ⊆ constraints (st_problem st) ∧
    (2 < Params.m notebook_params → (Var (Var.W 1 2) === Const 0) ∈ c45) ∧
    (Params.m notebook_params ≤ 2 →
       ∃ c, c ∈ c45 ∧ lhs c = Var (Var.W 1 2) ∧ rel c = GE ∧
         ∀ σ, eval σ (rhs c) =
              (σ (Var.I 1 (2 - Params.m notebook_params + 1))
               - sigma (2 - Params.m notebook_params + 2) 2
                   (demand notebook_params 1)
               - sigma (2 - Params.m notebook_params + 2) (2 - 1)
                   (λ a, σ (Var.W 1 a)))%R) ∧
    (∀ c, c ∈ c45 →
       ∃ i' t', 1 ≤ i' ≤ Params.V notebook_params - 1 ∧
         1 ≤ t' ≤ Params.T notebook_params ∧
         (t' < Params.m notebook_params
            ∧ c = (Var (Var.W i' t') === Const 0) ∨
          Params.m notebook_params ≤ t'
            ∧ constraint_4 notebook_params i' t' = Some c)).
Proof.
  apply (waste_constraints example_ppf notebook_params 1 2
           notebook_well_formed); simpl; lia.
Defined.

(** C3: for every customer [i] and period [t], the model holds the balance
    [I[i][t] == sum(Q[i][k][s], s = 1..t, k = 1..K)
                - sum(d_mu[i][s] + W[i][s], s = 1..t-1)];
    in period 1 the second sum is empty and the right-hand side is
    [sum(Q[i][k][1], k = 1..K)]. *)
Theorem inventory_balance (norm_ppf : R → R) (P : Params.t) (i t : nat) :
  well_formed P →
  1 ≤ i ≤ Params.V P - 1 → 1 ≤ t ≤ Params.T P →
  ∃ st c, build norm_ppf P = Some st ∧
    constraint_2 P i t = Some c ∧ c ∈ constraints (st_problem st) ∧
    lhs c = Var (Var.I i t) ∧ rel c = EQ ∧
    (∀ σ, eval σ (rhs c) =
          (sigma 1 t (λ s, sigma 1 (Params.K P) (λ k, σ (Var.Q i k s)))
           - sigma 1 (t - 1) (λ s, demand P i s + σ (Var.W i s)))%R) ∧
    (t = 1 →
     ∀ σ, eval σ (rhs c) = sigma 1 (Params.K P) (λ k, σ (Var.Q i k 1))).
Proof.
  intros Hwf Hi Ht.
  destruct (build_is_Some norm_ppf P Hwf) as [st Hst].
  destruct (build_constraints_2 norm_ppf P st i t Hst) as (c & Hin & Hc);
    [lia..|].
  exists st, c. split; [done|]. split; [done|]. split; [done|].
  apply constraint_2_Some in Hc as (Hl & Hrel & Hr).
  split; [done|]. split; [done|]. split; [done|].
  intros -> σ. rewrite Hr. unfold sigma at 1 3. simpl. lra.
Qed.

Lemma inventory_balance_witness :
  ∃ st c, build example_ppf notebook_params = Some st ∧
    constraint_2 notebook_params 1 1 = Some c ∧
    c ∈ constraints (st_problem st) ∧
    lhs c = Var (Var.I 1 1) ∧ rel c = EQ ∧
    (∀ σ, eval σ (rhs c) =
          (sigma 1 1 (λ s, sigma 1 (Params.K notebook_params)
                             (λ k, σ (Var.Q 1 k s)))
           - sigma 1 (1 - 1)
               (λ s, demand notebook_params 1 s + σ (Var.W 1 s)))%R) ∧
    (1 = 1 →
     ∀ σ, eval σ (rhs c) =
          sigma 1 (Params.K notebook_params) (λ k, σ (Var.Q 1 k 1))).
Proof.
  apply (inventory_balance example_ppf notebook_params 1 1
           notebook_well_formed); simpl; lia.
Defined.

End Claims.


(** ** Arrivals and departures *)

Lemma sigma_n_first lo n (f : nat → R) :
  sigma_n lo (S n) f = (f lo + sigma_n (S lo) n f)%R.
Proof.
  induction n as [|n IH].
  - simpl. rewrite Nat.add_0_r. lra.
  - change (sigma_n lo (S (S n)) f)
      with (sigma_n lo (S n) f + f (lo + S n)%nat)%R.
    rewrite IH. simpl. replace (lo + S n) with (S (lo + n)) by lia. lra.
Qed.

(** Every edge has one head and one tail: over all the nodes there are as
    many arrivals as departures. *)
Lemma degree_total V σ k t :
  sigma_n 0 V (λ j, in_degree V σ j k t) =
  sigma_n 0 V (λ j, out_degree V σ j k t).
Proof.
  unfold in_degree, out_degree. rewrite sigma_n_swap.
  apply sigma_n_ext. intros i _. apply sigma_n_ext. intros j _.
  destruct (decide (i = j)) as [->|Hij].
  - by rewrite decide_True.
  - by rewrite decide_False by (intros ->; by apply Hij).
Qed.

(** When the customers are balanced, so is the depot. *)
Lemma degree_depot V σ k t :
  0 < V →
  (∀ j, 1 ≤ j < V → in_degree V σ j k t = out_degree V σ j k t) →
  in_degree V σ 0 k t = out_degree V σ 0 k t.
Proof.
  intros HV Hcust. pose proof (degree_total V σ k t) as Htot.
  destruct V as [|n]; [lia|]. rewrite !sigma_n_first in Htot.
  rewrite (sigma_n_ext 1 n (λ j, in_degree (S n) σ j k t)
             (λ j, out_degree (S n) σ j k t)) in Htot; [lra|].
  intros j Hj. apply Hcust. lia.
Qed.


Lemma tiny_well_formed c h C alpha d :
  Notebook.well_formed (tiny_params c h C alpha d).
Proof.
  split; simpl; try lia; try lra.
  - intros i j Hi Hj. simpl in Hi, Hj.
    destruct i as [|[|i]]; try lia; destruct j as [|[|j]]; try lia;
      by eexists.
  - intros i j Hi Hj. simpl in Hi, Hj.
    destruct i as [|[|i]]; try lia; destruct j as [|[|j]]; try lia;
      by eexists.
Qed.

Section RoutingClaims.
Import Notebook.

(** C4 (as amended): for every ordered pair of distinct nodes [i], [j],
    every vehicle [k] and period [t], the model holds the constraint
    [F[i][j][k][t] <= c * X[j][i][k][t]], with the route indicator of the
    reversed edge; hence, in every feasible solution,
    [F[i][j][k][t] = 0] whenever [X[j][i][k][t] = 0], and, when the
    capacity [c] is not negative, no load variable exceeds [c]. *)
Theorem capacity_coupling (norm_ppf : R → R) (P : Params.t)
    (i j k t : nat) :
  well_formed P →
  i < Params.V P → j < Params.V P → i ≠ j →
  1 ≤ k ≤ Params.K P → 1 ≤ t ≤ Params.T P →
  ∃ st, build norm_ppf P = Some st ∧
    (Var (Var.F i j k t) <== Params.c P * Var (Var.X j i k t))%E
      ∈ constraints (st_problem st) ∧
    ∀ σ, feasible P (st_problem st) σ →
      (σ (Var.X j i k t) = 0%R → σ (Var.F i j k t) = 0%R) ∧
      ((0 <= Params.c P)%R →
       ∀ i' j' k' t', i' < Params.V P → j' < Params.V P →
         1 ≤ k' ≤ Params.K P → 1 ≤ t' ≤ Params.T P →
         (σ (Var.F i' j' k' t') <= Params.c P)%R).
Proof.
  intros Hwf Hi Hj Hij Hk Ht.
  destruct (build_is_Some norm_ppf P Hwf) as [st Hst].
  exists st. split; [done|].
  split; [by apply (build_constraints_10 norm_ppf)|].
  intros σ [Hdom Hsat]. split.
  - intros HX.
    pose proof (Hsat _ (build_constraints_10 norm_ppf P st i j k t
                          Hst Hi Hj Hij Hk Ht)) as Hle.
    unfold sat in Hle. simpl in Hle. rewrite HX in Hle.
    destruct (Hdom (Var.F i j k t)) as [Hlb _].
    { simpl. by apply F_in_range. }
    simpl in Hlb. lra.
  - intros Hc i' j' k' t' Hi' Hj' Hk' Ht'.
    destruct (decide (i' = j')) as [->|Hij'].
    + pose proof (Hsat _ (build_F_diagonal norm_ppf P st j' k' t'
                            Hst Hj' Hk' Ht')) as Heq.
      unfold sat in Heq. simpl in Heq. lra.
    + pose proof (Hsat _ (build_constraints_10 norm_ppf P st i' j' k' t'
                            Hst Hi' Hj' Hij' Hk' Ht')) as Hle.
      unfold sat in Hle. simpl in Hle.
      destruct (Hdom (Var.X j' i' k' t')) as [_ [HX|HX]].
      { simpl. by apply X_in_range. }
      * rewrite HX in Hle. lra.
      * rewrite HX in Hle. lra.
Qed.

Lemma capacity_coupling_witness :
  ∃ st, build example_ppf notebook_params = Some st ∧
    (Var (Var.F 0 1 1 1)
     <== Params.c notebook_params * Var (Var.X 1 0 1 1))%E
      ∈ constraints (st_problem st) ∧
    ∀ σ, feasible notebook_params (st_problem st) σ →
      (σ (Var.X 1 0 1 1) = 0%R → σ (Var.F 0 1 1 1) = 0%R) ∧
      ((0 <= Params.c notebook_params)%R →
       ∀ i' j' k' t', i' < Params.V notebook_params →
         j' < Params.V notebook_params →
         1 ≤ k' ≤ Params.K notebook_params →
         1 ≤ t' ≤ Params.T notebook_params →
         (σ (Var.F i' j' k' t') <= Params.c notebook_params)%R).
Proof.
  apply (capacity_coupling example_ppf notebook_params 0 1 1 1
           notebook_well_formed); simpl; lia.
Defined.

(** C4 as stated fails when the capacity is negative: with [c = -1], the
    depot and one customer without demand, the assignment that gives 0 to
    every variable is feasible, and its load [F[0][1][1][1] = 0] exceeds
    [c], whatever the quantile function. *)
Lemma capacity_exceeded_when_negative :
  ∃ σ, ∀ norm_ppf, ∃ st,
    build norm_ppf (tiny_params (-1) 1 1 (1 / 2) 0) = Some st ∧
    feasible (tiny_params (-1) 1 1 (1 / 2) 0) (st_problem st) σ ∧
    (Params.c (tiny_params (-1) 1 1 (1 / 2) 0) < σ (Var.F 0 1 1 1))%R.
Proof.
  exists (λ _, 0%R). intros norm_ppf.
  destruct (build_is_Some norm_ppf _ (tiny_well_formed (-1) 1 1 (1 / 2) 0))
    as [st Hst].
  exists st. split; [done|]. split; [|simpl; lra]. split.
  - intros v _. unfold in_domain.
    destruct v; simpl; first [by split; [lra|left] | by split; [lra|] | done].
  - intros c Hc.
    destruct (build_Some _ _ _ Hst)
      as (cX & cF & c2 & c3 & c45 & c7 & c8 & c9 & c10 & c21 & Hrhs & HcX
          & HcF & _ & _ & _ & _ & Hc2 & Hc3 & Hc45 & Hc7 & Hc8 & Hc9
          & Hc10 & Hc21 & _ & Hcs).
    rewrite Hcs in Hc. clear Hcs Hst.
    assert (Hsat21 : ∀ c, c ∈ c21 → sat (λ _, 0%R) c).
    { intros c' (i & t & Hi & Ht & Hc')%(constraints_21_elem_of _ _ _ c' Hc21).
      simpl in Hi, Ht. assert (i = 1) as -> by lia. assert (t = 1) as -> by lia.
      apply constraint_21_Some in Hc' as (bound & Hb & Hrel & Hr & Hl).
      rewrite (right_of_const_21_Some _ _ _ 1 1 Hrhs) in Hb by (simpl; lia).
      injection Hb as <-. unfold sat. rewrite Hrel, Hr, Hl. simpl.
      unfold sigma, demand. simpl.
      replace (0 + 0 * (0 * 1))%R with 0%R by lra. rewrite sqrt_0. lra. }
    clear Hrhs Hc21.
    vm_compute in HcX, HcF, Hc2, Hc3, Hc45, Hc7, Hc8, Hc9, Hc10.
    injection HcX as <-. injection HcF as <-. injection Hc2 as <-.
    injection Hc3 as <-. injection Hc45 as <-. injection Hc7 as <-.
    injection Hc8 as <-. injection Hc9 as <-. injection Hc10 as <-.
    repeat (apply elem_of_app in Hc as [Hc|Hc]); try by apply Hsat21.
    all: repeat (apply elem_of_cons in Hc as [->|Hc]);
      try (by apply elem_of_nil in Hc); unfold sat; simpl; lra.
Qed.

(** C9: in every feasible solution of the model, for every vehicle [k] and
    period [t], every node [j] of the graph, the depot 0 included, has as
    many arrivals as departures. *)
Theorem flow_conservation (norm_ppf : R → R) (P : Params.t) (j k t : nat) :
  well_formed P →
  j < Params.V P → 1 ≤ k ≤ Params.K P → 1 ≤ t ≤ Params.T P →
  ∃ st, build norm_ppf P = Some st ∧
    ∀ σ, feasible P (st_problem st) σ →
      in_degree (Params.V P) σ j k t = out_degree (Params.V P) σ j k t.
Proof.
  intros Hwf Hj Hk Ht.
  destruct (build_is_Some norm_ppf P Hwf) as [st Hst].
  exists st. split; [done|]. intros σ [_ Hsat].
  assert (Hcust : ∀ j', 1 ≤ j' < Params.V P →
            in_degree (Params.V P) σ j' k t
            = out_degree (Params.V P) σ j' k t).
  { intros j' Hj'.
    destruct (build_constraints_7 norm_ppf P st j' k t Hst Hj' Hk Ht)
      as (c & Hin & Hc).
    apply constraint_7_Some in Hc as (Hrel & Hev).
    pose proof (Hsat c Hin) as Hc. unfold sat in Hc. rewrite Hrel in Hc.
    destruct (Hev σ) as [<- <-]. done. }
  destruct j as [|j]; [|apply Hcust; lia].
  apply degree_depot; [lia|done].
Qed.

Lemma flow_conservation_witness :
  ∃ st, build example_ppf notebook_params = Some st ∧
    ∀ σ, feasible notebook_params (st_problem st) σ →
      in_degree (Params.V notebook_params) σ 0 1 1
      = out_degree (Params.V notebook_params) σ 0 1 1.
Proof.
  apply (flow_conservation example_ppf notebook_params 0 1 1
           notebook_well_formed); simpl; lia.
Defined.

(** C6: the objective is the sum of the four costs: the inventory cost
    [h * sum(Ip[i][t])] over customers and periods, the waste cost
    [p * sum(W[i][t])] over customers and the periods [m..T], the fuel cost
    [l * sum(fuel_on_edge i j X[i][j][k][t] F[i][j][k][t])] and the driver
    cost [r * sum((a[i][j] / f) * X[i][j][k][t])], both over the pairs of
    distinct nodes, the vehicles and the periods; it mentions no [W[i][t]]
    with [t < m] and no [X] or [F] of a pair [i = j]. *)
Theorem objective_terms (norm_ppf : R → R) (P : Params.t) :
  well_formed P →
  ∃ st obj, build norm_ppf P = Some st ∧
    objective (st_problem st) = Some obj ∧
    (∀ σ, eval σ obj =
       (Params.h P * sigma 1 (Params.V P - 1) (λ i,
          sigma 1 (Params.T P) (λ t, σ (Var.Ip i t)))
        + Params.p P * sigma 1 (Params.V P - 1) (λ i,
            sigma (Params.m P) (Params.T P) (λ t, σ (Var.W i t)))
        + Params.l P * sigma_edges (Params.V P) (λ i j,
            sigma 1 (Params.K P) (λ k, sigma 1 (Params.T P) (λ t,
              fuel_on_edge P i j (σ (Var.X i j k t)) (σ (Var.F i j k t)))))
        + Params.r P * sigma_edges (Params.V P) (λ i j,
            sigma 1 (Params.K P) (λ k, sigma 1 (Params.T P) (λ t,
              distance P i j / Params.f P * σ (Var.X i j k t)))))%R) ∧
    (∀ v, v ∈ vars obj → objective_var P v).
Proof.
  intros Hwf.
  destruct (build_is_Some norm_ppf P Hwf) as [st Hst].
  destruct (build_Some norm_ppf P st Hst)
    as (cX & cF & c2 & c3 & c45 & c7 & c8 & c9 & c10 & c21 & _ & _ & _
        & Hinv & Hwaste & Hfuel & Hdriver & _ & _ & _ & _ & _ & _ & _ & _
        & Hobj & _).
  eexists st, _. split; [done|]. split; [exact Hobj|]. split.
  - intros σ. simpl.
    by rewrite (eval_inventory_cost P _ σ Hinv),
      (eval_waste_cost P _ σ Hwaste), (eval_fuel_cost P _ σ Hfuel),
      (eval_driver_cost P _ σ Hdriver).
  - intros v Hv. simpl in Hv. rewrite !elem_of_app in Hv.
    destruct Hv as [[[Hv|Hv]|Hv]|Hv].
    + by eapply vars_inventory_cost.
    + by eapply vars_waste_cost.
    + by eapply vars_fuel_cost.
    + by eapply vars_driver_cost.
Qed.

Lemma objective_terms_witness :
  ∃ st obj, build example_ppf notebook_params = Some st ∧
    objective (st_problem st) = Some obj ∧
    (∀ σ, eval σ obj =
       (Params.h notebook_params * sigma 1 (Params.V notebook_params - 1)
          (λ i, sigma 1 (Params.T notebook_params) (λ t, σ (Var.Ip i t)))
        + Params.p notebook_params * sigma 1 (Params.V notebook_params - 1)
            (λ i, sigma (Params.m notebook_params) (Params.T notebook_params)
                    (λ t, σ (Var.W i t)))
        + Params.l notebook_params * sigma_edges (Params.V notebook_params)
            (λ i j, sigma 1 (Params.K notebook_params) (λ k,
               sigma 1 (Params.T notebook_params) (λ t,
                 fuel_on_edge notebook_params i j
                   (σ (Var.X i j k t)) (σ (Var.F i j k t)))))
        + Params.r notebook_params * sigma_edges (Params.V notebook_params)
            (λ i j, sigma 1 (Params.K notebook_params) (λ k,
               sigma 1 (Params.T notebook_params) (λ t,
                 distance notebook_params i j / Params.f notebook_params
                 * σ (Var.X i j k t)))))%R) ∧
    (∀ v, v ∈ vars obj → objective_var notebook_params v).
Proof.
  apply (objective_terms example_ppf notebook_params notebook_well_formed).
Defined.

End RoutingClaims.


(** ** The bound of the chance constraint *)

Section Bound.
Import Notebook.
Local Open Scope R_scope.

Lemma sigma_succ n (f : nat → R) :
  sigma 1 (S n) f = sigma 1 n f + f (S n).
Proof. by rewrite !sigma_from_1. Qed.

Lemma sigma_squares_nonneg lo hi (f : nat → R) :
  0 <= sigma lo hi (λ s, f s ^ 2).
Proof.
  apply sigma_n_nonneg. intros s _. apply pow2_ge_0.
Qed.

(** The table of the notebook holds [RHS] at every customer and period. *)
Lemma right_of_const_21_RHS norm_ppf P i t :
  table_ok (Params.d_mu P) (Params.V P) (Params.T P + 1) →
  (1 ≤ i ≤ Params.V P - 1)%nat → (1 ≤ t ≤ Params.T P)%nat →
  ∃ arr, right_of_const_21 norm_ppf P = Some arr ∧
    index2 arr i t = Some (RHS norm_ppf P i t).
Proof.
  intros Hok Hi Ht.
  destruct (right_of_const_21_is_Some norm_ppf P Hok) as [arr Harr].
  exists arr. split; [done|].
  apply (right_of_const_21_Some norm_ppf P); [done|lia..].
Qed.

Lemma RHS_period_le norm_ppf P i t :
  0 <= demand P i (S t) → 0 <= Za norm_ppf P * Params.C P →
  RHS norm_ppf P i t <= RHS norm_ppf P i (S t).
Proof.
  intros Hd HZC. unfold RHS. rewrite !sigma_succ.
  assert (sqrt (sigma 1 t (λ s, demand P i s ^ 2))
          <= sqrt (sigma 1 t (λ s, demand P i s ^ 2) + demand P i (S t) ^ 2)).
  { apply sqrt_le_1_alt. pose proof (pow2_ge_0 (demand P i (S t))). lra. }
  nra.
Qed.

Lemma demand_with_alpha P alpha' : demand (with_alpha P alpha') = demand P.
Proof. reflexivity. Qed.

Lemma RHS_with_alpha_le norm_ppf P alpha1 alpha2 i t :
  norm_ppf alpha1 <= norm_ppf alpha2 → 0 <= Params.C P →
  RHS norm_ppf (with_alpha P alpha1) i t
  <= RHS norm_ppf (with_alpha P alpha2) i t.
Proof.
  intros Hq HC. unfold RHS, Za. rewrite !demand_with_alpha.
  change (Params.C (with_alpha P alpha1)) with (Params.C P).
  change (Params.C (with_alpha P alpha2)) with (Params.C P).
  change (Params.alpha (with_alpha P alpha1)) with alpha1.
  change (Params.alpha (with_alpha P alpha2)) with alpha2.
  pose proof (sqrt_pos (sigma 1 t (λ s, demand P i s ^ 2))) as Hs.
  apply Rplus_le_compat_l, Rmult_le_compat_r; [done|].
  by apply Rmult_le_compat_r.
Qed.

End Bound.

Section BoundClaims.
Import Notebook.

(** C10: when the mean demand of customer [i] is nowhere negative and
    [Za * C] is not negative, the bound the notebook computes for [i] does
    not decrease from a period [t] of [1..T-1] to the next. *)
Theorem bound_nondecreasing_in_period (norm_ppf : R → R) (P : Params.t)
    (i t : nat) :
  table_ok (Params.d_mu P) (Params.V P) (Params.T P + 1) →
  (∀ s, 1 ≤ s ≤ Params.T P → (0 <= demand P i s)%R) →
  (0 <= Za norm_ppf P * Params.C P)%R →
  1 ≤ i ≤ Params.V P - 1 → 1 ≤ t ≤ Params.T P - 1 →
  ∃ arr r1 r2, right_of_const_21 norm_ppf P = Some arr ∧
    index2 arr i t = Some r1 ∧ index2 arr i (t + 1) = Some r2 ∧
    (r1 <= r2)%R.
Proof.
  intros Hok Hd HZC Hi Ht.
  destruct (right_of_const_21_RHS norm_ppf P i t Hok) as (arr & Harr & H1);
    [lia..|].
  exists arr, (RHS norm_ppf P i t), (RHS norm_ppf P i (t + 1)).
  split; [done|]. split; [done|]. split.
  - apply (right_of_const_21_Some norm_ppf P); [done|lia..].
  - rewrite Nat.add_1_r. apply RHS_period_le; [|done]. apply Hd. lia.
Qed.

Lemma bound_nondecreasing_in_period_witness :
  ∃ arr r1 r2,
    right_of_const_21 example_ppf notebook_params = Some arr ∧
    index2 arr 1 1 = Some r1 ∧ index2 arr 1 (1 + 1) = Some r2 ∧
    (r1 <= r2)%R.
Proof.
  apply (bound_nondecreasing_in_period example_ppf notebook_params 1 1).
  - apply (wf_d_mu _ notebook_well_formed).
  - intros s Hs. simpl in Hs. unfold demand.
    do 5 (destruct s as [|s]; [simpl; lra|]). lia.
  - unfold Za, example_ppf. simpl. lra.
  - simpl. lia.
  - simpl. lia.
Defined.

(** C5 (as amended): when the coefficient [C] is not negative, raising the
    service level from [alpha1] to [alpha2], both in the open unit
    interval, with every other constant kept, does not lower the bound the
    notebook computes for any customer [i] and period [t]. *)
Theorem bound_nondecreasing_in_service_level (norm_ppf : R → R)
    (P : Params.t) (alpha1 alpha2 : R) (i t : nat) :
  increasing_on_unit norm_ppf →
  (0 <= Params.C P)%R →
  (0 < alpha1)%R → (alpha1 < alpha2)%R → (alpha2 < 1)%R →
  table_ok (Params.d_mu P) (Params.V P) (Params.T P + 1) →
  1 ≤ i ≤ Params.V P - 1 → 1 ≤ t ≤ Params.T P →
  ∃ arr1 arr2 r1 r2,
    right_of_const_21 norm_ppf (with_alpha P alpha1) = Some arr1 ∧
    right_of_const_21 norm_ppf (with_alpha P alpha2) = Some arr2 ∧
    index2 arr1 i t = Some r1 ∧ index2 arr2 i t = Some r2 ∧
    (r1 <= r2)%R.
Proof.
  intros Hinc HC H0 Hlt H1 Hok Hi Ht.
  destruct (right_of_const_21_RHS norm_ppf (with_alpha P alpha1) i t)
    as (arr1 & Harr1 & Hr1); [done..|].
  destruct (right_of_const_21_RHS norm_ppf (with_alpha P alpha2) i t)
    as (arr2 & Harr2 & Hr2); [done..|].
  exists arr1, arr2, (RHS norm_ppf (with_alpha P alpha1) i t),
    (RHS norm_ppf (with_alpha P alpha2) i t).
  repeat (split; [done|]).
  apply RHS_with_alpha_le; [|done]. apply Rlt_le. by apply Hinc.
Qed.

Lemma example_ppf_increasing : increasing_on_unit example_ppf.
Proof. intros x y _ Hxy _. unfold example_ppf. lra. Qed.

Lemma bound_nondecreasing_in_service_level_witness :
  ∃ arr1 arr2 r1 r2,
    right_of_const_21 example_ppf (with_alpha notebook_params (1 / 2))
      = Some arr1 ∧
    right_of_const_21 example_ppf (with_alpha notebook_params (9 / 10))
      = Some arr2 ∧
    index2 arr1 1 1 = Some r1 ∧ index2 arr2 1 1 = Some r2 ∧
    (r1 <= r2)%R.
Proof.
  apply (bound_nondecreasing_in_service_level example_ppf notebook_params
           (1 / 2) (9 / 10) 1 1 example_ppf_increasing).
  - simpl. lra.
  - lra.
  - lra.
  - lra.
  - apply (wf_d_mu _ notebook_well_formed).
  - simpl. lia.
  - simpl. lia.
Defined.

(** C5 as stated fails when [C] is negative: with [C = -1] and a customer
    of mean demand 1, the bound at the service level 9/10 is below the
    bound at 1/2, for every increasing quantile function. *)
Lemma bound_decreases_when_C_negative :
  (0 < 1 / 2)%R ∧ (1 / 2 < 9 / 10)%R ∧ (9 / 10 < 1)%R ∧
  ∀ norm_ppf, increasing_on_unit norm_ppf →
    ∃ arr1 arr2 r1 r2,
      right_of_const_21 norm_ppf
        (with_alpha (tiny_params 1 1 (-1) (1 / 2) 1) (1 / 2)) = Some arr1 ∧
      right_of_const_21 norm_ppf
        (with_alpha (tiny_params 1 1 (-1) (1 / 2) 1) (9 / 10)) = Some arr2 ∧
      index2 arr1 1 1 = Some r1 ∧ index2 arr2 1 1 = Some r2 ∧
      (r2 < r1)%R.
Proof.
  split; [lra|]. split; [lra|]. split; [lra|]. intros norm_ppf Hinc.
  pose proof (wf_d_mu _ (tiny_well_formed 1 1 (-1) (1 / 2) 1)) as Hok.
  destruct (right_of_const_21_RHS norm_ppf
              (with_alpha (tiny_params 1 1 (-1) (1 / 2) 1) (1 / 2)) 1 1)
    as (arr1 & Harr1 & Hr1); [done|simpl; lia..|].
  destruct (right_of_const_21_RHS norm_ppf
              (with_alpha (tiny_params 1 1 (-1) (1 / 2) 1) (9 / 10)) 1 1)
    as (arr2 & Harr2 & Hr2); [done|simpl; lia..|].
  eexists arr1, arr2, _, _. repeat (split; [eassumption|]).
  unfold RHS, Za, demand, sigma. simpl.
  replace (0 + 1 * (1 * 1))%R with 1%R by lra. rewrite sqrt_1.
  assert (norm_ppf (1 / 2) < norm_ppf (9 / 10))%R by (apply Hinc; lra).
  lra.
Qed.

End BoundClaims.


(** ** No validation, no status check *)

Section Unchecked.
Import Notebook.


Lemma with_alpha_well_formed P alpha' :
  well_formed P → well_formed (with_alpha P alpha').
Proof. intros [? ? ? ? ? ?]. by split. Qed.

Lemma print_routes_is_Some P σ : is_Some (print_routes P σ).
Proof.
  apply for_each_is_Some. intros t Ht.
  match goal with
  | |- is_Some (?o ≫= _) => assert (is_Some o) as [lines ->]; [|by eexists]
  end.
  apply for_each_is_Some. intros k Hk.
  apply for_each_is_Some. intros i Hi.
  apply for_each_is_Some. intros j Hj.
  rewrite X_in_range by in_bounds. simpl. case_decide; by eexists.
Qed.

Lemma print_waste_is_Some P σ :
  1 ≤ Params.T P → is_Some (print_waste P σ).
Proof.
  intros HT. apply for_each_is_Some. intros i Hi.
  case_decide; [|by eexists].
  rewrite W_in_range by in_bounds. by eexists.
Qed.

Lemma print_inventory_is_Some P σ :
  1 ≤ Params.T P → is_Some (print_inventory P σ).
Proof.
  intros HT. apply for_each_is_Some. intros i Hi.
  case_decide; [|by eexists].
  rewrite Ip_in_range by in_bounds. by eexists.
Qed.


Lemma notebook_demands_in_range : demands_in_range notebook_params.
Proof.
  unfold demands_in_range, notebook_params, Params.d_mu.
  repeat first [apply Forall_nil_2 | apply Forall_cons_2]; simpl; lra.
Qed.




(** The printing cells on a built model: a report for every status. *)
Lemma print_solution_Some norm_ppf P st result_status σ :
  build norm_ppf P = Some st → 1 ≤ Params.T P →
  ∃ obj rep, objective (st_problem st) = Some obj ∧
    print_solution P st result_status σ = Some rep ∧
    rep_status rep = result_status ∧
    rep_objective rep = eval σ obj ∧
    rep_inventory_cost rep = eval σ (st_inventory_cost st) ∧
    rep_waste_cost rep = eval σ (st_waste_cost st) ∧
    rep_fuel_cost rep = eval σ (st_fuel_cost st) ∧
    rep_driver_cost rep = eval σ (st_driver_cost st) ∧
    print_routes P σ = Some (rep_routes rep).
Proof.
  intros Hst HT.
  destruct (build_Some norm_ppf P st Hst)
    as (cX & cF & c2 & c3 & c45 & c7 & c8 & c9 & c10 & c21 & H).
  destruct H as (_&_&_&_&_&_&_&_&_&_&_&_&_&_&_& Hobj & _).
  destruct (print_routes_is_Some P σ) as [routes Hroutes].
  destruct (print_waste_is_Some P σ HT) as [waste Hwaste].
  destruct (print_inventory_is_Some P σ HT) as [inventory Hinventory].
  eexists _, _. split; [exact Hobj|].
  unfold print_solution. rewrite Hobj, Hroutes, Hwaste, Hinventory. simpl.
  repeat (split; [reflexivity|]). reflexivity.
Qed.

(** C8 (as amended): the cells that print the solution do not look at the
    status of the solver and there is no [NoSolutionError]: for every
    status, optimal or not, and every value of the variables, they print
    the four costs, the total and the routes computed from these values. *)
Theorem report_ignores_status (norm_ppf : R → R) (P : Params.t)
    (result_status : LpStatus) (σ : Var.t → R) :
  well_formed P → 1 ≤ Params.T P →
  ∃ st obj rep, build norm_ppf P = Some st ∧
    objective (st_problem st) = Some obj ∧
    print_solution P st result_status σ = Some rep ∧
    rep_status rep = result_status ∧
    rep_objective rep = eval σ obj ∧
    rep_inventory_cost rep = eval σ (st_inventory_cost st) ∧
    rep_waste_cost rep = eval σ (st_waste_cost st) ∧
    rep_fuel_cost rep = eval σ (st_fuel_cost st) ∧
    rep_driver_cost rep = eval σ (st_driver_cost st) ∧
    print_routes P σ = Some (rep_routes rep).
Proof.
  intros Hwf HT.
  destruct (build_is_Some norm_ppf P Hwf) as [st Hst].
  destruct (print_solution_Some norm_ppf P st result_status σ Hst HT)
    as (obj & rep & H).
  by exists st, obj, rep.
Qed.

Lemma report_ignores_status_witness :
  ∃ st obj rep, build example_ppf notebook_params = Some st ∧
    objective (st_problem st) = Some obj ∧
    print_solution notebook_params st LpStatusInfeasible (λ _, 0%R)
      = Some rep ∧
    rep_status rep = LpStatusInfeasible ∧
    rep_objective rep = eval (λ _, 0%R) obj ∧
    rep_inventory_cost rep = eval (λ _, 0%R) (st_inventory_cost st) ∧
    rep_waste_cost rep = eval (λ _, 0%R) (st_waste_cost st) ∧
    rep_fuel_cost rep = eval (λ _, 0%R) (st_fuel_cost st) ∧
    rep_driver_cost rep = eval (λ _, 0%R) (st_driver_cost st) ∧
    print_routes notebook_params (λ _, 0%R) = Some (rep_routes rep).
Proof.
  apply (report_ignores_status example_ppf notebook_params
           LpStatusInfeasible (λ _, 0%R) notebook_well_formed).
  simpl. lia.
Defined.

(** C8 as stated fails: called with the status [Infeasible], the printing
    cells raise nothing and give a report with that status, a cost
    breakdown and a route listing. *)
Lemma infeasible_status_reported :
  ∃ σ, ∀ norm_ppf, ∃ st rep,
    build norm_ppf notebook_params = Some st ∧
    print_solution notebook_params st LpStatusInfeasible σ = Some rep ∧
    rep_status rep = LpStatusInfeasible ∧
    rep_inventory_cost rep = eval σ (st_inventory_cost st) ∧
    print_routes notebook_params σ = Some (rep_routes rep).
Proof.
  exists (λ _, 0%R). intros norm_ppf.
  destruct (build_is_Some norm_ppf _ notebook_well_formed) as [st Hst].
  destruct (print_solution_Some norm_ppf notebook_params st
              LpStatusInfeasible (λ _, 0%R) Hst)
    as (obj & rep & _ & Hrep & Hstatus & _ & Hinv & _ & _ & _ & Hr);
    [simpl; lia|].
  by exists st, rep.
Qed.

End Unchecked.


(** ** The cells run on the smallest instance *)

Section Runs.
Import Notebook.

Example range_1_4 : range 1 4 = [1; 2; 3].
Proof. reflexivity. Qed.

Example range_empty : range 3 2 = [].
Proof. reflexivity. Qed.

(** One customer, one period: the table holds one computed entry. *)
Example right_of_const_21_tiny norm_ppf c h C alpha d :
  right_of_const_21 norm_ppf (tiny_params c h C alpha d) =
  Some [[0; 0]; [0; d + 0 + sqrt (d ^ 2 + 0) * C * norm_ppf alpha]]%R.
Proof. reflexivity. Qed.

(** With demand 100 and [C = 0] the bound is the demand. *)
Example right_of_const_21_no_uncertainty norm_ppf :
  ∃ arr,
    right_of_const_21 norm_ppf (tiny_params 10 1 0 (1 / 2) 100) = Some arr ∧
    ∃ bound, index2 arr 1 1 = Some bound ∧ bound = 100%R.
Proof.
  eexists. split; [apply right_of_const_21_tiny|].
  eexists. split; [reflexivity|]. lra.
Qed.

Example X_diagonal_tiny c h C alpha d :
  X_diagonal (tiny_params c h C alpha d) =
  Some [Var (Var.X 0 0 1 1) === Const 0; Var (Var.X 1 1 1 1) === Const 0].
Proof. reflexivity. Qed.

Example constraints_2_tiny c h C alpha d :
  constraints_2 (tiny_params c h C alpha d) =
  Some [Var (Var.I 1 1) === lpSum [Var (Var.Q 1 1 1)] - lpSum []]%E.
Proof. reflexivity. Qed.

Example constraints_4_5_tiny c h C alpha d :
  constraints_4_5 (tiny_params c h C alpha d) =
  Some [Var (Var.W 1 1) >== Var (Var.I 1 1) - lpSum [] - lpSum []]%E.
Proof. reflexivity. Qed.

Example constraints_7_tiny c h C alpha d :
  constraints_7 (tiny_params c h C alpha d) =
  Some [lpSum [Var (Var.X 0 1 1 1); Const 0]
        === lpSum [Var (Var.X 1 0 1 1); Const 0]].
Proof. reflexivity. Qed.

Example constraints_8_tiny c h C alpha d :
  constraints_8 (tiny_params c h C alpha d) =
  Some [lpSum [Const 0; Var (Var.X 0 1 1 1)] <== Const 1;
        lpSum [Var (Var.X 1 0 1 1); Const 0] <== Const 1].
Proof. reflexivity. Qed.

Example constraints_9_tiny c h C alpha d :
  constraints_9 (tiny_params c h C alpha d) =
  Some [lpSum [Var (Var.F 1 0 1 1); Const 0]
        === lpSum [Var (Var.F 0 1 1 1); Const 0] - Var (Var.Q 1 1 1)]%E.
Proof. reflexivity. Qed.

Example constraints_10_tiny c h C alpha d :
  constraints_10 (tiny_params c h C alpha d) =
  Some [Var (Var.F 0 1 1 1) <== c * Var (Var.X 1 0 1 1);
        Var (Var.F 1 0 1 1) <== c * Var (Var.X 0 1 1 1)]%E.
Proof. reflexivity. Qed.

Example constraints_21_tiny c h C alpha d bound :
  constraints_21 (tiny_params c h C alpha d) [[0; 0]; [0; bound]]%R =
  Some [lpSum [Var (Var.Q 1 1 1)] - lpSum [] >== Const bound]%E.
Proof. reflexivity. Qed.

Example inventory_cost_tiny c h C alpha d :
  inventory_cost (tiny_params c h C alpha d) =
  Some (lpSum [Var (Var.Ip 1 1) .* h])%E.
Proof. reflexivity. Qed.

Example waste_cost_tiny c h C alpha d :
  waste_cost (tiny_params c h C alpha d) =
  Some (lpSum [Var (Var.W 1 1) .* 1])%E.
Proof. reflexivity. Qed.

(** A shelf life of 0 periods: [waste_cost] reads [W[1][0]], which is no
    key of the dictionary. *)
Example waste_cost_no_shelf_life :
  waste_cost (Params.mk 2 1 1 1 1 1 1 1 1 1 1 1 1 0 1 1 1 1 1 1 1 1 1 1 1
                (1 / 2) 1 0 1 [[0; 0]; [0; 0]]%R [[0; 1]; [1; 0]]%R) = None.
Proof. reflexivity. Qed.

End Runs.


(** ** More constraints of the model *)

Section MoreConstraints.
Import Notebook.
Variable norm_ppf : R → R.
Variable P : Params.t.

Local Abbreviation V := (Params.V P).
Local Abbreviation K := (Params.K P).
Local Abbreviation T := (Params.T P).

Lemma constraint_3_Some i t c :
  constraint_3 P i t = Some c → c = (Var (Var.Ip i t) >== Var (Var.I i t)).
Proof.
  unfold constraint_3.
  intros (v & Hv & (w & Hw & [= <-])%bind_Some)%bind_Some.
  apply Ip_Some in Hv as [_ ->]. by apply I_Some in Hw as [_ ->].
Qed.

Lemma build_constraints_3 st i t :
  build norm_ppf P = Some st → 1 ≤ i < V → 1 ≤ t ≤ T →
  (Var (Var.Ip i t) >== Var (Var.I i t)) ∈ constraints (st_problem st).
Proof.
  intros (cX & cF & c2 & c3 & c45 & c7 & c8 & c9 & c10 & c21 & H)%build_Some
    Hi Ht.
  destruct H as (_&_&_&_&_&_&_&_& Hc &_&_&_&_&_&_& _ & ->).
  assert (Ht' : t ∈ range_t P) by (apply elem_of_range; lia).
  assert (Hi' : i ∈ range_i_ P) by (apply elem_of_range; lia).
  destruct (loop2_round _ _ _ _ t i Hc Ht' Hi') as (c & Hmk & Hin).
  apply constraint_3_Some in Hmk as ->. rewrite !elem_of_app. tauto.
Qed.

Lemma constraint_8_Some i k t c :
  constraint_8 P i k t = Some c →
  rel c = LE ∧ rhs c = Const 1 ∧
  ∀ σ, eval σ (lhs c) = out_degree V σ i k t.
Proof.
  unfold constraint_8. intros (out & Hout & [= <-])%bind_Some.
  split; [done|]. split; [done|]. intros σ. simpl. rewrite eval_lpSum.
  rewrite (Rsum_for_each _ _ _ _
    (λ j, if decide (j = i) then 0%R else σ (Var.X i j k t)) Hout).
  - unfold range_j, range. rewrite Nat.sub_0_r. apply Rsum_seq.
  - intros j cj _ Hcj. destruct (decide (j = i)) as [->|Hij].
    + rewrite decide_False in Hcj by (intros Hne; by apply Hne).
      injection Hcj as <-. apply Rsum_singleton.
    + rewrite decide_True in Hcj by (intros ->; by apply Hij).
      apply bind_Some in Hcj as (x & Hx & [= <-]).
      apply X_Some in Hx as [_ ->]. apply Rsum_singleton.
Qed.

Lemma build_constraints_8 st i k t :
  build norm_ppf P = Some st → i < V → 1 ≤ k ≤ K → 1 ≤ t ≤ T →
  ∃ c, c ∈ constraints (st_problem st) ∧ constraint_8 P i k t = Some c.
Proof.
  intros (cX & cF & c2 & c3 & c45 & c7 & c8 & c9 & c10 & c21 & H)%build_Some
    Hi Hk Ht.
  destruct H as (_&_&_&_&_&_&_&_&_&_&_& Hc &_&_&_& _ & ->).
  destruct (loop3_round _ _ _ _ _ t k i Hc) as (c & Hmk & Hin);
    try (apply elem_of_range; lia).
  exists c. split; [|done]. rewrite !elem_of_app. tauto.
Qed.

End MoreConstraints.

(** * Further properties of the model *)

Section MoreProperties.
Import Notebook.

(** X1: in every feasible solution the variable [Ip[i][t]] is at least the
    positive part of the inventory [I[i][t]]. *)
Theorem positive_inventory (norm_ppf : R → R) (P : Params.t) (i t : nat) :
  well_formed P →
  1 ≤ i ≤ Params.V P - 1 → 1 ≤ t ≤ Params.T P →
  ∃ st, build norm_ppf P = Some st ∧
    ∀ σ, feasible P (st_problem st) σ →
      (Rmax 0 (σ (Var.I i t)) <= σ (Var.Ip i t))%R.
Proof.
  intros Hwf Hi Ht.
  destruct (build_is_Some norm_ppf P Hwf) as [st Hst].
  exists st. split; [done|]. intros σ [Hdom Hsat].
  assert (Hc := Hsat _ (build_constraints_3 norm_ppf P st i t Hst
                          ltac:(lia) Ht)).
  unfold sat in Hc. simpl in Hc.
  destruct (Hdom (Var.Ip i t)) as [Hlb _].
  { simpl. apply Ip_in_range; lia. }
  simpl in Hlb. apply Rmax_lub; lra.
Qed.

Lemma positive_inventory_witness :
  ∃ st, build example_ppf notebook_params = Some st ∧
    ∀ σ, feasible notebook_params (st_problem st) σ →
      (Rmax 0 (σ (Var.I 1 1)) <= σ (Var.Ip 1 1))%R.
Proof.
  apply (positive_inventory example_ppf notebook_params 1 1
           notebook_well_formed); simpl; lia.
Defined.

(** In every feasible solution there is no waste before the shelf
    life has passed: [W[i][t] = 0] for every period [t < m]. *)
Theorem no_early_waste (norm_ppf : R → R) (P : Params.t) (i t : nat) :
  well_formed P →
  1 ≤ i ≤ Params.V P - 1 → 1 ≤ t ≤ Params.T P → t < Params.m P →
  ∃ st, build norm_ppf P = Some st ∧
    ∀ σ, feasible P (st_problem st) σ → σ (Var.W i t) = 0%R.
Proof.
  intros Hwf Hi Ht Hm.
  destruct (build_is_Some norm_ppf P Hwf) as [st Hst].
  exists st. split; [done|]. intros σ [_ Hsat].
  destruct (build_constraints_4_5 norm_ppf P st Hst) as (c45 & Hc45 & Hsub).
  destruct (constraints_4_5_round P c45 i t Hc45) as (c & Hin & Hc); [lia..|].
  destruct Hc as [[? _]|[_ Hc]]; [lia|].
  apply (constraint_5_Some P) in Hc as ->.
  by pose proof (Hsat _ (Hsub _ Hin)) as Hc.
Qed.

Lemma no_early_waste_witness :
  ∃ st, build example_ppf notebook_params = Some st ∧
    ∀ σ, feasible notebook_params (st_problem st) σ → σ (Var.W 1 1) = 0%R.
Proof.
  apply (no_early_waste example_ppf notebook_params 1 1
           notebook_well_formed); simpl; lia.
Defined.

(** X2: in every feasible solution a vehicle leaves a node at most once
    in a period. *)
Theorem single_visit (norm_ppf : R → R) (P : Params.t) (i k t : nat) :
  well_formed P →
  i < Params.V P → 1 ≤ k ≤ Params.K P → 1 ≤ t ≤ Params.T P →
  ∃ st, build norm_ppf P = Some st ∧
    ∀ σ, feasible P (st_problem st) σ →
      (out_degree (Params.V P) σ i k t <= 1)%R.
Proof.
  intros Hwf Hi Hk Ht.
  destruct (build_is_Some norm_ppf P Hwf) as [st Hst].
  exists st. split; [done|]. intros σ [_ Hsat].
  destruct (build_constraints_8 norm_ppf P st i k t Hst Hi Hk Ht)
    as (c & Hin & Hc).
  apply constraint_8_Some in Hc as (Hrel & Hr & Hl).
  pose proof (Hsat c Hin) as Hc. unfold sat in Hc.
  by rewrite Hrel, Hr, Hl in Hc.
Qed.

Lemma single_visit_witness :
  ∃ st, build example_ppf notebook_params = Some st ∧
    ∀ σ, feasible notebook_params (st_problem st) σ →
      (out_degree (Params.V notebook_params) σ 0 1 1 <= 1)%R.
Proof.
  apply (single_visit example_ppf notebook_params 0 1 1
           notebook_well_formed); simpl; lia.
Defined.

(** X3: in every feasible solution no vehicle drives, and no load is
    carried, from a node to itself. *)
Theorem no_loops (norm_ppf : R → R) (P : Params.t) (i k t : nat) :
  well_formed P →
  i < Params.V P → 1 ≤ k ≤ Params.K P → 1 ≤ t ≤ Params.T P →
  ∃ st, build norm_ppf P = Some st ∧
    ∀ σ, feasible P (st_problem st) σ →
      σ (Var.X i i k t) = 0%R ∧ σ (Var.F i i k t) = 0%R.
Proof.
  intros Hwf Hi Hk Ht.
  destruct (build_is_Some norm_ppf P Hwf) as [st Hst].
  exists st. split; [done|]. intros σ [_ Hsat]. split.
  - by pose proof (Hsat _ (build_X_diagonal norm_ppf P st i k t
                             Hst Hi Hk Ht)).
  - by pose proof (Hsat _ (build_F_diagonal norm_ppf P st i k t
                             Hst Hi Hk Ht)).
Qed.

Lemma no_loops_witness :
  ∃ st, build example_ppf notebook_params = Some st ∧
    ∀ σ, feasible notebook_params (st_problem st) σ →
      σ (Var.X 0 0 1 1) = 0%R ∧ σ (Var.F 0 0 1 1) = 0%R.
Proof.
  apply (no_loops example_ppf notebook_params 0 1 1 notebook_well_formed);
    simpl; lia.
Defined.

(** In every feasible solution the cumulative deliveries to a customer
    minus the waste before the period reach the bound [RHS] of the chance
    constraint. *)
Theorem service_level_met (norm_ppf : R → R) (P : Params.t) (i t : nat) :
  well_formed P →
  1 ≤ i ≤ Params.V P - 1 → 1 ≤ t ≤ Params.T P →
  ∃ st, build norm_ppf P = Some st ∧
    ∀ σ, feasible P (st_problem st) σ →
      (RHS norm_ppf P i t
       <= sigma 1 t (λ s, sigma 1 (Params.K P) (λ k, σ (Var.Q i k s)))
          - sigma 1 (t - 1) (λ s, σ (Var.W i s)))%R.
Proof.
  intros Hwf Hi Ht.
  destruct (build_is_Some norm_ppf P Hwf) as [st Hst].
  exists st. split; [done|]. intros σ [_ Hsat].
  destruct (build_Some norm_ppf P st Hst)
    as (cX & cF & c2 & c3 & c45 & c7 & c8 & c9 & c10 & c21 & Hrhs & _).
  destruct (build_constraints_21 norm_ppf P st i t Hst) as (c & Hin & Hc);
    [lia..|].
  apply constraint_21_Some in Hc as (bound & Hb & Hrel & Hr & Hl).
  rewrite (right_of_const_21_Some norm_ppf P _ i t Hrhs) in Hb by lia.
  injection Hb as <-.
  pose proof (Hsat c Hin) as Hc. unfold sat in Hc.
  rewrite Hrel, Hr, Hl in Hc. apply Rge_le. exact Hc.
Qed.

Lemma service_level_met_witness :
  ∃ st, build example_ppf notebook_params = Some st ∧
    ∀ σ, feasible notebook_params (st_problem st) σ →
      (RHS example_ppf notebook_params 1 1
       <= sigma 1 1 (λ s, sigma 1 (Params.K notebook_params)
                            (λ k, σ (Var.Q 1 k s)))
          - sigma 1 (1 - 1) (λ s, σ (Var.W 1 s)))%R.
Proof.
  apply (service_level_met example_ppf notebook_params 1 1
           notebook_well_formed); simpl; lia.
Defined.

End MoreProperties.


(** ** Inventory from one period to the next *)

Section InventoryDynamics.
Import Notebook.

Lemma sigma_plus lo hi (f1 f2 : nat → R) :
  sigma lo hi (λ s, f1 s + f2 s)%R = (sigma lo hi f1 + sigma lo hi f2)%R.
Proof. apply sigma_n_plus. Qed.

Lemma sigma_pred_succ t (f : nat → R) :
  1 ≤ t → sigma 1 t f = (sigma 1 (t - 1) f + f t)%R.
Proof.
  intros Ht. destruct t as [|t]; [lia|].
  rewrite sigma_succ. by rewrite Nat.sub_succ, Nat.sub_0_r.
Qed.

(** What constraint (2) says of a feasible solution. *)
Lemma feasible_inventory norm_ppf P st σ i t :
  build norm_ppf P = Some st → feasible P (st_problem st) σ →
  1 ≤ i < Params.V P → 1 ≤ t ≤ Params.T P →
  σ (Var.I i t) =
  (sigma 1 t (λ s, sigma 1 (Params.K P) (λ k, σ (Var.Q i k s)))
   - sigma 1 (t - 1) (λ s, demand P i s + σ (Var.W i s)))%R.
Proof.
  intros Hst [_ Hsat] Hi Ht.
  destruct (build_constraints_2 norm_ppf P st i t Hst Hi Ht) as (c & Hin & Hc).
  apply constraint_2_Some in Hc as (Hl & Hrel & Hr).
  pose proof (Hsat c Hin) as Hc. unfold sat in Hc.
  rewrite Hrel, Hl, Hr in Hc. exact Hc.
Qed.

(** What constraint (21) says of a feasible solution. *)
Lemma feasible_service_level norm_ppf P st σ i t :
  build norm_ppf P = Some st → feasible P (st_problem st) σ →
  1 ≤ i < Params.V P → 1 ≤ t ≤ Params.T P →
  (RHS norm_ppf P i t
   <= sigma 1 t (λ s, sigma 1 (Params.K P) (λ k, σ (Var.Q i k s)))
      - sigma 1 (t - 1) (λ s, σ (Var.W i s)))%R.
Proof.
  intros Hst [_ Hsat] Hi Ht.
  destruct (build_Some norm_ppf P st Hst)
    as (cX & cF & c2 & c3 & c45 & c7 & c8 & c9 & c10 & c21 & Hrhs & _).
  destruct (build_constraints_21 norm_ppf P st i t Hst Hi Ht)
    as (c & Hin & Hc).
  apply constraint_21_Some in Hc as (bound & Hb & Hrel & Hr & Hl).
  rewrite (right_of_const_21_Some norm_ppf P _ i t Hrhs Hi Ht) in Hb.
  injection Hb as <-.
  pose proof (Hsat c Hin) as Hc. unfold sat in Hc.
  rewrite Hrel, Hr, Hl in Hc. apply Rge_le. exact Hc.
Qed.

(** X4: in every feasible solution the inventory of a customer at the end
    of period [t + 1] is the inventory at the end of period [t], plus what
    the vehicles deliver in period [t + 1], minus the mean demand and the
    waste of period [t]. *)
Theorem inventory_recurrence (norm_ppf : R → R) (P : Params.t) (i t : nat) :
  well_formed P →
  1 ≤ i ≤ Params.V P - 1 → 1 ≤ t → t + 1 ≤ Params.T P →
  ∃ st, build norm_ppf P = Some st ∧
    ∀ σ, feasible P (st_problem st) σ →
      σ (Var.I i (t + 1)) =
      (σ (Var.I i t)
       + sigma 1 (Params.K P) (λ k, σ (Var.Q i k (t + 1)))
       - demand P i t - σ (Var.W i t))%R.
Proof.
  intros Hwf Hi Ht1 Ht2.
  destruct (build_is_Some norm_ppf P Hwf) as [st Hst].
  exists st. split; [done|]. intros σ Hfeas.
  rewrite (feasible_inventory norm_ppf P st σ i (t + 1) Hst Hfeas) by lia.
  rewrite (feasible_inventory norm_ppf P st σ i t Hst Hfeas) by lia.
  rewrite Nat.add_1_r, sigma_succ.
  rewrite Nat.sub_succ, Nat.sub_0_r.
  rewrite (sigma_pred_succ t (λ s, demand P i s + σ (Var.W i s))%R) by done.
  lra.
Qed.

Lemma inventory_recurrence_witness :
  ∃ st, build example_ppf notebook_params = Some st ∧
    ∀ σ, feasible notebook_params (st_problem st) σ →
      σ (Var.I 1 (1 + 1)) =
      (σ (Var.I 1 1)
       + sigma 1 (Params.K notebook_params) (λ k, σ (Var.Q 1 k (1 + 1)))
       - demand notebook_params 1 1 - σ (Var.W 1 1))%R.
Proof.
  apply (inventory_recurrence example_ppf notebook_params 1 1
           notebook_well_formed); simpl; lia.
Defined.

(** X5: in every feasible solution the inventory variable [I[i][t]], what
    has been delivered up to [t] less what was consumed or wasted before
    [t], is at least the mean demand of period [t] plus the safety margin
    [Za * C * sqrt(sum(d_mu[i][s]^2, s = 1..t))]. *)
Theorem inventory_covers_demand (norm_ppf : R → R) (P : Params.t)
    (i t : nat) :
  well_formed P →
  1 ≤ i ≤ Params.V P - 1 → 1 ≤ t ≤ Params.T P →
  ∃ st, build norm_ppf P = Some st ∧
    ∀ σ, feasible P (st_problem st) σ →
      (demand P i t
       + Za norm_ppf P * Params.C P
         * sqrt (sigma 1 t (λ s, demand P i s ^ 2))
       <= σ (Var.I i t))%R.
Proof.
  intros Hwf Hi Ht.
  destruct (build_is_Some norm_ppf P Hwf) as [st Hst].
  exists st. split; [done|]. intros σ Hfeas.
  rewrite (feasible_inventory norm_ppf P st σ i t Hst Hfeas) by lia.
  pose proof (feasible_service_level norm_ppf P st σ i t Hst Hfeas
                ltac:(lia) Ht) as Hsl.
  unfold RHS in Hsl.
  rewrite (sigma_pred_succ t (demand P i)) in Hsl by lia.
  rewrite sigma_plus. lra.
Qed.

Lemma inventory_covers_demand_witness :
  ∃ st, build example_ppf notebook_params = Some st ∧
    ∀ σ, feasible notebook_params (st_problem st) σ →
      (demand notebook_params 1 1
       + Za example_ppf notebook_params * Params.C notebook_params
         * sqrt (sigma 1 1 (λ s, demand notebook_params 1 s ^ 2))
       <= σ (Var.I 1 1))%R.
Proof.
  apply (inventory_covers_demand example_ppf notebook_params 1 1
           notebook_well_formed); simpl; lia.
Defined.

End InventoryDynamics.


(** ** Loads and deliveries of a vehicle *)

Section Loads.
Import Notebook.
Local Open Scope R_scope.

(** (9) *)
Lemma constraint_9_Some P i k t c :
  constraint_9 P i k t = Some c →
  rel c = EQ ∧
  ∀ σ, eval σ (lhs c) = out_load (Params.V P) σ i k t ∧
       eval σ (rhs c) = in_load (Params.V P) σ i k t - σ (Var.Q i k t).
Proof.
  unfold constraint_9.
  intros (left & Hl & (right & Hr & (q & Hq & [= <-])%bind_Some)%bind_Some)
    %bind_Some.
  apply Q_Some in Hq as [_ ->].
  split; [done|]. intros σ. simpl. rewrite !eval_lpSum. split.
  - rewrite (Rsum_for_each _ _ _ _
      (λ j, if decide (j = i) then 0 else σ (Var.F i j k t)) Hl).
    + unfold range_j, range. rewrite Nat.sub_0_r. apply Rsum_seq.
    + intros j cj _ Hcj. destruct (decide (j = i)) as [->|Hij].
      * rewrite decide_False in Hcj by (intros Hne; by apply Hne).
        injection Hcj as <-. apply Rsum_singleton.
      * rewrite decide_True in Hcj by (intros ->; by apply Hij).
        apply bind_Some in Hcj as (x & Hx & [= <-]).
        apply F_Some in Hx as [_ ->]. apply Rsum_singleton.
  - f_equal.
    rewrite (Rsum_for_each _ _ _ _
      (λ j, if decide (j = i) then 0 else σ (Var.F j i k t)) Hr).
    + unfold range_j, range. rewrite Nat.sub_0_r. apply Rsum_seq.
    + intros j cj _ Hcj. destruct (decide (j = i)) as [->|Hij].
      * rewrite decide_False in Hcj by (intros Hne; by apply Hne).
        injection Hcj as <-. apply Rsum_singleton.
      * rewrite decide_True in Hcj by (intros ->; by apply Hij).
        apply bind_Some in Hcj as (x & Hx & [= <-]).
        apply F_Some in Hx as [_ ->]. apply Rsum_singleton.
Qed.

Lemma build_constraints_9 norm_ppf P st i k t :
  build norm_ppf P = Some st →
  (1 ≤ i < Params.V P)%nat → (1 ≤ k ≤ Params.K P)%nat →
  (1 ≤ t ≤ Params.T P)%nat →
  ∃ c, c ∈ constraints (st_problem st) ∧ constraint_9 P i k t = Some c.
Proof.
  intros (cX & cF & c2 & c3 & c45 & c7 & c8 & c9 & c10 & c21 & H)%build_Some
    Hi Hk Ht.
  destruct H as (_&_&_&_&_&_&_&_&_&_&_&_& Hc &_&_& _ & ->).
  destruct (loop3_round _ _ _ _ _ t k i Hc) as (c & Hmk & Hin);
    try (apply elem_of_range; lia).
  exists c. split; [|done]. rewrite !elem_of_app. tauto.
Qed.

(** Every load has one origin and one destination. *)
Lemma load_total V σ k t :
  sigma_n 0 V (λ i, in_load V σ i k t) =
  sigma_n 0 V (λ i, out_load V σ i k t).
Proof.
  unfold in_load, out_load. rewrite sigma_n_swap.
  apply sigma_n_ext. intros j _. apply sigma_n_ext. intros i _.
  destruct (decide (j = i)) as [->|Hij].
  - by rewrite decide_True.
  - by rewrite decide_False by (intros ->; by apply Hij).
Qed.

(** What the constraints (7)-(10) and the bounds of the variables say of a
    feasible solution. *)
Lemma feasible_flow norm_ppf P st σ j k t :
  build norm_ppf P = Some st → feasible P (st_problem st) σ →
  (j < Params.V P)%nat → (1 ≤ k ≤ Params.K P)%nat →
  (1 ≤ t ≤ Params.T P)%nat →
  in_degree (Params.V P) σ j k t = out_degree (Params.V P) σ j k t.
Proof.
  intros Hst [_ Hsat] Hj Hk Ht.
  assert (Hcust : ∀ j', (1 ≤ j' < Params.V P)%nat →
            in_degree (Params.V P) σ j' k t
            = out_degree (Params.V P) σ j' k t).
  { intros j' Hj'.
    destruct (build_constraints_7 norm_ppf P st j' k t Hst Hj' Hk Ht)
      as (c & Hin & Hc).
    apply constraint_7_Some in Hc as (Hrel & Hev).
    pose proof (Hsat c Hin) as Hc. unfold sat in Hc. rewrite Hrel in Hc.
    destruct (Hev σ) as [<- <-]. done. }
  destruct j as [|j]; [|apply Hcust; lia].
  apply degree_depot; [lia|done].
Qed.

Lemma feasible_single_visit norm_ppf P st σ i k t :
  build norm_ppf P = Some st → feasible P (st_problem st) σ →
  (i < Params.V P)%nat → (1 ≤ k ≤ Params.K P)%nat →
  (1 ≤ t ≤ Params.T P)%nat →
  out_degree (Params.V P) σ i k t <= 1.
Proof.
  intros Hst [_ Hsat] Hi Hk Ht.
  destruct (build_constraints_8 norm_ppf P st i k t Hst Hi Hk Ht)
    as (c & Hin & Hc).
  apply constraint_8_Some in Hc as (Hrel & Hr & Hl).
  pose proof (Hsat c Hin) as Hc. unfold sat in Hc.
  by rewrite Hrel, Hr, Hl in Hc.
Qed.

Lemma feasible_load_balance norm_ppf P st σ i k t :
  build norm_ppf P = Some st → feasible P (st_problem st) σ →
  (1 ≤ i < Params.V P)%nat → (1 ≤ k ≤ Params.K P)%nat →
  (1 ≤ t ≤ Params.T P)%nat →
  out_load (Params.V P) σ i k t
  = in_load (Params.V P) σ i k t - σ (Var.Q i k t).
Proof.
  intros Hst [_ Hsat] Hi Hk Ht.
  destruct (build_constraints_9 norm_ppf P st i k t Hst Hi Hk Ht)
    as (c & Hin & Hc).
  apply constraint_9_Some in Hc as (Hrel & Hev).
  pose proof (Hsat c Hin) as Hc. unfold sat in Hc. rewrite Hrel in Hc.
  destruct (Hev σ) as [<- <-]. done.
Qed.

Lemma feasible_load_nonneg P pb σ i j k t :
  feasible P pb σ →
  (i < Params.V P)%nat → (j < Params.V P)%nat →
  (1 ≤ k ≤ Params.K P)%nat → (1 ≤ t ≤ Params.T P)%nat →
  0 <= σ (Var.F i j k t).
Proof.
  intros [Hdom _] Hi Hj Hk Ht.
  destruct (Hdom (Var.F i j k t)) as [Hlb _]; [|done].
  simpl. by apply F_in_range.
Qed.

(** The deliveries of a vehicle in a period are the load that leaves the
    depot less the load that comes back. *)
Lemma feasible_depot_load norm_ppf P st σ k t :
  build norm_ppf P = Some st → feasible P (st_problem st) σ →
  (0 < Params.V P)%nat → (1 ≤ k ≤ Params.K P)%nat →
  (1 ≤ t ≤ Params.T P)%nat →
  sigma 1 (Params.V P - 1) (λ i, σ (Var.Q i k t))
  = out_load (Params.V P) σ 0 k t - in_load (Params.V P) σ 0 k t.
Proof.
  intros Hst Hfeas HV Hk Ht.
  pose proof (load_total (Params.V P) σ k t) as Htot.
  rewrite sigma_from_1.
  destruct (Params.V P) as [|n] eqn:HVn; [lia|].
  rewrite !sigma_n_first in Htot.
  rewrite (sigma_n_ext 1 n (λ i, out_load (S n) σ i k t)
             (λ i, in_load (S n) σ i k t + - σ (Var.Q i k t))) in Htot.
  - rewrite sigma_n_plus in Htot.
    rewrite (sigma_n_ext 1 n (λ i, - σ (Var.Q i k t))
               (λ i, -1 * σ (Var.Q i k t))) in Htot by (intros; lra).
    rewrite sigma_n_scal in Htot.
    rewrite Nat.sub_succ, Nat.sub_0_r. lra.
  - intros i Hi. rewrite <- HVn.
    rewrite (feasible_load_balance norm_ppf P st σ i k t Hst Hfeas)
      by lia.
    lra.
Qed.

(** X6: in every feasible solution the quantities a vehicle delivers to
    the customers in a period add up to the load with which it leaves the
    depot less the load with which it comes back. *)
Theorem deliveries_leave_depot (norm_ppf : R → R) (P : Params.t)
    (k t : nat) :
  well_formed P →
  (0 < Params.V P)%nat → (1 ≤ k ≤ Params.K P)%nat →
  (1 ≤ t ≤ Params.T P)%nat →
  ∃ st, build norm_ppf P = Some st ∧
    ∀ σ, feasible P (st_problem st) σ →
      sigma 1 (Params.V P - 1) (λ i, σ (Var.Q i k t))
      = out_load (Params.V P) σ 0 k t - in_load (Params.V P) σ 0 k t.
Proof.
  intros Hwf HV Hk Ht.
  destruct (build_is_Some norm_ppf P Hwf) as [st Hst].
  exists st. split; [done|]. intros σ Hfeas.
  by apply (feasible_depot_load norm_ppf P st).
Qed.

Lemma deliveries_leave_depot_witness :
  ∃ st, build example_ppf notebook_params = Some st ∧
    ∀ σ, feasible notebook_params (st_problem st) σ →
      sigma 1 (Params.V notebook_params - 1) (λ i, σ (Var.Q i 1 1))
      = out_load (Params.V notebook_params) σ 0 1 1
        - in_load (Params.V notebook_params) σ 0 1 1.
Proof.
  apply (deliveries_leave_depot example_ppf notebook_params 1 1
           notebook_well_formed); simpl; lia.
Defined.

(** X7: when the capacity [c] is not negative, in every feasible solution
    a vehicle delivers in a period no more than its capacity to all the
    customers together. *)
Theorem deliveries_within_capacity (norm_ppf : R → R) (P : Params.t)
    (k t : nat) :
  well_formed P → 0 <= Params.c P →
  (1 ≤ k ≤ Params.K P)%nat → (1 ≤ t ≤ Params.T P)%nat →
  ∃ st, build norm_ppf P = Some st ∧
    ∀ σ, feasible P (st_problem st) σ →
      sigma 1 (Params.V P - 1) (λ i, σ (Var.Q i k t)) <= Params.c P.
Proof.
  intros Hwf Hc Hk Ht.
  destruct (build_is_Some norm_ppf P Hwf) as [st Hst].
  exists st. split; [done|]. intros σ Hfeas.
  destruct (decide (Params.V P = 0%nat)) as [HV0|HV0].
  { rewrite HV0. unfold sigma. simpl. done. }
  rewrite (feasible_depot_load norm_ppf P st σ k t Hst Hfeas) by (lia || done).
  assert (Hin : 0 <= in_load (Params.V P) σ 0 k t).
  { unfold in_load. apply sigma_n_nonneg. intros j Hj. case_decide; [lra|].
    apply (feasible_load_nonneg P _ σ j 0 k t Hfeas); lia. }
  assert (Hout : out_load (Params.V P) σ 0 k t
                 <= Params.c P * in_degree (Params.V P) σ 0 k t).
  { unfold out_load, in_degree. rewrite <- sigma_n_scal.
    apply sigma_n_le. intros j Hj. case_decide; [lra|].
    destruct Hfeas as [_ Hsat].
    pose proof (Hsat _ (build_constraints_10 norm_ppf P st 0 j k t Hst
                          ltac:(lia) ltac:(lia) ltac:(lia) Hk Ht)) as Hle.
    unfold sat in Hle. simpl in Hle. exact Hle. }
  rewrite (feasible_flow norm_ppf P st σ 0 k t Hst Hfeas) in Hout
    by (lia || done).
  pose proof (feasible_single_visit norm_ppf P st σ 0 k t Hst Hfeas
                ltac:(lia) Hk Ht) as Hdeg.
  assert (Params.c P * out_degree (Params.V P) σ 0 k t <= Params.c P * 1)
    by (by apply Rmult_le_compat_l).
  lra.
Qed.

Lemma deliveries_within_capacity_witness :
  ∃ st, build example_ppf notebook_params = Some st ∧
    ∀ σ, feasible notebook_params (st_problem st) σ →
      sigma 1 (Params.V notebook_params - 1) (λ i, σ (Var.Q i 1 1))
      <= Params.c notebook_params.
Proof.
  apply (deliveries_within_capacity example_ppf notebook_params 1 1
           notebook_well_formed); simpl; (lia || lra).
Defined.

End Loads.


(** ** What the printing cells print *)

Section Printing.
Import Notebook.

(** The lines of one period. *)
Lemma print_routes_period P σ t lines y :
  for_each (range_k P) (λ k, for_each (range_i P) (λ i,
    for_each (range_j P) (λ j,
      x ← X P i j k t;
      if decide (σ x = 1%R) then yield [t; k; i; j] else Some [])))
  = Some lines →
  y ∈ lines ↔
  ∃ k i j, 1 ≤ k ≤ Params.K P ∧ i < Params.V P ∧ j < Params.V P ∧
    σ (Var.X i j k t) = 1%R ∧ y = [t; k; i; j].
Proof.
  intros H1. rewrite (for_each_elem_of _ _ _ _ H1). split.
  - intros (k & c1 & Hk%elem_of_range & H2 & Hy).
    rewrite (for_each_elem_of _ _ _ _ H2) in Hy.
    destruct Hy as (i & c2 & Hi%elem_of_range & H3 & Hy).
    rewrite (for_each_elem_of _ _ _ _ H3) in Hy.
    destruct Hy as (j & c3 & Hj%elem_of_range & H4 & Hy).
    apply bind_Some in H4 as (x & Hx & H4).
    apply X_Some in Hx as [_ ->].
    case_decide; [|injection H4 as <-; by apply elem_of_nil in Hy].
    injection H4 as <-. apply list_elem_of_singleton in Hy as ->.
    exists k, i, j. repeat (split; [lia || done|]). done.
  - intros (k & i & j & Hk & Hi & Hj & HX & ->).
    assert (Hk' : k ∈ range_k P) by (apply elem_of_range; lia).
    assert (Hi' : i ∈ range_i P) by (apply elem_of_range; lia).
    assert (Hj' : j ∈ range_j P) by (apply elem_of_range; lia).
    destruct (for_each_Some_round _ _ _ _ H1 Hk') as [c1 H2].
    exists k, c1. split; [done|]. split; [done|].
    rewrite (for_each_elem_of _ _ _ _ H2).
    destruct (for_each_Some_round _ _ _ _ H2 Hi') as [c2 H3].
    exists i, c2. split; [done|]. split; [done|].
    rewrite (for_each_elem_of _ _ _ _ H3).
    destruct (for_each_Some_round _ _ _ _ H3 Hj') as [c3 H4].
    exists j, c3. split; [done|]. split; [done|].
    apply bind_Some in H4 as (x & Hx & H4).
    apply X_Some in Hx as [_ ->].
    rewrite decide_True in H4 by done. injection H4 as <-. by left.
Qed.

(** X8: the route listing is printed for every value of the variables; it
    holds the line [t k i j] exactly when [t] is a period, [k] a vehicle,
    [i] and [j] nodes and the value of [X[i][j][k][t]] is exactly 1 (a
    value near 1 is not listed), and the line [t] exactly when [t] is a
    period. *)
Theorem route_listing (P : Params.t) (σ : Var.t → R) :
  ∃ lines, print_routes P σ = Some lines ∧
    (∀ t k i j, [t; k; i; j] ∈ lines ↔
       1 ≤ t ≤ Params.T P ∧ 1 ≤ k ≤ Params.K P ∧
       i < Params.V P ∧ j < Params.V P ∧ σ (Var.X i j k t) = 1%R) ∧
    (∀ t, [t] ∈ lines ↔ 1 ≤ t ≤ Params.T P).
Proof.
  destruct (print_routes_is_Some P σ) as [lines Hlines].
  exists lines. split; [done|]. unfold print_routes in Hlines.
  assert (Hchar : ∀ y, y ∈ lines ↔
            ∃ t, 1 ≤ t ≤ Params.T P ∧
              (y = [t] ∨ ∃ k i j, 1 ≤ k ≤ Params.K P ∧ i < Params.V P ∧
                 j < Params.V P ∧ σ (Var.X i j k t) = 1%R ∧
                 y = [t; k; i; j])).
  { intros y. rewrite (for_each_elem_of _ _ _ _ Hlines). split.
    - intros (t & ct & Ht%elem_of_range & Hct & Hy).
      apply bind_Some in Hct as (lt & Hlt & [= <-]).
      exists t. split; [lia|].
      apply elem_of_cons in Hy as [->|Hy]; [by left|right].
      by apply (print_routes_period P σ t lt y Hlt).
    - intros (t & Ht & Hy).
      assert (Ht' : t ∈ range_t P) by (apply elem_of_range; lia).
      destruct (for_each_Some_round _ _ _ _ Hlines Ht') as [ct Hct].
      exists t, ct. split; [done|]. split; [done|].
      apply bind_Some in Hct as (lt & Hlt & [= <-]).
      destruct Hy as [->|Hy]; [by left|right].
      by apply (print_routes_period P σ t lt y Hlt). }
  split.
  - intros t k i j. rewrite Hchar. split.
    + intros (t' & Ht' & [[=]|(k' & i' & j' & ? & ? & ? & ? & [= -> -> -> ->])]).
      done.
    + intros (Ht & Hk & Hi & Hj & HX). exists t. split; [done|]. right.
      by exists k, i, j.
  - intros t. rewrite Hchar. split.
    + intros (t' & Ht' & [[= ->]|(k' & i' & j' & ? & ? & ? & ? & [=])]).
      done.
    + intros Ht. exists t. split; [done|]. by left.
Qed.

(** The total the printing cells print is the sum of the four costs
    they print. *)
Theorem printed_total (norm_ppf : R → R) (P : Params.t)
    (result_status : LpStatus) (σ : Var.t → R) :
  well_formed P → 1 ≤ Params.T P →
  ∃ st rep, build norm_ppf P = Some st ∧
    print_solution P st result_status σ = Some rep ∧
    rep_objective rep =
    (rep_inventory_cost rep + rep_waste_cost rep
     + rep_fuel_cost rep + rep_driver_cost rep)%R.
Proof.
  intros Hwf HT.
  destruct (build_is_Some norm_ppf P Hwf) as [st Hst].
  destruct (print_solution_Some norm_ppf P st result_status σ Hst HT)
    as (obj & rep & Hobj & Hrep & _ & Ho & Hi & Hw & Hf & Hd & _).
  exists st, rep. split; [done|]. split; [done|].
  destruct (build_Some norm_ppf P st Hst)
    as (cX & cF & c2 & c3 & c45 & c7 & c8 & c9 & c10 & c21 & H).
  destruct H as (_&_&_&_&_&_&_&_&_&_&_&_&_&_&_& Hobj' & _).
  rewrite Hobj' in Hobj. injection Hobj as <-.
  by rewrite Ho, Hi, Hw, Hf, Hd.
Qed.

Lemma printed_total_witness :
  ∃ st rep, build example_ppf notebook_params = Some st ∧
    print_solution notebook_params st LpStatusOptimal (λ _, 1%R) = Some rep ∧
    rep_objective rep =
    (rep_inventory_cost rep + rep_waste_cost rep
     + rep_fuel_cost rep + rep_driver_cost rep)%R.
Proof.
  apply (printed_total example_ppf notebook_params LpStatusOptimal
           (λ _, 1%R) notebook_well_formed).
  simpl. lia.
Defined.

Lemma for_each_proper {A B : Type} (l : list A)
    (f g : A → option (list B)) :
  (∀ x, x ∈ l → f x = g x) → for_each l f = for_each l g.
Proof.
  induction l as [|x l IH]; intros Hfg; [done|].
  rewrite !for_each_cons, Hfg by left.
  rewrite IH; [done|]. intros z Hz. apply Hfg. by right.
Qed.

(** A loop over the nodes that skips the depot is a loop over the
    customers. *)
Lemma for_each_customers {B : Type} (V : nat) (f : nat → option (list B)) :
  for_each (range 0 V) (λ i, if decide (i ≠ 0) then f i else Some []) =
  for_each (range 1 V) f.
Proof.
  destruct V as [|V]; [done|].
  unfold range. rewrite !Nat.sub_0_r, Nat.sub_succ, Nat.sub_0_r.
  change (seq 0 (S V)) with (0 :: seq 1 V). rewrite for_each_cons.
  rewrite decide_False by (intros Hne; by apply Hne). simpl.
  rewrite (for_each_proper (seq 1 V) _ f).
  - by destruct (for_each (seq 1 V) f).
  - intros i Hi%elem_of_seq. by rewrite decide_True by lia.
Qed.

(** X9: when there is a period, the last two cells print one line for
    every customer [1, ..., V-1] in this order and none for the depot: the
    customer with the waste [W[i][T]] of the last period times [p], and
    the customer with the positive inventory [Ip[i][T]] of the last period
    times [h]. *)
Theorem customer_listings (P : Params.t) (σ : Var.t → R) :
  1 ≤ Params.T P →
  print_waste P σ =
    Some ((λ i, (i, (σ (Var.W i (Params.T P)) * Params.p P)%R))
          <$> range 1 (Params.V P)) ∧
  print_inventory P σ =
    Some ((λ i, (i, (σ (Var.Ip i (Params.T P)) * Params.h P)%R))
          <$> range 1 (Params.V P)).
Proof.
  intros HT. split.
  - unfold print_waste, range_i. rewrite for_each_customers.
    apply for_each_yield. intros i Hi%elem_of_range.
    by rewrite W_in_range by lia.
  - unfold print_inventory, range_i. rewrite for_each_customers.
    apply for_each_yield. intros i Hi%elem_of_range.
    by rewrite Ip_in_range by lia.
Qed.

Lemma customer_listings_witness :
  print_waste notebook_params (λ _, 1%R) =
    Some ((λ i, (i, (1 * Params.p notebook_params)%R))
          <$> range 1 (Params.V notebook_params)) ∧
  print_inventory notebook_params (λ _, 1%R) =
    Some ((λ i, (i, (1 * Params.h notebook_params)%R))
          <$> range 1 (Params.V notebook_params)).
Proof.
  apply (customer_listings notebook_params (λ _, 1%R)). simpl. lia.
Defined.

(** X10: without a period ([T = 0]) and with a customer, the last two
    cells raise: they read [W[i][0]] and [Ip[i][0]], and 0 is no key of
    the dictionaries. *)
Theorem customer_listings_raise (P : Params.t) (σ : Var.t → R) :
  Params.T P = 0 → 2 ≤ Params.V P →
  print_waste P σ = None ∧ print_inventory P σ = None.
Proof.
  intros HT HV.
  assert (H1 : 1 ∈ range_i P) by (apply elem_of_range; lia).
  split.
  - destruct (print_waste P σ) as [ys|] eqn:Hys; [exfalso|done].
    destruct (for_each_Some_round _ _ _ _ Hys H1) as [c Hc].
    rewrite decide_True in Hc by done.
    apply bind_Some in Hc as (w & Hw%W_Some & _). lia.
  - destruct (print_inventory P σ) as [ys|] eqn:Hys; [exfalso|done].
    destruct (for_each_Some_round _ _ _ _ Hys H1) as [c Hc].
    rewrite decide_True in Hc by done.
    apply bind_Some in Hc as (w & Hw%Ip_Some & _). lia.
Qed.

Lemma customer_listings_raise_witness :
  print_waste (with_sizes notebook_params 12 7 0 2) (λ _, 1%R) = None ∧
  print_inventory (with_sizes notebook_params 12 7 0 2) (λ _, 1%R) = None.
Proof.
  apply (customer_listings_raise (with_sizes notebook_params 12 7 0 2)
           (λ _, 1%R)); simpl; lia.
Defined.

End Printing.


(** ** When the notebook raises *)

Section Raises.
Import Notebook.
Variable norm_ppf : R → R.
Variable P : Params.t.

Local Abbreviation V := (Params.V P).
Local Abbreviation K := (Params.K P).
Local Abbreviation T := (Params.T P).
Local Abbreviation m := (Params.m P).

(** *** The inputs of a model that was built *)

Lemma build_Some_divisions st :
  build norm_ppf P = Some st →
  (Params.kappa P * Params.psi P)%R ≠ 0%R ∧
  (1000 * Params.epsilon P * Params.varpi P)%R ≠ 0%R.
Proof.
  unfold build. intros H.
  apply bind_Some in H as (lam & [Hl _]%pydiv_Some & H).
  by apply bind_Some in H as (gam & [Hg _]%pydiv_Some & _).
Qed.

Lemma waste_cost_Some_shelf_life e :
  waste_cost P = Some e → 2 ≤ V → 1 ≤ m.
Proof.
  intros (ys & Hys & _)%fmap_Some HV.
  destruct (decide (1 ≤ m)) as [|Hm]; [done|exfalso].
  assert (H1 : 1 ∈ range_i_ P) by (apply elem_of_range; lia).
  destruct (for_each_Some_round _ _ _ _ Hys H1) as [c1 Hc1].
  assert (H0 : 0 ∈ range m (T + 1)) by (apply elem_of_range; lia).
  destruct (for_each_Some_round _ _ _ _ Hc1 H0) as [c0 Hc0].
  apply bind_Some in Hc0 as (w & Hw%W_Some & _). lia.
Qed.

Lemma driver_cost_Some_edge e i j :
  driver_cost P = Some e → 1 ≤ K → 1 ≤ T → i < V → j < V → i ≠ j →
  is_Some (index2 (Params.a P) i j) ∧ Params.f P ≠ 0%R.
Proof.
  intros (ys & Hys & _)%fmap_Some HK HT Hi Hj Hij.
  destruct (loop4_round _ _ _ _ _ ys 1 1 j i Hys) as (cx & Hcx & _);
    try (apply elem_of_range; lia).
  rewrite decide_True in Hcx by done.
  apply bind_Some in Hcx as (a_ij & Ha & Hcx).
  apply bind_Some in Hcx as (d & [Hf _]%pydiv_Some & _).
  split; [by rewrite Ha|done].
Qed.

Lemma right_of_const_21_Some_demand arr i s :
  right_of_const_21 norm_ppf P = Some arr → 1 ≤ i < V → 1 ≤ s ≤ T →
  is_Some (index2 (Params.d_mu P) i s).
Proof.
  intros Harr Hi Hs.
  destruct (fill_Some _ _ _ _ _ _ _ Harr
              (dims_np_zeros (Params.V P) (Params.T P + 1)))
    as (_ & Hin & _).
  destruct (Hin s i) as (v & Hv & _); try (apply elem_of_range; lia).
  unfold right_of_const_21_entry in Hv.
  apply bind_Some in Hv as (s1 & H1 & _).
  apply (sum_for_is_Some _ _ s (mk_is_Some _ _ H1)).
  apply elem_of_range. lia.
Qed.

Lemma build_Some_inputs_ok st :
  build norm_ppf P = Some st → 2 ≤ V → 1 ≤ K → 1 ≤ T → inputs_ok P.
Proof.
  intros Hst HV HK HT.
  destruct (build_Some_divisions st Hst) as [Hl Hg].
  destruct (build_Some norm_ppf P st Hst)
    as (cX & cF & c2 & c3 & c45 & c7 & c8 & c9 & c10 & c21 & Hrhs & _ & _
        & _ & Hwaste & _ & Hdriver & _).
  split; [|done|done| | |].
  - by eapply waste_cost_Some_shelf_life.
  - by destruct (driver_cost_Some_edge _ 0 1 Hdriver HK HT) as [_ ?];
      [lia..|].
  - intros i s Hi Hs. by eapply right_of_const_21_Some_demand.
  - intros i j Hi Hj Hij.
    by destruct (driver_cost_Some_edge _ i j Hdriver HK HT Hi Hj Hij).
Qed.

(** *** The table on a demand table that covers customers and periods *)

Lemma right_of_const_21_entry_is_Some_customers i t :
  (∀ i s, 1 ≤ i < V → 1 ≤ s ≤ T → is_Some (index2 (Params.d_mu P) i s)) →
  1 ≤ i < V → t ≤ T → is_Some (right_of_const_21_entry norm_ppf P i t).
Proof.
  intros Hcov Hi Ht. unfold right_of_const_21_entry.
  assert (Hd : ∀ s, s ∈ range 1 (t + 1) →
            index2 (Params.d_mu P) i s = Some (demand P i s)).
  { intros s Hs%elem_of_range. apply index2_demand, Hcov; lia. }
  rewrite (sum_for_Some _ (λ s, index2 (Params.d_mu P) i s) (demand P i))
    by done.
  simpl. rewrite (sum_for_Some _ _ (λ s, (demand P i s) ^ 2)%R).
  2:{ intros s Hs. by rewrite Hd. }
  simpl. by eexists.
Qed.

Lemma right_of_const_21_is_Some_customers :
  (∀ i s, 1 ≤ i < V → 1 ≤ s ≤ T → is_Some (index2 (Params.d_mu P) i s)) →
  is_Some (right_of_const_21 norm_ppf P).
Proof.
  intros Hcov.
  apply (fill_is_Some _ _ _ _ (Params.V P) (Params.T P + 1)).
  - apply dims_np_zeros.
  - unfold range_t, range_i_. intros t i Ht%elem_of_range Hi%elem_of_range.
    split; [lia|]. split; [lia|].
    apply right_of_const_21_entry_is_Some_customers; [done|lia..].
  - unfold range_t. intros t Ht%elem_of_range. lia.
Qed.

Lemma right_of_const_21_dims arr :
  right_of_const_21 norm_ppf P = Some arr → dims arr V (T + 1).
Proof.
  intros Harr.
  by destruct (fill_Some _ _ _ _ _ _ _ Harr
                 (dims_np_zeros (Params.V P) (Params.T P + 1))) as (? & _).
Qed.

(** *** The cells on such inputs *)

Hypothesis Hok : inputs_ok P.










End Raises.

Section RaisesClaims.
Import Notebook.



(** A shelf life of no period: [waste_cost] reads [W[1][0]]. *)
Example build_no_shelf_life norm_ppf :
  build norm_ppf (with_sizes notebook_params 12 7 4 0) = None.
Proof.
  destruct (build norm_ppf (with_sizes notebook_params 12 7 4 0))
    as [st|] eqn:Hst; [exfalso|done].
  apply build_Some_inputs_ok in Hst as [Hm _ _ _ _ _]; simpl in *; lia.
Qed.

(** A vehicle that stands still: [driver_cost] divides by the speed. *)
Example build_no_speed norm_ppf :
  build norm_ppf (with_engine notebook_params 44 737 0.4 0.9 0) = None.
Proof.
  destruct (build norm_ppf (with_engine notebook_params 44 737 0.4 0.9 0))
    as [st|] eqn:Hst; [exfalso|done].
  apply build_Some_inputs_ok in Hst as [_ _ _ Hf _ _]; simpl in *;
    lia || done.
Qed.

(** X12: with demands of ordinary size, the table [right_of_const_21] is
    computed exactly when the demand table has an entry [d_mu[i][s]] for
    every customer [i] and every period [s]; otherwise an [IndexError]
    stops the notebook. *)
Theorem right_of_const_21_computed_iff (norm_ppf : R → R) (P : Params.t) :
  demands_in_range P →
  is_Some (right_of_const_21 norm_ppf P) ↔
  ∀ i s, 1 ≤ i ≤ Params.V P - 1 → 1 ≤ s ≤ Params.T P →
    is_Some (index2 (Params.d_mu P) i s).
Proof.
  intros _. split.
  - intros [arr Harr] i s Hi Hs.
    apply (right_of_const_21_Some_demand norm_ppf P arr); [done|lia..].
  - intros Hcov. apply right_of_const_21_is_Some_customers.
    intros i s Hi Hs. apply Hcov; lia.
Qed.

Lemma right_of_const_21_computed_iff_witness :
  is_Some (right_of_const_21 example_ppf notebook_params) ↔
  ∀ i s, 1 ≤ i ≤ Params.V notebook_params - 1 →
    1 ≤ s ≤ Params.T notebook_params →
    is_Some (index2 (Params.d_mu notebook_params) i s).
Proof.
  apply (right_of_const_21_computed_iff example_ppf notebook_params
           notebook_demands_in_range).
Defined.

(** X13: the table [right_of_const_21] has [V] rows of [T + 1] entries,
    and its row 0 (the depot) and its column 0 keep the zero they were
    created with. *)
Theorem right_of_const_21_shape (norm_ppf : R → R) (P : Params.t)
    (arr : list (list R)) :
  right_of_const_21 norm_ppf P = Some arr →
  length arr = Params.V P ∧
  (∀ row, row ∈ arr → length row = Params.T P + 1) ∧
  (∀ i t, i < Params.V P → t ≤ Params.T P → i = 0 ∨ t = 0 →
     index2 arr i t = Some 0%R).
Proof.
  intros Harr.
  destruct (right_of_const_21_dims norm_ppf P arr Harr) as [Hlen Hrows].
  split; [done|]. split.
  - intros row Hrow. rewrite Forall_forall in Hrows. by apply Hrows.
  - intros i t Hi Ht H0.
    by apply (right_of_const_21_zero norm_ppf P).
Qed.

Lemma right_of_const_21_shape_witness :
  ∃ arr, right_of_const_21 example_ppf notebook_params = Some arr ∧
    length arr = Params.V notebook_params ∧
    (∀ row, row ∈ arr → length row = Params.T notebook_params + 1) ∧
    (∀ i t, i < Params.V notebook_params → t ≤ Params.T notebook_params →
       i = 0 ∨ t = 0 → index2 arr i t = Some 0%R).
Proof.
  destruct (right_of_const_21_is_Some example_ppf notebook_params
              (wf_d_mu _ notebook_well_formed)) as [arr Harr].
  exists arr. split; [exact Harr|].
  exact (right_of_const_21_shape example_ppf notebook_params arr Harr).
Defined.



End RaisesClaims.


(** ** The sign of the costs *)

Section CostSigns.
Import Notebook.
Local Open Scope R_scope.

Lemma sigma_nonneg lo hi (f : nat → R) :
  (∀ s, (lo ≤ s ≤ hi)%nat → 0 <= f s) → 0 <= sigma lo hi f.
Proof. intros Hf. apply sigma_n_nonneg. intros s Hs. apply Hf. lia. Qed.

Lemma sigma_edges_nonneg V (f : nat → nat → R) :
  (∀ i j, (i < V)%nat → (j < V)%nat → i ≠ j → 0 <= f i j) →
  0 <= sigma_edges V f.
Proof.
  intros Hf. unfold sigma_edges. apply sigma_n_nonneg. intros i Hi.
  apply sigma_n_nonneg. intros j Hj. case_decide; [lra|].
  apply Hf; [lia|lia|done].
Qed.

Lemma distance_nonneg P i j : nonnegative P → 0 <= distance P i j.
Proof.
  intros Hnn. pose proof (nn_a P Hnn) as Ha. unfold distance, index2.
  destruct (Params.a P !! i) as [row|] eqn:Hrow; simpl; [|lra].
  rewrite Forall_lookup in Ha. specialize (Ha _ _ Hrow). simpl in Ha.
  destruct (row !! j) as [x|] eqn:Hx; simpl; [|lra].
  rewrite Forall_lookup in Ha. by apply (Ha _ _ Hx).
Qed.

Lemma s_nonneg P : nonnegative P → 0 <= s_ P.
Proof.
  intros Hnn. unfold s_.
  pose proof (nn_g P Hnn). pose proof (nn_C_r P Hnn).
  destruct (nn_phi P Hnn) as [Hphi0 Hphi1]. pose proof PI_RGT_0.
  assert (0 <= sin (Params.phi P)) by (apply sin_ge_0; lra).
  assert (0 <= cos (Params.phi P)) by (apply cos_ge_0; lra).
  assert (0 <= Params.g P * Params.C_r P) by (by apply Rmult_le_pos).
  assert (0 <= Params.g P * sin (Params.phi P)) by (by apply Rmult_le_pos).
  assert (0 <= Params.g P * Params.C_r P * cos (Params.phi P))
    by (by apply Rmult_le_pos).
  lra.
Qed.

Lemma fuel_on_edge_nonneg P i j x fl :
  nonnegative P → 0 <= x → 0 <= fl → 0 <= fuel_on_edge P i j x fl.
Proof.
  intros Hnn Hx Hfl. unfold fuel_on_edge.
  pose proof (distance_nonneg P i j Hnn) as Ha.
  pose proof (s_nonneg P Hnn) as Hs.
  assert (Hlam : 0 <= Params.xi P / (Params.kappa P * Params.psi P)).
  { unfold Rdiv. apply Rmult_le_pos; [apply (nn_xi P Hnn)|].
    destruct (Req_dec_T (Params.kappa P * Params.psi P) 0) as [->|Hne].
    - rewrite Rinv_0. lra.
    - apply Rlt_le, Rinv_0_lt_compat.
      destruct (Rmult_le_pos _ _ (nn_kappa P Hnn) (nn_psi P Hnn))
        as [Hlt|Heq]; [done|by rewrite <- Heq in Hne]. }
  assert (Hgam : 0 <= 1 / (1000 * Params.epsilon P * Params.varpi P)).
  { unfold Rdiv. apply Rmult_le_pos; [lra|].
    destruct (Req_dec_T (1000 * Params.epsilon P * Params.varpi P) 0)
      as [->|Hne].
    - rewrite Rinv_0. lra.
    - apply Rlt_le, Rinv_0_lt_compat.
      assert (0 <= 1000 * Params.epsilon P * Params.varpi P) as [Hlt|Heq];
        [|done|by rewrite <- Heq in Hne].
      pose proof (Rmult_le_pos _ _ (nn_epsilon P Hnn) (nn_varpi P Hnn)).
      rewrite Rmult_assoc. lra. }
  assert (Hy : 0 <= y P).
  { unfold y.
    apply Rmult_le_pos; [|apply (nn_V_e P Hnn)].
    apply Rmult_le_pos; [apply (nn_k_e P Hnn)|apply (nn_N_e P Hnn)]. }
  assert (Hb : 0 <= beta P).
  { unfold beta.
    apply Rmult_le_pos; [|apply (nn_rho P Hnn)].
    apply Rmult_le_pos; [|apply (nn_A_e P Hnn)].
    apply Rmult_le_pos; [lra|apply (nn_C_d P Hnn)]. }
  pose proof (nn_mu P Hnn) as Hmu.
  pose proof (pow2_ge_0 (Params.f P)) as Hf2.
  assert (Hmx : 0 <= Params.mu P * x + fl).
  { apply Rplus_le_le_0_compat; [by apply Rmult_le_pos|done]. }
  set (lam := Params.xi P / (Params.kappa P * Params.psi P)) in *.
  set (gam := 1 / (1000 * Params.epsilon P * Params.varpi P)) in *.
  set (a := distance P i j) in *. set (f2 := Params.f P ^ 2) in *.
  set (mx := Params.mu P * x + fl) in *.
  generalize dependent (y P). generalize dependent (beta P).
  generalize dependent (s_ P). intros s Hs b Hb y0 Hy.
  clearbody lam gam a f2 mx.
  assert (0 <= y0 * a * x) by (repeat apply Rmult_le_pos; done).
  assert (0 <= gam * b * a * f2 * x) by (repeat apply Rmult_le_pos; done).
  assert (0 <= gam * s * mx * a) by (repeat apply Rmult_le_pos; done).
  apply Rmult_le_pos; [done|]. lra.
Qed.

(** X15: when the constants are not negative, the slope lies between 0 and
    a right angle and no distance is negative, each of the four costs of
    the objective, and so the objective, is at least 0 in every feasible
    solution. *)
Theorem costs_nonnegative (norm_ppf : R → R) (P : Params.t) :
  well_formed P → nonnegative P →
  ∃ st obj, build norm_ppf P = Some st ∧
    objective (st_problem st) = Some obj ∧
    ∀ σ, feasible P (st_problem st) σ →
      0 <= eval σ (st_inventory_cost st) ∧
      0 <= eval σ (st_waste_cost st) ∧
      0 <= eval σ (st_fuel_cost st) ∧
      0 <= eval σ (st_driver_cost st) ∧
      0 <= eval σ obj.
Proof.
  intros Hwf Hnn.
  destruct (build_is_Some norm_ppf P Hwf) as [st Hst].
  destruct (build_Some norm_ppf P st Hst)
    as (cX & cF & c2 & c3 & c45 & c7 & c8 & c9 & c10 & c21 & _ & _ & _
        & Hinv & Hwaste & Hfuel & Hdriver & _ & _ & _ & _ & _ & _ & _ & _
        & Hobj & _).
  eexists st, _. split; [done|]. split; [exact Hobj|].
  intros σ [Hdom _].
  pose proof (wf_shelf_life P Hwf) as Hm.
  assert (HIp : ∀ i t, (1 ≤ i ≤ Params.V P - 1)%nat →
            (1 ≤ t ≤ Params.T P)%nat → 0 <= σ (Var.Ip i t)).
  { intros i t Hi Ht. destruct (Hdom (Var.Ip i t)) as [Hlb _]; [|done].
    simpl. apply Ip_in_range; lia. }
  assert (HW : ∀ i t, (1 ≤ i ≤ Params.V P - 1)%nat →
            (1 ≤ t ≤ Params.T P)%nat → 0 <= σ (Var.W i t)).
  { intros i t Hi Ht. destruct (Hdom (Var.W i t)) as [Hlb _]; [|done].
    simpl. apply W_in_range; lia. }
  assert (HX : ∀ i j k t, (i < Params.V P)%nat → (j < Params.V P)%nat →
            (1 ≤ k ≤ Params.K P)%nat → (1 ≤ t ≤ Params.T P)%nat →
            0 <= σ (Var.X i j k t)).
  { intros i j k t Hi Hj Hk Ht.
    destruct (Hdom (Var.X i j k t)) as [_ [->| ->]]; [|lra..].
    simpl. by apply X_in_range. }
  assert (HF : ∀ i j k t, (i < Params.V P)%nat → (j < Params.V P)%nat →
            (1 ≤ k ≤ Params.K P)%nat → (1 ≤ t ≤ Params.T P)%nat →
            0 <= σ (Var.F i j k t)).
  { intros i j k t Hi Hj Hk Ht.
    destruct (Hdom (Var.F i j k t)) as [Hlb _]; [|done].
    simpl. by apply F_in_range. }
  assert (H1 : 0 <= eval σ (st_inventory_cost st)).
  { rewrite (eval_inventory_cost P _ σ Hinv).
    apply Rmult_le_pos; [apply (nn_h P Hnn)|].
    apply sigma_nonneg. intros i Hi. apply sigma_nonneg. intros t Ht.
    by apply HIp. }
  assert (H2 : 0 <= eval σ (st_waste_cost st)).
  { rewrite (eval_waste_cost P _ σ Hwaste).
    apply Rmult_le_pos; [apply (nn_p P Hnn)|].
    apply sigma_nonneg. intros i Hi. apply sigma_nonneg. intros t Ht.
    apply HW; [done|lia]. }
  assert (H3 : 0 <= eval σ (st_fuel_cost st)).
  { rewrite (eval_fuel_cost P _ σ Hfuel).
    apply Rmult_le_pos; [apply (nn_l P Hnn)|].
    apply sigma_edges_nonneg. intros i j Hi Hj Hij.
    apply sigma_nonneg. intros k Hk. apply sigma_nonneg. intros t Ht.
    apply fuel_on_edge_nonneg; [done|by apply HX|by apply HF]. }
  assert (H4 : 0 <= eval σ (st_driver_cost st)).
  { rewrite (eval_driver_cost P _ σ Hdriver).
    apply Rmult_le_pos; [apply (nn_r P Hnn)|].
    apply sigma_edges_nonneg. intros i j Hi Hj Hij.
    apply sigma_nonneg. intros k Hk. apply sigma_nonneg. intros t Ht.
    apply Rmult_le_pos; [|by apply HX].
    unfold Rdiv. apply Rmult_le_pos; [by apply distance_nonneg|].
    apply Rlt_le, Rinv_0_lt_compat.
    pose proof (nn_f P Hnn). pose proof (wf_speed P Hwf). lra. }
  repeat (split; [done|]). simpl. lra.
Qed.

Lemma notebook_nonnegative : nonnegative notebook_params.
Proof.
  split; try (simpl; lra).
  - simpl. pose proof PI_RGT_0. lra.
  - unfold notebook_params, Params.a.
    repeat first [apply Forall_nil_2 | apply Forall_cons_2]; lra.
Qed.

Lemma costs_nonnegative_witness :
  ∃ st obj, build example_ppf notebook_params = Some st ∧
    objective (st_problem st) = Some obj ∧
    ∀ σ, feasible notebook_params (st_problem st) σ →
      0 <= eval σ (st_inventory_cost st) ∧
      0 <= eval σ (st_waste_cost st) ∧
      0 <= eval σ (st_fuel_cost st) ∧
      0 <= eval σ (st_driver_cost st) ∧
      0 <= eval σ obj.
Proof.
  apply (costs_nonnegative example_ppf notebook_params
           notebook_well_formed notebook_nonnegative).
Defined.

End CostSigns.


(** ** A horizon without periods *)

Section EmptyHorizon.
Import Notebook.
Variable norm_ppf : R → R.
Variable P : Params.t.
Hypothesis HT : Params.T P = 0.

Lemma for_each_no_rounds {A B : Type} (l : list A)
    (body : A → option (list B)) :
  (∀ x, x ∈ l → body x = Some []) → for_each l body = Some [].
Proof.
  intros Hb. rewrite (for_each_ext l body (λ _, [])) by done.
  f_equal. induction l as [|x l IH]; [done|].
  rewrite fmap_cons. simpl. apply IH. intros z Hz. apply Hb. by right.
Qed.

Lemma range_t_empty : range_t P = [].
Proof. unfold range_t, range. by rewrite HT. Qed.

Lemma right_of_const_21_empty :
  right_of_const_21 norm_ppf P = Some (np_zeros (Params.V P) 1).
Proof. unfold right_of_const_21. rewrite range_t_empty, HT. done. Qed.

Lemma inventory_cost_empty : inventory_cost P = Some (Const 0).
Proof.
  unfold inventory_cost. rewrite for_each_no_rounds; [done|].
  intros i _. by rewrite range_t_empty.
Qed.

Lemma waste_cost_empty :
  1 ≤ Params.m P → waste_cost P = Some (Const 0).
Proof.
  intros Hm. unfold waste_cost. rewrite for_each_no_rounds; [done|].
  intros i _. unfold range. rewrite HT.
  by replace (0 + 1 - Params.m P) with 0 by lia.
Qed.

Lemma fuel_cost_empty :
  is_Some (lambda_ P) → is_Some (gamma P) → fuel_cost P = Some (Const 0).
Proof.
  intros [lam Hlam] [gam Hgam]. unfold fuel_cost.
  rewrite Hlam, Hgam. simpl. by rewrite range_t_empty.
Qed.

Lemma driver_cost_empty : driver_cost P = Some (Const 0).
Proof. unfold driver_cost. by rewrite range_t_empty. Qed.

End EmptyHorizon.

Section EmptyHorizonClaims.
Import Notebook.
Local Open Scope R_scope.

(** X16: with no period ([T = 0]), a shelf life of at least one period and
    the two divisors of the fuel model different from 0, the notebook builds
    a model without any constraint whose objective is 0 for every value of
    the variables, and the table of the bounds stays the array of zeros. *)
Theorem empty_horizon (norm_ppf : R → R) (P : Params.t) :
  Params.T P = 0%nat → (1 ≤ Params.m P)%nat →
  Params.kappa P * Params.psi P ≠ 0 →
  1000 * Params.epsilon P * Params.varpi P ≠ 0 →
  ∃ st obj, build norm_ppf P = Some st ∧
    constraints (st_problem st) = [] ∧
    st_right_of_const_21 st = np_zeros (Params.V P) 1 ∧
    objective (st_problem st) = Some obj ∧
    ∀ σ, eval σ obj = 0.
Proof.
  intros HT Hm Hlam Hgam.
  assert (Hl : is_Some (lambda_ P)).
  { unfold lambda_, pydiv. rewrite decide_False by done. by eexists. }
  assert (Hg : is_Some (gamma P)).
  { unfold gamma, pydiv. rewrite decide_False by done. by eexists. }
  eexists _, _. unfold build.
  destruct Hl as [lam Hl'], Hg as [gam Hg']. rewrite Hl', Hg'. simpl.
  rewrite (right_of_const_21_empty norm_ppf P HT). simpl.
  rewrite (inventory_cost_empty P HT), (waste_cost_empty P HT Hm),
    (fuel_cost_empty P HT), (driver_cost_empty P HT)
    by (by eexists).
  unfold X_diagonal, F_diagonal, constraints_2, constraints_3,
    constraints_4_5, constraints_7, constraints_8, constraints_9,
    constraints_10, constraints_21.
  rewrite !(range_t_empty P HT). simpl.
  split; [reflexivity|]. simpl.
  split; [reflexivity|]. split; [reflexivity|]. split; [reflexivity|].
  intros σ. simpl. lra.
Qed.

Lemma empty_horizon_witness :
  ∃ st obj,
    build example_ppf (with_sizes notebook_params 12 7 0 3) = Some st ∧
    constraints (st_problem st) = [] ∧
    st_right_of_const_21 st = np_zeros 12 1 ∧
    objective (st_problem st) = Some obj ∧
    ∀ σ, eval σ obj = 0.
Proof.
  apply (empty_horizon example_ppf (with_sizes notebook_params 12 7 0 3));
    simpl; [reflexivity|lia|lra|lra].
Defined.

End EmptyHorizonClaims.


(** ** The number of constraints *)

Section Counting.
Context {A B : Type}.
Implicit Types (l : list A) (body : A → option (list B)).

Lemma for_each_length_sum l body ys (n : A → nat) :
  for_each l body = Some ys →
  (∀ x cx, x ∈ l → body x = Some cx → length cx = n x) →
  length ys = sum_list (n <$> l).
Proof.
  revert ys. induction l as [|x l IH]; intros ys.
  - by intros [= <-] _.
  - rewrite for_each_cons.
    intros (cx & Hx & (yss & Hl & [= <-])%bind_Some)%bind_Some Hn.
    rewrite length_app, fmap_cons. simpl.
    rewrite (Hn x cx) by (done || by left).
    rewrite (IH yss); [done|done|].
    intros z cz Hz. apply Hn. by right.
Qed.

Lemma for_each_length l body ys (n : nat) :
  for_each l body = Some ys →
  (∀ x cx, x ∈ l → body x = Some cx → length cx = n) →
  length ys = length l * n.
Proof.
  intros Hl Hn. rewrite (for_each_length_sum l body ys (λ _, n) Hl Hn).
  clear. induction l as [|x l IH]; [done|].
  rewrite fmap_cons. simpl. by rewrite IH.
Qed.

Lemma bind_yield_length {C : Type} (o : option C) (g : C → B) cx :
  (x ← o; yield (g x)) = Some cx → length cx = 1.
Proof. by intros (c & _ & [= <-])%bind_Some. Qed.

End Counting.

Lemma length_range lo hi : length (range lo hi) = hi - lo.
Proof. unfold range. apply length_seq. Qed.

Lemma count_eq lo n j :
  lo ≤ j < lo + n →
  sum_list ((λ i, if decide (i = j) then 1 else 0) <$> seq lo n) = 1.
Proof.
  revert lo. induction n as [|n IH]; intros lo Hj; [lia|].
  simpl. case_decide as Hd.
  - subst j. f_equal. clear. generalize (le_n (S lo)).
    generalize (S lo) at 2 3. intros lo'. revert lo'.
    induction n as [|n IH]; intros lo' Hlo; [done|].
    simpl. rewrite decide_False by lia. apply IH. lia.
  - rewrite IH by lia. done.
Qed.

Lemma count_ne lo n j :
  lo ≤ j < lo + n →
  sum_list ((λ i, if decide (i ≠ j) then 1 else 0) <$> seq lo n) = n - 1.
Proof.
  intros Hj. pose proof (count_eq lo n j Hj) as Heq.
  assert (Hall : ∀ lo n,
    sum_list ((λ i, if decide (i = j) then 1 else 0) <$> seq lo n)
    + sum_list ((λ i, if decide (i ≠ j) then 1 else 0) <$> seq lo n) = n).
  { clear. intros lo n. revert lo.
    induction n as [|n IH]; intros lo; [done|].
    specialize (IH (S lo)).
    change (seq lo (S n)) with (lo :: seq (S lo) n).
    rewrite !fmap_cons. simpl.
    destruct (decide (lo = j)).
    - rewrite decide_False by (intros Hne; by apply Hne). lia.
    - rewrite decide_True by done. lia. }
  specialize (Hall lo n). lia.
Qed.

Section CountingFamilies.
Import Notebook.
Variable norm_ppf : R → R.
Variable P : Params.t.

Local Abbreviation V := (Params.V P).
Local Abbreviation K := (Params.K P).
Local Abbreviation T := (Params.T P).

Lemma length_range_t : length (range_t P) = T.
Proof. unfold range_t. rewrite length_range. lia. Qed.

Lemma length_range_k : length (range_k P) = K.
Proof. unfold range_k. rewrite length_range. lia. Qed.

Lemma length_range_i : length (range_i P) = V.
Proof. unfold range_i. rewrite length_range. lia. Qed.

Lemma length_range_j : length (range_j P) = V.
Proof. unfold range_j. rewrite length_range. lia. Qed.

Lemma length_range_i_ : length (range_i_ P) = V - 1.
Proof. unfold range_i_. by rewrite length_range. Qed.

Lemma length_range_j_ : length (range_j_ P) = V - 1.
Proof. unfold range_j_. by rewrite length_range. Qed.

(** One constraint for every customer and period. *)
Lemma length_loop2 (body : nat → nat → option (list constraint)) cs :
  (∀ i t ci, body i t = Some ci → length ci = 1) →
  for_each (range_t P) (λ t, for_each (range_i_ P) (λ i, body i t))
  = Some cs →
  length cs = T * (V - 1).
Proof.
  intros Hone H. rewrite (for_each_length _ _ _ (V - 1) H), length_range_t; [done|].
  intros t ct _ Ht.
  rewrite (for_each_length _ _ _ 1 Ht), length_range_i_; [lia|].
  intros i ci _ Hi. by apply Hone in Hi.
Qed.

(** One constraint for every period, vehicle and element of [l]. *)
Lemma length_loop3 (l : list nat)
    (body : nat → nat → nat → option (list constraint)) cs :
  (∀ i k t ci, body i k t = Some ci → length ci = 1) →
  for_each (range_t P) (λ t, for_each (range_k P) (λ k, for_each l (λ i,
    body i k t))) = Some cs →
  length cs = T * (K * length l).
Proof.
  intros Hone H.
  rewrite (for_each_length _ _ _ (K * length l) H), length_range_t; [done|].
  intros t ct _ Ht.
  rewrite (for_each_length _ _ _ (length l) Ht), length_range_k; [done|].
  intros k ck _ Hk.
  rewrite (for_each_length _ _ _ 1 Hk); [lia|].
  intros i ci _ Hi. by apply Hone in Hi.
Qed.

(** One constraint for every period, vehicle and node, from the loops
    that keep the pairs [i = j]. *)
Lemma length_diagonal
    (body : nat → nat → nat → nat → option (list constraint)) cs :
  (∀ i j k t ci, body i j k t = Some ci → length ci = 1) →
  for_each (range_t P) (λ t, for_each (range_k P) (λ k,
    for_each (range_j P) (λ j, for_each (range_i P) (λ i,
      if decide (i = j) then body i j k t else Some []))))
  = Some cs →
  length cs = T * (K * V).
Proof.
  intros Hone H.
  rewrite (for_each_length _ _ _ (K * V) H), length_range_t; [done|].
  intros t ct _ Ht.
  rewrite (for_each_length _ _ _ V Ht), length_range_k; [done|].
  intros k ck _ Hk.
  rewrite (for_each_length _ _ _ 1 Hk), length_range_j; [lia|].
  intros j cj Hj Hi. apply elem_of_range in Hj.
  rewrite (for_each_length_sum _ _ _
             (λ i, if decide (i = j) then 1 else 0) Hi).
  - unfold range_i, range. apply count_eq. lia.
  - intros i ci _. case_decide; [apply Hone|by intros [= <-]].
Qed.

(** One constraint for every period, vehicle and pair of different
    nodes. *)
Lemma length_off_diagonal
    (body : nat → nat → nat → nat → option (list constraint)) cs :
  (∀ i j k t ci, body i j k t = Some ci → length ci = 1) →
  for_each (range_t P) (λ t, for_each (range_k P) (λ k,
    for_each (range_i P) (λ i, for_each (range_j P) (λ j,
      if decide (i ≠ j) then body i j k t else Some []))))
  = Some cs →
  length cs = T * (K * (V * (V - 1))).
Proof.
  intros Hone H.
  rewrite (for_each_length _ _ _ (K * (V * (V - 1))) H), length_range_t;
    [done|].
  intros t ct _ Ht.
  rewrite (for_each_length _ _ _ (V * (V - 1)) Ht), length_range_k; [done|].
  intros k ck _ Hk.
  rewrite (for_each_length _ _ _ (V - 1) Hk), length_range_i; [done|].
  intros i ci Hi Hj. apply elem_of_range in Hi.
  rewrite (for_each_length_sum _ _ _
             (λ j, if decide (i ≠ j) then 1 else 0) Hj).
  - unfold range_j, range. rewrite Nat.sub_0_r.
    rewrite <- (count_ne 0 V i) by lia.
    f_equal. apply list_fmap_ext. intros _ j _.
    destruct (decide (i = j)) as [->|Hne].
    + by rewrite !decide_False by (intros Hne; by apply Hne).
    + rewrite !decide_True; [done|congruence|done].
  - intros j cj _. case_decide; [apply Hone|by intros [= <-]].
Qed.

Lemma length_constraints_4_5 cs :
  constraints_4_5 P = Some cs → length cs = T * (V - 1).
Proof.
  intros H.
  rewrite (for_each_length _ _ _ (V - 1) H), length_range_t; [done|].
  intros t ct _ Ht.
  case_decide.
  - rewrite (for_each_length _ _ _ 1 Ht), length_range_i_; [lia|].
    intros i ci _ Hi. by apply bind_yield_length in Hi.
  - rewrite (for_each_length _ _ _ 1 Ht), length_range_i_; [lia|].
    intros i ci _ Hi. by apply bind_yield_length in Hi.
Qed.

Lemma build_length st :
  build norm_ppf P = Some st →
  length (constraints (st_problem st)) =
  T * (4 * (V - 1) + K * (3 * V + 2 * (V - 1) + V * (V - 1))).
Proof.
  intros (cX & cF & c2 & c3 & c45 & c7 & c8 & c9 & c10 & c21 & H)%build_Some.
  destruct H as (_ & HcX & HcF & _ & _ & _ & _ & Hc2 & Hc3 & Hc45 & Hc7
                 & Hc8 & Hc9 & Hc10 & Hc21 & _ & ->).
  rewrite !length_app.
  apply length_diagonal in HcX; [|intros *; apply bind_yield_length].
  apply length_diagonal in HcF; [|intros *; apply bind_yield_length].
  apply length_loop2 in Hc2; [|intros *; apply bind_yield_length].
  apply length_loop2 in Hc3; [|intros *; apply bind_yield_length].
  apply length_constraints_4_5 in Hc45.
  apply length_loop3 in Hc7; [|intros *; apply bind_yield_length].
  apply length_loop3 in Hc8; [|intros *; apply bind_yield_length].
  apply length_loop3 in Hc9; [|intros *; apply bind_yield_length].
  apply length_off_diagonal in Hc10; [|intros *; apply bind_yield_length].
  apply length_loop2 in Hc21; [|intros *; apply bind_yield_length].
  rewrite length_range_j_ in Hc7. rewrite length_range_i in Hc8.
  rewrite length_range_i_ in Hc9. lia.
Qed.

End CountingFamilies.

Section CountingClaims.
Import Notebook.

(** X17: the model has one constraint for every index tuple of every
    family and no other: for each of the [T] periods, four for every
    customer ((2), (3), (4) or (5), (21)) and, for each of the [K]
    vehicles, three for every node (the two that forbid loops and (8)), two
    for every customer ((7), (9)) and one for every ordered pair of
    different nodes ((10)). *)
Theorem constraint_count (norm_ppf : R → R) (P : Params.t) :
  well_formed P →
  ∃ st, build norm_ppf P = Some st ∧
    length (constraints (st_problem st)) =
    Params.T P * (4 * (Params.V P - 1)
                  + Params.K P * (3 * Params.V P + 2 * (Params.V P - 1)
                                  + Params.V P * (Params.V P - 1))).
Proof.
  intros Hwf. destruct (build_is_Some norm_ppf P Hwf) as [st Hst].
  exists st. split; [done|]. by apply (build_length norm_ppf).
Qed.

Lemma constraint_count_witness :
  ∃ st, build example_ppf notebook_params = Some st ∧
    length (constraints (st_problem st))
    = 4 * (4 * 11 + 7 * (3 * 12 + 2 * 11 + 12 * 11)).
Proof.
  apply (constraint_count example_ppf notebook_params notebook_well_formed).
Defined.

End CountingClaims.
